(** * binary_set.hxx: a compact bit set and a subset-search trie

    A shallow embedding of [binary_set] and [bs_searcher] from
    [binary_set.hxx], followed by the properties proved about them.

    - [unsigned int] is a [Z] in [0, 2^32), [std::size_t] a [Z] in
      [0, 2^64), [unsigned char] a [Z] in [0, 256); every conversion that
      can wrap is written out with [u32], [usize], [u8].
    - [std::vector<unsigned char>] is a [list Z]; [operator[]] outside the
      vector is undefined behaviour in C++ and yields [Undefined] here.
    - a member function that can throw returns an [outcome]; a non-const
      member function is a computation in the state monad [M] over the
      object, so that the state at the moment of a [throw] is visible.
    - [std::unique_ptr<treenode>] is an [option treenode]; a raw pointer into
      the uniquely owned tree is a cursor: the chain of parents walked so far
      (nearest first), each with the branch taken, and the node in focus. *)

From Stdlib Require Import ZArith List Bool Lia String Permutation.
Import ListNotations.

Local Open Scope Z_scope.

Ltac below8 k H :=
  assert (k = 0 \/ k = 1 \/ k = 2 \/ k = 3 \/ k = 4 \/ k = 5 \/ k = 6 \/ k = 7)
    as [->|[->|[->|[->|[->|[->|[->| ->]]]]]]] by lia.

(** ** Outcomes of a call *)

Inductive exn_class : Type :=
| invalid_argument   (* std::invalid_argument *)
| domain_error       (* std::domain_error *)
| out_of_range.      (* std::out_of_range *)

Record exn : Type := mk_exn { exn_type : exn_class; what : string }.

Inductive outcome (A : Type) : Type :=
| Ok (a : A)          (* normal return *)
| Throw (e : exn)     (* an exception leaves the function *)
| Undefined           (* undefined behaviour: vector access out of bounds *)
| OutOfFuel.          (* the model of a loop ran out of fuel *)

Arguments Ok {A} a.
Arguments Throw {A} e.
Arguments Undefined {A}.
Arguments OutOfFuel {A}.

Definition obind {A B : Type} (o : outcome A) (k : A -> outcome B) : outcome B :=
  match o with
  | Ok a => k a
  | Throw e => Throw e
  | Undefined => Undefined
  | OutOfFuel => OutOfFuel
  end.

(** State and error monad for non-const member functions: the object is the
    state, and it is returned also when the call throws. *)
Definition M (S A : Type) : Type := S -> outcome A * S.

Definition ret {S A : Type} (a : A) : M S A := fun s => (Ok a, s).

Definition bind {S A B : Type} (m : M S A) (k : A -> M S B) : M S B :=
  fun s =>
    match m s with
    | (Ok a, s') => k a s'
    | (Throw e, s') => (Throw e, s')
    | (Undefined, s') => (Undefined, s')
    | (OutOfFuel, s') => (OutOfFuel, s')
    end.

(** A const member function called on the object. *)
Definition query {S A : Type} (f : S -> outcome A) : M S A := fun s => (f s, s).

(** An assignment to a data member that cannot fail. *)
Definition modify {S : Type} (f : S -> S) : M S unit := fun s => (Ok tt, f s).

(** An update of the object that can fail; the object is untouched then. *)
Definition try_modify {S : Type} (f : S -> outcome S) : M S unit :=
  fun s =>
    match f s with
    | Ok s' => (Ok tt, s')
    | Throw e => (Throw e, s)
    | Undefined => (Undefined, s)
    | OutOfFuel => (OutOfFuel, s)
    end.

Declare Scope outcome_scope.
Delimit Scope outcome_scope with outcome.
Declare Scope monad_scope.
Delimit Scope monad_scope with monad.

Notation "x <- c1 ;; c2" := (obind c1 (fun x => c2))
  (at level 61, c1 at next level, right associativity) : outcome_scope.
Notation "c1 ;; c2" := (obind c1 (fun _ => c2))
  (at level 61, right associativity) : outcome_scope.
Notation "x <- c1 ;; c2" := (bind c1 (fun x => c2))
  (at level 61, c1 at next level, right associativity) : monad_scope.
Notation "c1 ;; c2" := (bind c1 (fun _ => c2))
  (at level 61, right associativity) : monad_scope.

(** ** Machine integers and vectors *)

Definition u8 (x : Z) : Z := x mod 256.
Definition u32 (x : Z) : Z := x mod 2 ^ 32.
Definition usize (x : Z) : Z := x mod 2 ^ 64.

Definition vec_size (v : list Z) : Z := Z.of_nat (List.length v).

Definition in_bounds (v : list Z) (i : Z) : bool :=
  (0 <=? i) && (i <? vec_size v).

(** [v[i]] as an rvalue. *)
Definition vec_get (v : list Z) (i : Z) : outcome Z :=
  if in_bounds v i then Ok (nth (Z.to_nat i) v 0) else Undefined.

Fixpoint upd (n : nat) (x : Z) (v : list Z) : list Z :=
  match v, n with
  | [], _ => []
  | _ :: t, O => x :: t
  | h :: t, S m => h :: upd m x t
  end.

(** [v[i] = x]. *)
Definition vec_set (v : list Z) (i : Z) (x : Z) : outcome (list Z) :=
  if in_bounds v i then Ok (upd (Z.to_nat i) x v) else Undefined.

(** The indices [0, 1, ..., n-1] of a counted loop. *)
Definition range (n : Z) : list Z := map Z.of_nat (seq 0 (Z.to_nat n)).

(** ** binary_set *)

Module binary_set.

Record t : Type := mk {
  capacity_ : Z;          (* unsigned int *)
  size_ : Z;              (* std::size_t *)
  set_ : list Z           (* std::vector<unsigned char> *)
}.

(** [binary_set() noexcept = default]. *)
Definition default : t := mk 0 0 [].

Definition with_size (n : Z) (s : t) : t := mk (capacity_ s) n (set_ s).
Definition with_set (v : list Z) (s : t) : t := mk (capacity_ s) (size_ s) v.

(** The exceptions thrown, each with the text it carries. *)
Definition invalid_capacity : exn :=
  mk_exn invalid_argument
    "Cannot explicitly create a binary_set with capacity 0."%string.
Definition domain_empty : exn :=
  mk_exn domain_error "This binary set has a capacity of 0."%string.
Definition element_out_of_range : exn :=
  mk_exn out_of_range
    "Specified element is outside of the possible range for this binary_set."%string.
Definition capacity_mismatch : exn :=
  mk_exn invalid_argument
    "The two binary_set don't have the same capacity."%string.

(** [static_cast<unsigned char>(~0u)]. *)
Definition all_ones : Z := u8 (u32 (Z.lnot 0)).

(** [static_cast<unsigned char>((1u << (capacity_ % 8)) - 1)]. *)
Definition last_mask (capacity : Z) : Z :=
  u8 (u32 (u32 (Z.shiftl 1 (capacity mod 8)) - 1)).

(** [set_[set_.size() - 1] &= mask], the index computed in [std::size_t]. *)
Definition mask_last (mask : Z) (v : list Z) : outcome (list Z) :=
  (let i := usize (vec_size v - 1) in
   b <- vec_get v i ;;
   vec_set v i (u8 (Z.land b mask)))%outcome.

(** [explicit binary_set(unsigned int capacity, bool fill = false)]. *)
Definition make (capacity : Z) (fill : bool) : outcome t :=
  if capacity =? 0 then
    Throw invalid_capacity
  else
    let size := if fill then capacity else 0 in
    let set := repeat (if fill then all_ones else 0)
                      (Z.to_nat (u32 (capacity + 7) / 8)) in
    if fill && negb (capacity mod 8 =? 0) then
      (set' <- mask_last (last_mask capacity) set ;;
       Ok (mk capacity size set'))%outcome
    else Ok (mk capacity size set).

Definition validate_element (element : Z) (s : t) : outcome unit :=
  if capacity_ s =? 0 then
    Throw domain_empty
  else if capacity_ s <=? element then
    Throw element_out_of_range
  else Ok tt.

Definition validate_same_capacity (other : t) (s : t) : outcome unit :=
  if negb (capacity_ s =? capacity_ other) then
    Throw capacity_mismatch
  else Ok tt.

(** [bool contains(unsigned int element) const]. *)
Definition contains (element : Z) (s : t) : outcome bool :=
  (validate_element element s ;;
   b <- vec_get (set_ s) (element / 8) ;;
   Ok (negb (Z.land b (u32 (Z.shiftl 1 (element mod 8))) =? 0)))%outcome.

(** [bool operator[](unsigned int element) const]. *)
Definition index (element : Z) (s : t) : outcome bool := contains element s.

Definition capacity (s : t) : Z := capacity_ s.
Definition size (s : t) : Z := size_ s.

(** [set_[i] = f(set_[i])] on the object. *)
Definition update_byte (i : Z) (f : Z -> Z) : M t unit :=
  try_modify (fun s =>
    (b <- vec_get (set_ s) i ;;
     v <- vec_set (set_ s) i (f b) ;;
     Ok (with_set v s))%outcome).

(** [bool add(unsigned int element)]. *)
Definition add (element : Z) : M t bool :=
  (query (validate_element element) ;;
   present <- query (contains element) ;;
   if (present : bool) then ret false
   else
     update_byte (element / 8)
       (fun b => u8 (Z.lor b (u32 (Z.shiftl 1 (element mod 8))))) ;;
     modify (fun s => with_size (usize (size_ s + 1)) s) ;;
     ret true)%monad.

(** [bool remove(unsigned int element)]. *)
Definition remove (element : Z) : M t bool :=
  (query (validate_element element) ;;
   present <- query (contains element) ;;
   if negb present then ret false
   else
     update_byte (element / 8)
       (fun b => u8 (Z.land b (u32 (Z.lnot (u32 (Z.shiftl 1 (element mod 8))))))) ;;
     modify (fun s => with_size (usize (size_ s - 1)) s) ;;
     ret true)%monad.

(** [void clear() noexcept]. *)
Definition clear (s : t) : t :=
  mk (capacity_ s) 0 (map (fun _ => 0) (set_ s)).

(** [void fill()]. *)
Definition fill : M t unit :=
  (modify (fun s => with_set (map (fun _ => all_ones) (set_ s)) s) ;;
   c <- query (fun s => Ok (capacity_ s)) ;;
   (if negb (c mod 8 =? 0) && negb (c =? 0)
    then try_modify (fun s =>
           (v <- mask_last (last_mask c) (set_ s) ;; Ok (with_set v s))%outcome)
    else ret tt) ;;
   modify (fun s => with_size (capacity_ s) s))%monad.

(** [bool empty() const noexcept]. *)
Definition empty (s : t) : bool := forallb (fun byte => byte =? 0) (set_ s).

(** The [while (b)] loop of [recalculate_size]: Brian Kernighan's count of
    the set bits of one byte, added to [size]. *)
Fixpoint count_byte (fuel : nat) (b size : Z) : outcome Z :=
  if b =? 0 then Ok size
  else match fuel with
       | O => OutOfFuel
       | S fuel' => count_byte fuel' (u8 (Z.land b (b - 1))) (usize (size + 1))
       end.

(** The [for (unsigned char byte : set_)] loop of [recalculate_size]. *)
Fixpoint count_bytes (v : list Z) (size : Z) : outcome Z :=
  match v with
  | [] => Ok size
  | byte :: rest =>
      (size' <- count_byte 8 byte size ;; count_bytes rest size')%outcome
  end.

(** [void recalculate_size() noexcept]. *)
Definition recalculate_size : M t unit :=
  try_modify (fun s =>
    (n <- count_bytes (set_ s) 0 ;; Ok (with_size n s))%outcome).

(** [for (i = 0; i < set_.size(); ++i) set_[i] = f(set_[i], other.set_[i])]. *)
Fixpoint combine_loop (f : Z -> Z -> Z) (other : t) (ixs : list Z) : M t unit :=
  match ixs with
  | [] => ret tt
  | i :: rest =>
      (try_modify (fun s =>
         (a <- vec_get (set_ s) i ;;
          b <- vec_get (set_ other) i ;;
          v <- vec_set (set_ s) i (f a b) ;;
          Ok (with_set v s))%outcome) ;;
       combine_loop f other rest)%monad
  end.

(** The bodies of [&=], [|=] and [-=], which differ in the byte operation. *)
Definition assign_op (f : Z -> Z -> Z) (other : t) : M t unit :=
  (query (validate_same_capacity other) ;;
   n <- query (fun s => Ok (vec_size (set_ s))) ;;
   combine_loop f other (range n) ;;
   recalculate_size)%monad.

(** The bodies of [&], [|] and [-]: the same steps on a copy of [*this]. *)
Definition copy_op (f : Z -> Z -> Z) (other : t) (s : t) : outcome t :=
  (validate_same_capacity other s ;;
   let result := s in
   let '(r, result') :=
     (combine_loop f other (range (vec_size (set_ s))) ;; recalculate_size)%monad
       result in
   r ;; Ok result')%outcome.

Definition byte_and (a b : Z) : Z := u8 (Z.land a b).
Definition byte_or (a b : Z) : Z := u8 (Z.lor a b).
Definition byte_diff (a b : Z) : Z := u8 (Z.land a (Z.lnot b)).

(** [&= other], [|= other], [-= other] on the object. *)
Definition and_assign : t -> M t unit := assign_op byte_and.
Definition or_assign : t -> M t unit := assign_op byte_or.
Definition sub_assign : t -> M t unit := assign_op byte_diff.
(** [s & other], [s | other], [s - other]. *)
Definition and_ (s other : t) : outcome t := copy_op byte_and other s.
Definition or_ (s other : t) : outcome t := copy_op byte_or other s.
Definition sub (s other : t) : outcome t := copy_op byte_diff other s.

(** [for (i = 0; i < set_.size(); ++i) result.set_[i] = ~set_[i]]. *)
Fixpoint not_loop (s : t) (ixs : list Z) : M t unit :=
  match ixs with
  | [] => ret tt
  | i :: rest =>
      (try_modify (fun result =>
         (a <- vec_get (set_ s) i ;;
          v <- vec_set (set_ result) i (u8 (Z.lnot a)) ;;
          Ok (with_set v result))%outcome) ;;
       not_loop s rest)%monad
  end.

(** [binary_set operator!() const]. *)
Definition not_ (s : t) : outcome t :=
  (result <- make (capacity_ s) false ;;
   let '(r, result') :=
     (not_loop s (range (vec_size (set_ s))) ;;
      (if negb (capacity_ s mod 8 =? 0) && negb (capacity_ s =? 0)
       then try_modify (fun result =>
              (let i := usize (vec_size (set_ s) - 1) in
               b <- vec_get (set_ result) i ;;
               v <- vec_set (set_ result) i (u8 (Z.land b (last_mask (capacity_ s)))) ;;
               Ok (with_set v result))%outcome)
       else ret tt) ;;
      recalculate_size)%monad result in
   r ;; Ok result')%outcome.

Fixpoint vec_eqb (v w : list Z) : bool :=
  match v, w with
  | [], [] => true
  | a :: v', b :: w' => (a =? b) && vec_eqb v' w'
  | _, _ => false
  end.

(** [bool operator==(const binary_set &other) const]: [s == other]. *)
Definition eq (s other : t) : outcome bool :=
  (validate_same_capacity other s ;; Ok (vec_eqb (set_ s) (set_ other)))%outcome.

(** [bool operator!=(const binary_set &other) const]. *)
Definition neq (s other : t) : outcome bool :=
  (validate_same_capacity other s ;; Ok (negb (vec_eqb (set_ s) (set_ other))))%outcome.

(** The loop of [intersects]: returns [true] at the first common bit. *)
Fixpoint intersects_loop (other s : t) (ixs : list Z) : outcome bool :=
  match ixs with
  | [] => Ok false
  | i :: rest =>
      (a <- vec_get (set_ s) i ;;
       b <- vec_get (set_ other) i ;;
       if negb (Z.land a b =? 0) then Ok true
       else intersects_loop other s rest)%outcome
  end.

(** [bool intersects(const binary_set &other) const]. *)
Definition intersects (s other : t) : outcome bool :=
  (validate_same_capacity other s ;;
   intersects_loop other s (range (vec_size (set_ s))))%outcome.

(** The loop of [contains(const binary_set &)]. *)
Fixpoint contains_set_loop (other s : t) (ixs : list Z) : outcome bool :=
  match ixs with
  | [] => Ok true
  | i :: rest =>
      (a <- vec_get (set_ s) i ;;
       b <- vec_get (set_ other) i ;;
       if negb (Z.land (Z.lnot a) b =? 0) then Ok false
       else contains_set_loop other s rest)%outcome
  end.

(** [bool contains(const binary_set &other) const], [s.contains(other)]: is
    [other] a subset of [s]. *)
Definition contains_set (s other : t) : outcome bool :=
  (validate_same_capacity other s ;;
   contains_set_loop other s (range (vec_size (set_ s))))%outcome.

(** The loop of [operator std::string]. *)
Fixpoint render_loop (s : t) (ixs : list Z) (result : string) : outcome string :=
  match ixs with
  | [] => Ok result
  | i :: rest =>
      (present <- contains i s ;;
       render_loop s rest
         (result ++ (if (present : bool) then "X" else "-"))%string)%outcome
  end.

(** [explicit operator std::string() const]. *)
Definition to_string (s : t) : outcome string :=
  (result <- render_loop s (range (capacity_ s)) "["%string ;;
   Ok (result ++ "]")%string)%outcome.

(** [binary_set::iterator]: the set it points to is the [s] passed along;
    only [current_pos_] is kept. [operator++] is a do-while loop. *)
Fixpoint iterator_incr (fuel : nat) (s : t) (current_pos : Z) : outcome Z :=
  match fuel with
  | O => OutOfFuel
  | S fuel' =>
      let pos := u32 (current_pos + 1) in
      if pos <? capacity s then
        (present <- contains pos s ;;
         if negb present then iterator_incr fuel' s pos else Ok pos)%outcome
      else Ok pos
  end.

(** [iterator(const binary_set *bs, unsigned int pos)]. *)
Definition iterator_make (s : t) (pos : Z) : outcome Z :=
  if pos <? capacity s then
    (present <- contains pos s ;;
     if negb present then iterator_incr (S (Z.to_nat (capacity s))) s pos
     else Ok pos)%outcome
  else Ok pos.

Definition begin_ (s : t) : outcome Z := iterator_make s 0.
Definition end_ (s : t) : outcome Z := iterator_make s (capacity_ s).

(** [std::vector<unsigned int>{first, last}]. *)
Fixpoint collect (fuel : nat) (s : t) (first last : Z) : outcome (list Z) :=
  if first =? last then Ok []
  else match fuel with
       | O => OutOfFuel
       | S fuel' =>
           (next <- iterator_incr (S (Z.to_nat (capacity s))) s first ;;
            rest <- collect fuel' s next last ;;
            Ok (first :: rest))%outcome
       end.

(** [std::vector<unsigned int> sparse() const]. *)
Definition sparse (s : t) : outcome (list Z) :=
  if capacity_ s =? 0 then
    Throw domain_empty
  else
    (first <- begin_ s ;;
     last <- end_ s ;;
     collect (S (Z.to_nat (capacity s))) s first last)%outcome.

End binary_set.

(** ** bs_searcher *)

Module bs_searcher.

(** [struct treenode]; a [std::unique_ptr<treenode>] is an [option]. The
    induction principle that reaches below the [option]s is [treenode_ind']. *)
#[local] Unset Elimination Schemes.
Inductive treenode : Type :=
  mk_treenode {
    values : list Z;                 (* std::vector<unsigned int> *)
    left : option treenode;
    right : option treenode
  }.
#[local] Set Elimination Schemes.

(** [treenode() = default]. *)
Definition new_node : treenode := mk_treenode [] None None.

Record t : Type := mk {
  root_ : option treenode;
  capacity_ : Z
}.

(** [explicit bs_searcher(unsigned int capacity)]. *)
Definition make (capacity : Z) : t := mk (Some new_node) capacity.

Definition unexpected_capacity : exn :=
  mk_exn invalid_argument "The binary_set has an unexpected capacity."%string.

Definition validate_capacity (bs : binary_set.t) (s : t) : outcome unit :=
  if negb (capacity_ s =? binary_set.capacity bs) then
    Throw unexpected_capacity
  else Ok tt.

(** *** Pointers into the tree

    [treenode *] variables walk down from the root. The walk is kept as the
    list of parents passed, nearest first, each with the branch taken
    ([true] for [right]); [rebuild] gives the tree that the parents and the
    node in focus stand for. *)

Definition crumb : Type := (treenode * bool)%type.

Definition child (is_right : bool) (n : treenode) : option treenode :=
  if is_right then right n else left n.

Definition set_child (is_right : bool) (c : option treenode) (n : treenode)
  : treenode :=
  if is_right then mk_treenode (values n) (left n) c
  else mk_treenode (values n) c (right n).

Definition with_values (vs : list Z) (n : treenode) : treenode :=
  mk_treenode vs (left n) (right n).

Fixpoint rebuild (path : list crumb) (node : treenode) : treenode :=
  match path with
  | [] => node
  | (parent, is_right) :: rest => rebuild rest (set_child is_right (Some node) parent)
  end.

Definition cursor : Type := (list crumb * treenode)%type.

(** One iteration of the descent of [add]: create the child when it is
    missing, then move [leaf] to it. *)
Definition add_step (is_right : bool) (c : cursor) : cursor :=
  let '(path, leaf) := c in
  match child is_right leaf with
  | Some next => ((leaf, is_right) :: path, next)
  | None => ((set_child is_right (Some new_node) leaf, is_right) :: path, new_node)
  end.

(** [for (i = 0; i < capacity_; ++i)] of [add]. *)
Fixpoint add_loop (bs : binary_set.t) (ixs : list Z) : M cursor unit :=
  match ixs with
  | [] => ret tt
  | i :: rest =>
      (b <- query (fun _ => binary_set.index i bs) ;;
       modify (add_step b) ;;
       add_loop bs rest)%monad
  end.

(** [leaf->values.push_back(value)]. *)
Definition push_back (value : Z) (c : cursor) : cursor :=
  let '(path, leaf) := c in (path, with_values (values leaf ++ [value]) leaf).

(** Runs a walk that starts at [root_.get()] and writes the tree back. *)
Definition from_root {A : Type} (m : M cursor A) : M t A :=
  fun s =>
    match root_ s with
    | None => (Undefined, s)
    | Some root =>
        let '(r, (path, node)) := m ([], root) in
        (r, mk (Some (rebuild path node)) (capacity_ s))
    end.

(** [void add(unsigned int value, const binary_set &bs)]. *)
Definition add (value : Z) (bs : binary_set.t) : M t unit :=
  (query (validate_capacity bs) ;;
   c <- query (fun s => Ok (capacity_ s)) ;;
   from_root (add_loop bs (range c) ;; modify (push_back value)))%monad.

(** [for (i = 0; i < capacity_ && node; ++i)] of [remove]: nothing is
    written, [path] and [is_right_child] grow together. *)
Fixpoint remove_descend (bs : binary_set.t) (ixs : list Z)
    (path : list crumb) (node : option treenode)
  : outcome (list crumb * option treenode) :=
  match ixs, node with
  | i :: rest, Some n =>
      (b <- binary_set.index i bs ;;
       b' <- binary_set.index i bs ;;
       remove_descend bs rest ((n, b) :: path) (child b' n))%outcome
  | _, _ => Ok (path, node)
  end.

(** [std::find(values.begin(), values.end(), value)] as an index. *)
Fixpoint find (value : Z) (vs : list Z) : option nat :=
  match vs with
  | [] => None
  | v :: rest =>
      if v =? value then Some O
      else match find value rest with
           | Some k => Some (S k)
           | None => None
           end
  end.

(** [if (it != end() - 1) *it = back(); pop_back();]. *)
Definition swap_pop (k : nat) (vs : list Z) : list Z :=
  if Nat.eqb k (List.length vs - 1) then removelast vs
  else removelast (upd k (last vs 0) vs).

(** [values.empty() && !left && !right]. *)
Definition is_dead (n : treenode) : bool :=
  match values n, left n, right n with
  | [], None, None => true
  | _, _, _ => false
  end.

(** The pruning loop of [remove], from the leaf towards the root. [node] is
    the node about to be detached; when no parent is left it is the root and
    stays. *)
Fixpoint prune (path : list crumb) (node : treenode) : treenode :=
  match path with
  | [] => node
  | (parent, is_right) :: rest =>
      let parent' := set_child is_right None parent in
      if negb (is_dead parent') then rebuild rest parent'
      else prune rest parent'
  end.

(** [bool remove(unsigned int value, const binary_set &bs)]. *)
Definition remove (value : Z) (bs : binary_set.t) : M t bool :=
  (query (validate_capacity bs) ;;
   fun s =>
     match remove_descend bs (range (capacity_ s)) [] (root_ s) with
     | Ok (path, None) => (Ok false, s)
     | Ok (path, Some node) =>
         match find value (values node) with
         | None => (Ok false, s)
         | Some k =>
             let node' := with_values (swap_pop k (values node)) node in
             let root' := if is_dead node' then prune path node'
                          else rebuild path node' in
             (Ok true, mk (Some root') (capacity_ s))
         end
     | Throw e => (Throw e, s)
     | Undefined => (Undefined, s)
     | OutOfFuel => (OutOfFuel, s)
     end)%monad.

Definition push_opt (c : option treenode) (level : list treenode)
  : list treenode :=
  match c with
  | Some n => level ++ [n]
  | None => level
  end.

(** [for (const auto *node : current_level)] of [find_subsets]. *)
Fixpoint level_step (bs : binary_set.t) (i : Z)
    (current_level next_level : list treenode) : outcome (list treenode) :=
  match current_level with
  | [] => Ok next_level
  | node :: rest =>
      (b <- binary_set.index i bs ;;
       level_step bs i rest
         (if (b : bool) then push_opt (right node) (push_opt (left node) next_level)
          else push_opt (left node) next_level))%outcome
  end.

(** [for (i = 0; i < capacity_ && !current_level.empty(); ++i)]. *)
Fixpoint levels (bs : binary_set.t) (ixs : list Z)
    (current_level : list treenode) : outcome (list treenode) :=
  match ixs, current_level with
  | i :: rest, _ :: _ =>
      (next_level <- level_step bs i current_level [] ;;
       levels bs rest next_level)%outcome
  | _, _ => Ok current_level
  end.

(** [std::vector<unsigned int> find_subsets(const binary_set &bs) const]. *)
Definition find_subsets (bs : binary_set.t) (s : t) : outcome (list Z) :=
  (validate_capacity bs s ;;
   let current_level := match root_ s with Some root => [root] | None => [] end in
   leaves <- levels bs (range (capacity_ s)) current_level ;;
   Ok (List.concat (map values leaves)))%outcome.

End bs_searcher.

(** ** Vocabulary of the properties *)

(** [cnt p n]: the number of indices [i] in [[0, n)] with [p i]. *)
Definition cnt (p : Z -> bool) (n : Z) : Z :=
  Z.of_nat (List.length (filter p (range n))).

Definition is_byte (b : Z) : Prop := 0 <= b < 256.

(** Bit [i] of a backing store: bit [i mod 8] of byte [i / 8]. *)
Definition bit (v : list Z) (i : Z) : bool :=
  Z.testbit (nth (Z.to_nat (i / 8)) v 0) (i mod 8).

(** [s.contains(i)] returns [true]. *)
Definition member (s : binary_set.t) (i : Z) : bool :=
  match binary_set.contains i s with
  | Ok true => true
  | _ => false
  end.

(** The number of [i] in [[0, capacity)] with [s.contains(i)] true. *)
Definition count_contains (s : binary_set.t) : Z :=
  cnt (member s) (binary_set.capacity s).

(** The population count of the whole backing store, pad bits included. *)
Definition popcount (v : list Z) : Z := cnt (bit v) (8 * vec_size v).

(** The store after [set_[e / 8] |= 1u << (e % 8)]. *)
Definition set_bit (e : Z) (v : list Z) : list Z :=
  upd (Z.to_nat (e / 8))
      (u8 (Z.lor (nth (Z.to_nat (e / 8)) v 0) (u32 (Z.shiftl 1 (e mod 8))))) v.

(** The store after [set_[e / 8] &= ~(1u << (e % 8))]. *)
Definition clear_bit (e : Z) (v : list Z) : list Z :=
  upd (Z.to_nat (e / 8))
      (u8 (Z.land (nth (Z.to_nat (e / 8)) v 0)
                  (u32 (Z.lnot (u32 (Z.shiftl 1 (e mod 8))))))) v.

(** The store after a loop [set_[i] = f(set_[i], other.set_[i])] over all
    of it. *)
Fixpoint zip_with (f : Z -> Z -> Z) (v w : list Z) : list Z :=
  match v, w with
  | a :: v', b :: w' => f a b :: zip_with f v' w'
  | _, _ => []
  end.

(** A byte operation [f] that acts on each bit as [fb] does. *)
Definition bitwise (f : Z -> Z -> Z) (fb : bool -> bool -> bool) : Prop :=
  (forall a b, is_byte (f a b)) /\
  (forall a b m, 0 <= m < 8 ->
                 Z.testbit (f a b) m = fb (Z.testbit a m) (Z.testbit b m)) /\
  fb false false = false.

(** The result of [&=], [|=], [-=] and of [&], [|], [-] on two sets of one
    capacity. *)
Definition combined (f : Z -> Z -> Z) (other s : binary_set.t) : binary_set.t :=
  let z := zip_with f (binary_set.set_ s) (binary_set.set_ other) in
  binary_set.mk (binary_set.capacity_ s) (popcount z) z.

(** The store of [!s] before its size is counted. *)
Definition complement_store (c : Z) (v : list Z) : list Z :=
  let nv := map (fun a => u8 (Z.lnot a)) v in
  if negb (c mod 8 =? 0) && negb (c =? 0)
  then upd (Z.to_nat (vec_size v - 1))
           (u8 (Z.land (nth (Z.to_nat (vec_size v - 1)) nv 0)
                       (binary_set.last_mask c))) nv
  else nv.

(** The value of [!(a & b) == ((!a) | (!b))]. *)
Definition de_morgan (a b : binary_set.t) : outcome bool :=
  (ab <- binary_set.and_ a b ;;
   l <- binary_set.not_ ab ;;
   na <- binary_set.not_ a ;;
   nb <- binary_set.not_ b ;;
   r <- binary_set.or_ na nb ;;
   binary_set.eq l r)%outcome.

(** The sets a program can hold: built by the constructors and changed or
    derived by the operations that return. *)
Inductive reachable : binary_set.t -> Prop :=
| reach_default : reachable binary_set.default
| reach_make c fill s :
    0 <= c < 2 ^ 32 -> binary_set.make c fill = Ok s -> reachable s
| reach_add e s b s' :
    reachable s -> 0 <= e < 2 ^ 32 ->
    binary_set.add e s = (Ok b, s') -> reachable s'
| reach_remove e s b s' :
    reachable s -> 0 <= e < 2 ^ 32 ->
    binary_set.remove e s = (Ok b, s') -> reachable s'
| reach_clear s : reachable s -> reachable (binary_set.clear s)
| reach_fill s s' :
    reachable s -> binary_set.fill s = (Ok tt, s') -> reachable s'
| reach_assign_op f other s s' :
    In f [binary_set.byte_and; binary_set.byte_or; binary_set.byte_diff] ->
    reachable other -> reachable s ->
    binary_set.assign_op f other s = (Ok tt, s') -> reachable s'
| reach_copy_op f other s r :
    In f [binary_set.byte_and; binary_set.byte_or; binary_set.byte_diff] ->
    reachable other -> reachable s ->
    binary_set.copy_op f other s = Ok r -> reachable r
| reach_not s r :
    reachable s -> binary_set.not_ s = Ok r -> reachable r.

(** The representation invariant of [binary_set]. *)
Record inv (s : binary_set.t) : Prop := mk_inv {
  inv_capacity : 0 <= binary_set.capacity_ s < 2 ^ 32;
  inv_length :
    vec_size (binary_set.set_ s) = u32 (binary_set.capacity_ s + 7) / 8;
  inv_bytes : Forall is_byte (binary_set.set_ s);
  inv_pad : forall i,
    binary_set.capacity_ s <= i < 8 * vec_size (binary_set.set_ s) ->
    bit (binary_set.set_ s) i = false;
  inv_size : binary_set.size_ s = popcount (binary_set.set_ s)
}.

(** Every element index below the capacity has its byte in the backing
    store. It fails only for the capacities above [2^32 - 8], where
    [capacity + 7] wraps in the constructor. *)
Definition backed (s : binary_set.t) : Prop :=
  0 <= binary_set.capacity_ s <= 8 * vec_size (binary_set.set_ s).

(** The elements of a set as the bits [bs[0], ..., bs[capacity-1]]. *)
Definition elements (bs : binary_set.t) : list bool :=
  map (member bs) (range (binary_set.capacity bs)).

(** [s] is a subset of [q]: every element of [s] is an element of [q]. *)
Definition is_subset_of (s q : binary_set.t) : bool :=
  forallb (fun i => implb (member s i) (member q i))
          (range (binary_set.capacity s)).

Fixpoint subset_bits (s q : list bool) : bool :=
  match s, q with
  | [], [] => true
  | a :: s', b :: q' => implb a b && subset_bits s' q'
  | _, _ => false
  end.

(** *** Walks in the trie *)

Import bs_searcher.

(** The node reached from [n] along [bits], if every child on the way
    exists. *)
Fixpoint lookup (bits : list bool) (n : treenode) : option treenode :=
  match bits with
  | [] => Some n
  | b :: rest =>
      match child b n with
      | Some c => lookup rest c
      | None => None
      end
  end.

(** The value list stored for a bit pattern; empty when its leaf is absent. *)
Definition leaf_values (bits : list bool) (n : treenode) : list Z :=
  match lookup bits n with
  | Some leaf => values leaf
  | None => []
  end.

(** No node strictly below [n] has both an empty value list and no child. *)
Fixpoint pruned (n : treenode) : bool :=
  match n with
  | mk_treenode _ l r =>
      match l with
      | Some c => negb (is_dead c) && pruned c
      | None => true
      end &&
      match r with
      | Some c => negb (is_dead c) && pruned c
      | None => true
      end
  end.

(** The pairs (bit pattern, value) held [depth] levels below [n], in the
    order absent-branch first. *)
Fixpoint contents (depth : nat) (n : treenode) : list (list bool * Z) :=
  match depth with
  | O => map (fun v => ([], v)) (values n)
  | S d =>
      match n with
      | mk_treenode _ l r =>
          match l with
          | Some c => map (fun e => (false :: fst e, snd e)) (contents d c)
          | None => []
          end ++
          match r with
          | Some c => map (fun e => (true :: fst e, snd e)) (contents d c)
          | None => []
          end
      end
  end.

Definition contents_opt (d : nat) (c : option treenode) : list (list bool * Z) :=
  match c with
  | Some n => contents d n
  | None => []
  end.

Definition tag (b : bool) (e : list bool * Z) : list bool * Z :=
  (b :: fst e, snd e).

(** Shape of a trie of the given depth: value lists only at the leaves,
    children only above them. *)
Fixpoint shaped (depth : nat) (n : treenode) : bool :=
  match depth with
  | O => match left n, right n with None, None => true | _, _ => false end
  | S d =>
      match n with
      | mk_treenode vs l r =>
          match vs with [] => true | _ => false end &&
          match l with Some c => shaped d c | None => true end &&
          match r with Some c => shaped d c | None => true end
      end
  end.

Definition shaped_opt (d : nat) (c : option treenode) : bool :=
  match c with Some n => shaped d n | None => true end.

Definition pruned_opt (c : option treenode) : bool :=
  match c with Some n => negb (is_dead n) && pruned n | None => true end.

(** The entries whose bit pattern is below the query's. *)
Definition passes (qbits : list bool) (e : list bool * Z) : bool :=
  subset_bits (fst e) qbits.

(** *** The three operations by recursion on the bit pattern

    These are not translations of the source: they say, by recursion on the
    bits of the set, what the loops of [add], [remove] and [find_subsets]
    compute, and the proofs go through them ([add_insert], [remove_erase],
    [find_subsets_leaves]). *)

Definition child_or_new (b : bool) (n : treenode) : treenode :=
  match child b n with
  | Some c => c
  | None => new_node
  end.

Fixpoint insert (bits : list bool) (value : Z) (n : treenode) : treenode :=
  match bits with
  | [] => with_values (values n ++ [value]) n
  | b :: rest => set_child b (Some (insert rest value (child_or_new b n))) n
  end.

(** A node that has become dead is not linked. *)
Definition link (n : treenode) : option treenode :=
  if is_dead n then None else Some n.

Fixpoint erase (bits : list bool) (value : Z) (n : treenode) : option treenode :=
  match bits with
  | [] =>
      match find value (values n) with
      | Some k => Some (with_values (swap_pop k (values n)) n)
      | None => None
      end
  | b :: rest =>
      match child b n with
      | Some c =>
          match erase rest value c with
          | Some c' => Some (set_child b (link c') n)
          | None => None
          end
      | None => None
      end
  end.

Definition opt_list (c : option treenode) : list treenode :=
  match c with
  | Some n => [n]
  | None => []
  end.

(** The children a query bit lets through, absent-branch first. *)
Definition next_nodes (q : bool) (n : treenode) : list treenode :=
  if q then opt_list (left n) ++ opt_list (right n) else opt_list (left n).

Fixpoint leaves (qbits : list bool) (n : treenode) : list treenode :=
  match qbits with
  | [] => [n]
  | q :: rest => flat_map (leaves rest) (next_nodes q n)
  end.

(** What [remove] does once the descent has stopped at [node] with the
    parents [path]. *)
Definition finish (value : Z) (path : list crumb) (node : option treenode)
  : option treenode :=
  match node with
  | None => None
  | Some leaf =>
      match find value (values leaf) with
      | None => None
      | Some k =>
          let node' := with_values (swap_pop k (values leaf)) leaf in
          Some (if is_dead node' then prune path node' else rebuild path node')
      end
  end.

Definition close (path : list crumb) (n : treenode) : treenode :=
  if is_dead n then prune path n else rebuild path n.

(** [k] is the position of the first entry of [vs] equal to [value]. *)
Definition first_match (value : Z) (vs : list Z) (k : nat) : Prop :=
  nth_error vs k = Some value /\
  forall j, (j < k)%nat -> nth_error vs j <> Some value.

(** *** The index as a collection, from the specification's words

    A sequence of [add] and [remove] calls, and the collection of
    (value, set) pairs the specification says is stored after it: [add]
    puts one more entry, [remove] takes one entry with that value and that
    set away when there is one; a call with a set of another capacity fails
    and changes nothing. *)

Inductive op : Type :=
| OpAdd (value : Z) (bs : binary_set.t)
| OpRemove (value : Z) (bs : binary_set.t).

Definition op_set (o : op) : binary_set.t :=
  match o with OpAdd _ bs => bs | OpRemove _ bs => bs end.

Definition run (s : bs_searcher.t) (o : op) : bs_searcher.t :=
  match o with
  | OpAdd value bs => snd (bs_searcher.add value bs s)
  | OpRemove value bs => snd (bs_searcher.remove value bs s)
  end.

Definition run_all (ops : list op) (s : bs_searcher.t) : bs_searcher.t :=
  fold_left run ops s.

Definition entry : Type := (binary_set.t * Z)%type.

(** Two sets of one capacity with the same elements. *)
Definition same_elements (a b : binary_set.t) : bool :=
  forallb (fun i => Bool.eqb (member a i) (member b i))
          (range (binary_set.capacity a)).

Definition entry_eqb (a b : entry) : bool :=
  (snd a =? snd b) && same_elements (fst a) (fst b).

Fixpoint remove_one (e : entry) (st : list entry) : list entry :=
  match st with
  | [] => []
  | x :: rest => if entry_eqb x e then rest else x :: remove_one e rest
  end.

Definition stored_step (c : Z) (st : list entry) (o : op) : list entry :=
  match o with
  | OpAdd value bs =>
      if binary_set.capacity bs =? c then st ++ [(bs, value)] else st
  | OpRemove value bs =>
      if binary_set.capacity bs =? c then remove_one (bs, value) st else st
  end.

Definition stored (c : Z) (ops : list op) : list entry :=
  fold_left (stored_step c) ops [].

(** The values stored with a subset of [q]. *)
Definition stored_subsets (c : Z) (ops : list op) (q : binary_set.t) : list Z :=
  map snd (filter (fun e => is_subset_of (fst e) q) (stored c ops)).

(** An entry as the trie holds it: the bit pattern of its set and its value. *)
Definition key (e : entry) : list bool * Z := (elements (fst e), snd e).

(** The link between an index and the collection it stands for. *)
Record index_inv (c : Z) (s : bs_searcher.t) (st : list entry) : Prop := {
  ii_capacity : capacity_ s = c;
  ii_entries : Forall (fun e => binary_set.capacity (fst e) = c) st;
  ii_root : exists root,
    root_ s = Some root /\
    shaped (Z.to_nat c) root = true /\
    pruned root = true /\
    Permutation (contents (Z.to_nat c) root) (map key st)
}.

(** *** Sample values *)

(** The set built by [binary_set bs(c); bs.add(e1); bs.add(e2); ...]. *)
Definition set_of (c : Z) (els : list Z) : binary_set.t :=
  match binary_set.make c false with
  | Ok s => fold_left (fun s e => snd (binary_set.add e s)) els s
  | _ => binary_set.default
  end.

(** Sets of capacity 2: [{0}] and [{1}]. *)
Definition set_0 : binary_set.t := binary_set.mk 2 1 [1].
Definition set_1 : binary_set.t := binary_set.mk 2 1 [2].

Definition sample_ops : list op :=
  [OpAdd 1 set_0; OpAdd 2 set_1; OpAdd 3 set_0; OpRemove 1 set_0].

(** A trie of capacity 2 holding 5, 7, 5 for [{0}]. *)
Definition sample_root : treenode :=
  mk_treenode [] None
    (Some (mk_treenode [] (Some (mk_treenode [5; 7; 5] None None)) None)).

Definition sample_ops_0 : list op :=
  [OpAdd 7 binary_set.default; OpAdd 9 binary_set.default; OpAdd 7 binary_set.default;
   OpRemove 7 binary_set.default].

(** The set [{3}] of capacity 8 and the empty set of capacity 8. *)
Definition set_3 : binary_set.t := binary_set.mk 8 1 [8].
Definition set_none : binary_set.t := binary_set.mk 8 0 [0].


(** ** benchmarks/main_benchmark.cpp *)

Module benchmark.

(** [for (unsigned int i = 0; i < capacity; i += 2) bs.add(i);]. *)
Fixpoint half_fill_loop (fuel : nat) (capacity i : Z) : M binary_set.t unit :=
  if i <? capacity then
    match fuel with
    | O => fun bs => (OutOfFuel, bs)
    | S fuel' =>
        (binary_set.add i ;; half_fill_loop fuel' capacity (u32 (i + 2)))%monad
    end
  else ret tt.

(** [binary_set create_half_filled_binary_set(unsigned int capacity)]. *)
Definition create_half_filled_binary_set (capacity : Z) : outcome binary_set.t :=
  (bs <- binary_set.make capacity false ;;
   let '(r, bs') := half_fill_loop (S (Z.to_nat capacity)) capacity 0 bs in
   r ;; Ok bs')%outcome.

End benchmark.

(** ** Vocabulary of the further properties *)

(** The value of [!(a | b) == ((!a) & (!b))]. *)
Definition de_morgan_or (a b : binary_set.t) : outcome bool :=
  (ab <- binary_set.or_ a b ;;
   l <- binary_set.not_ ab ;;
   na <- binary_set.not_ a ;;
   nb <- binary_set.not_ b ;;
   r <- binary_set.and_ na nb ;;
   binary_set.eq l r)%outcome.

(** The integers [a, a+1, ..., b-1], for [0 <= a]. *)
Definition between (a b : Z) : list Z :=
  map Z.of_nat (seq (Z.to_nat a) (Z.to_nat (b - a))).

(** The characters [operator std::string] writes for the indices [ixs]. *)
Fixpoint marks (s : binary_set.t) (ixs : list Z) : string :=
  match ixs with
  | [] => ""
  | i :: rest => (if member s i then "X" else "-") ++ marks s rest
  end%string.



(** * Properties *)

(** ** First-match search and swap-and-pop *)

Lemma find_first_match value vs k :
  find value vs = Some k -> first_match value vs k.
Proof.
  revert k. induction vs as [|v rest IH]; intros k; simpl; [discriminate|].
  destruct (Z.eqb_spec v value) as [->|Hne].
  - intros [= <-]. split; [reflexivity|]. intros j Hj. inversion Hj.
  - destruct (find value rest) as [k'|]; [|discriminate].
    intros [= <-]. destruct (IH k' eq_refl) as [Hk Hlt]. split; [exact Hk|].
    intros [|j] Hj; simpl.
    + intros [= ->]. now apply Hne.
    + apply Hlt. lia.
Qed.

Lemma find_absent value vs : find value vs = None <-> ~ In value vs.
Proof.
  induction vs as [|v rest IH]; simpl.
  - split; [intros _ []|reflexivity].
  - destruct (Z.eqb_spec v value) as [->|Hne].
    + split; [discriminate|]. intros H. exfalso. apply H. now left.
    + destruct (find value rest) as [k|].
      * split; [discriminate|]. intros H. exfalso.
        destruct IH as [_ IH]. 
        assert (Hn : ~ In value rest) by (intros Hin; apply H; now right).
        specialize (IH Hn). discriminate.
      * split; [|reflexivity]. intros _ [Heq|Hin]; [now apply Hne|].
        now apply (proj1 IH eq_refl).
Qed.


Lemma upd_app_cons l1 x y l2 :
  upd (List.length l1) y (l1 ++ x :: l2) = l1 ++ y :: l2.
Proof. induction l1 as [|a l1 IH]; cbn; [reflexivity|now rewrite IH]. Qed.

Lemma find_In value vs k : find value vs = Some k -> In value vs.
Proof.
  intros H. destruct (find value vs) eqn:E; [|discriminate].
  destruct (in_dec Z.eq_dec value vs) as [Hin|Hn]; [exact Hin|].
  apply find_absent in Hn. congruence.
Qed.

(** Swap-and-pop at the first match takes exactly one [value] away. *)
Lemma swap_pop_Permutation value vs k :
  find value vs = Some k -> Permutation vs (value :: swap_pop k vs).
Proof.
  intros F. destruct (find_first_match _ _ _ F) as [Hk _].
  apply nth_error_split in Hk. destruct Hk as (l1 & l2 & -> & <-).
  unfold swap_pop. rewrite length_app. cbn [List.length].
  destruct l2 as [|z l2' _] using rev_ind.
  - cbn [List.length].
    destruct (Nat.eqb_spec (List.length l1) (List.length l1 + 1 - 1)); [|lia].
    rewrite removelast_last. symmetry. apply Permutation_cons_append.
  - rewrite length_app. cbn [List.length].
    destruct (Nat.eqb_spec (List.length l1)
                (List.length l1 + S (List.length l2' + 1) - 1)); [lia|].
    replace (l1 ++ value :: l2' ++ [z]) with ((l1 ++ value :: l2') ++ [z])
      by (now rewrite <- app_assoc).
    rewrite last_last.
    replace ((l1 ++ value :: l2') ++ [z]) with (l1 ++ value :: l2' ++ [z])
      by (now rewrite <- app_assoc).
    rewrite upd_app_cons.
    replace (l1 ++ z :: l2' ++ [z]) with ((l1 ++ z :: l2') ++ [z])
      by (now rewrite <- app_assoc).
    rewrite removelast_last.
    etransitivity; [symmetry; apply Permutation_middle|].
    apply perm_skip, Permutation_app_head. symmetry. apply Permutation_cons_append.
Qed.

(** ** Reading the bits of a set *)

Lemma In_range i n : In i (range n) <-> 0 <= i < n.
Proof.
  unfold range. rewrite in_map_iff. split.
  - intros [k [<- Hk]]. apply in_seq in Hk. lia.
  - intros H. exists (Z.to_nat i). split; [lia|]. apply in_seq. lia.
Qed.

Lemma range_Forall n : Forall (fun i => 0 <= i < n) (range n).
Proof. apply Forall_forall. intros i. apply In_range. Qed.

Lemma index_member bs i b : binary_set.index i bs = Ok b -> member bs i = b.
Proof.
  unfold member, binary_set.index. intros ->. now destruct b.
Qed.

Lemma backed_index bs i :
  backed bs -> 0 <= i < binary_set.capacity_ bs ->
  binary_set.index i bs = Ok (member bs i).
Proof.
  intros [Hc Hlen] Hi.
  assert (E : exists b, binary_set.index i bs = Ok b).
  { unfold binary_set.index, binary_set.contains, binary_set.validate_element.
    destruct (Z.eqb_spec (binary_set.capacity_ bs) 0); [lia|].
    destruct (Z.leb_spec (binary_set.capacity_ bs) i); [lia|].
    cbn [obind]. unfold vec_get, in_bounds.
    assert (0 <= i / 8 < vec_size (binary_set.set_ bs)).
    { split; [apply Z.div_pos; lia|]. apply Z.div_lt_upper_bound; lia. }
    destruct (Z.leb_spec 0 (i / 8)); [|lia].
    destruct (Z.ltb_spec (i / 8) (vec_size (binary_set.set_ bs))); [|lia].
    cbn. eexists. reflexivity. }
  destruct E as [b E]. rewrite E. f_equal. symmetry. now apply index_member.
Qed.

(** ** The loops of the searcher, by recursion on the bits *)

Lemma set_child_twice b x y n : set_child b x (set_child b y n) = set_child b x n.
Proof. now destruct b. Qed.

Lemma add_loop_steps bs ixs cur :
  backed bs -> Forall (fun i => 0 <= i < binary_set.capacity_ bs) ixs ->
  add_loop bs ixs cur =
  (Ok tt, fold_left (fun c i => add_step (member bs i) c) ixs cur).
Proof.
  intros Hb H. revert cur. induction H as [|i rest Hi _ IH]; intros cur.
  - reflexivity.
  - cbn [add_loop fold_left]. unfold bind at 1, query.
    rewrite (backed_index _ _ Hb Hi). unfold bind at 1, modify. apply IH.
Qed.

Lemma add_steps_insert value bits path n :
  let '(path', leaf) := fold_left (fun c b => add_step b c) bits (path, n) in
  rebuild path' (with_values (values leaf ++ [value]) leaf) =
  rebuild path (insert bits value n).
Proof.
  revert path n. induction bits as [|b rest IH]; intros path n.
  - reflexivity.
  - cbn [fold_left insert]. unfold add_step at 2, child_or_new.
    destruct (child b n) as [next|].
    + specialize (IH ((n, b) :: path) next).
      destruct (fold_left _ rest _) as [path' leaf]. rewrite IH. reflexivity.
    + specialize (IH ((set_child b (Some new_node) n, b) :: path) new_node).
      destruct (fold_left _ rest _) as [path' leaf]. rewrite IH.
      cbn [rebuild]. now rewrite set_child_twice.
Qed.

Lemma fold_left_map {A B C} (f : A -> B -> A) (g : C -> B) l a :
  fold_left f (map g l) a = fold_left (fun a c => f a (g c)) l a.
Proof. revert a. induction l; intros; simpl; auto. Qed.

(** [add] on a set of the right capacity is [insert] at the root. *)
Lemma add_insert value bs s root :
  backed bs -> capacity_ s = binary_set.capacity bs -> root_ s = Some root ->
  bs_searcher.add value bs s =
  (Ok tt, mk (Some (insert (elements bs) value root)) (capacity_ s)).
Proof.
  intros Hb Hc Hr. unfold bs_searcher.add, bind at 1, query, validate_capacity.
  rewrite Hc, Z.eqb_refl. cbn [negb]. unfold bind at 1.
  unfold from_root. rewrite Hr. unfold bind at 1.
  rewrite add_loop_steps; [|assumption|rewrite Hc; apply range_Forall].
  unfold modify.
  pose proof (add_steps_insert value (elements bs) [] root) as H.
  unfold elements in H at 1. rewrite fold_left_map in H. rewrite Hc.
  revert H.
  match goal with |- context [push_back value ?r] => destruct r as [path leaf] end.
  intros H. cbn [push_back]. rewrite H. reflexivity.
Qed.

Lemma close_nil n : close [] n = n.
Proof. unfold close. now destruct (is_dead n). Qed.

Lemma remove_descend_null bs ixs path :
  remove_descend bs ixs path None = Ok (path, None).
Proof. now destruct ixs. Qed.

Lemma is_dead_set_child_some b c n : is_dead (set_child b (Some c) n) = false.
Proof. destruct n as [[|v vs] l r], b; cbn; try reflexivity; now destruct l. Qed.

Lemma close_step b path n c :
  close ((n, b) :: path) c = close path (set_child b (link c) n).
Proof.
  unfold close, link. destruct (is_dead c) eqn:Hd.
  - cbn [prune]. destruct (is_dead (set_child b None n)); reflexivity.
  - rewrite is_dead_set_child_some. reflexivity.
Qed.

Lemma remove_descend_erase value bs ixs :
  backed bs -> Forall (fun i => 0 <= i < binary_set.capacity_ bs) ixs ->
  forall path n,
  exists path' node,
    remove_descend bs ixs path (Some n) = Ok (path', node) /\
    finish value path' node =
    option_map (close path) (erase (map (member bs) ixs) value n).
Proof.
  intros Hb H. induction H as [|i rest Hi _ IH]; intros path n.
  - exists path, (Some n). split; [reflexivity|]. cbn.
    destruct (find value (values n)); reflexivity.
  - cbn [remove_descend map erase]. rewrite (backed_index _ _ Hb Hi). cbn [obind].
    destruct (child (member bs i) n) as [c|] eqn:Hch.
    + destruct (IH ((n, member bs i) :: path) c) as (path' & node & E & F).
      exists path', node. split; [exact E|]. rewrite F.
      destruct (erase _ value c) as [c'|]; [|reflexivity]. cbn [option_map].
      now rewrite close_step.
    + rewrite remove_descend_null. eexists _, None. split; reflexivity.
Qed.

(** [remove] on a set of the right capacity is [erase] at the root. *)
Lemma remove_erase value bs s root :
  backed bs -> capacity_ s = binary_set.capacity bs -> root_ s = Some root ->
  bs_searcher.remove value bs s =
  match erase (elements bs) value root with
  | Some root' => (Ok true, mk (Some root') (capacity_ s))
  | None => (Ok false, s)
  end.
Proof.
  intros Hb Hc Hr. unfold bs_searcher.remove, bind at 1, query, validate_capacity.
  rewrite Hc, Z.eqb_refl. cbn [negb]. rewrite Hr.
  destruct (remove_descend_erase value bs (range (binary_set.capacity bs)) Hb
              (range_Forall _) [] root) as (path' & node & E & F).
  rewrite <- Hc in E at 1. rewrite Hc in E. rewrite E.
  fold (elements bs) in F. unfold finish in F.
  destruct node as [leaf|].
  - destruct (find value (values leaf)) as [k|].
    + destruct (erase (elements bs) value root) as [root'|]; [|discriminate].
      cbn in F. injection F as F. rewrite F, close_nil. reflexivity.
    + destruct (erase (elements bs) value root); [discriminate|reflexivity].
  - destruct (erase (elements bs) value root); [discriminate|reflexivity].
Qed.

Lemma push_opt_app c level : push_opt c level = level ++ opt_list c.
Proof. destruct c; cbn; [reflexivity|now rewrite app_nil_r]. Qed.

Lemma level_step_next bs i cur next :
  backed bs -> 0 <= i < binary_set.capacity_ bs ->
  level_step bs i cur next =
  Ok (next ++ flat_map (next_nodes (member bs i)) cur).
Proof.
  intros Hb Hi. revert next. induction cur as [|n rest IH]; intros next.
  - cbn. now rewrite app_nil_r.
  - cbn [level_step flat_map]. rewrite (backed_index _ _ Hb Hi). cbn [obind].
    rewrite IH. f_equal. unfold next_nodes.
    destruct (member bs i); rewrite ?push_opt_app, <- ?app_assoc; reflexivity.
Qed.

Lemma flat_map_leaves q rest cur :
  flat_map (leaves rest) (flat_map (next_nodes q) cur) =
  flat_map (leaves (q :: rest)) cur.
Proof.
  induction cur as [|n cur IH]; [reflexivity|].
  cbn [flat_map]. rewrite flat_map_app, IH. reflexivity.
Qed.

Lemma levels_leaves bs ixs :
  backed bs -> Forall (fun i => 0 <= i < binary_set.capacity_ bs) ixs ->
  forall cur,
    levels bs ixs cur = Ok (flat_map (leaves (map (member bs) ixs)) cur).
Proof.
  intros Hb H. induction H as [|i rest Hi _ IH]; intros cur.
  - cbn. induction cur as [|n cur IHc]; [reflexivity|].
    cbn. now injection IHc as <-.
  - destruct cur as [|n cur]; [reflexivity|].
    cbn [levels]. rewrite (level_step_next _ _ _ _ Hb Hi). cbn [obind app].
    rewrite IH. now rewrite flat_map_leaves.
Qed.

(** [find_subsets] returns the value lists of the leaves a query lets
    through, absent-branch first. *)
Lemma find_subsets_leaves bs s root :
  backed bs -> capacity_ s = binary_set.capacity bs -> root_ s = Some root ->
  bs_searcher.find_subsets bs s =
  Ok (List.concat (map values (leaves (elements bs) root))).
Proof.
  intros Hb Hc Hr. unfold bs_searcher.find_subsets, validate_capacity.
  rewrite Hc, Z.eqb_refl, Hr. cbn [negb obind].
  rewrite levels_leaves; [|assumption|apply range_Forall].
  cbn [obind flat_map]. now rewrite app_nil_r.
Qed.

(** ** What the trie holds *)

Lemma contents_S d n :
  contents (S d) n =
  map (tag false) (contents_opt d (left n)) ++ map (tag true) (contents_opt d (right n)).
Proof. destruct n as [vs [l|] [r|]]; reflexivity. Qed.

Lemma contents_dead d n : is_dead n = true -> contents d n = [].
Proof.
  destruct n as [[|v vs] [l|] [r|]]; cbn; try discriminate.
  now destruct d.
Qed.

Lemma contents_link d n : contents_opt d (link n) = contents d n.
Proof.
  unfold link. destruct (is_dead n) eqn:E; [|reflexivity].
  cbn. now rewrite contents_dead.
Qed.

Lemma contents_child_or_new d b n :
  contents d (child_or_new b n) = contents_opt d (child b n).
Proof.
  unfold child_or_new. destruct (child b n); [reflexivity|]. now destruct d.
Qed.

Lemma contents_set_child d b c n :
  contents (S d) (set_child b c n) =
  if b then map (tag false) (contents_opt d (left n)) ++ map (tag true) (contents_opt d c)
  else map (tag false) (contents_opt d c) ++ map (tag true) (contents_opt d (right n)).
Proof. rewrite contents_S. now destruct b. Qed.

Lemma contents_insert bits value n :
  Permutation (contents (List.length bits) (insert bits value n))
              ((bits, value) :: contents (List.length bits) n).
Proof.
  revert n. induction bits as [|b rest IH]; intros n.
  - cbn. rewrite map_app. cbn. symmetry. apply Permutation_cons_append.
  - cbn [List.length insert]. rewrite contents_set_child, contents_S.
    specialize (IH (child_or_new b n)). rewrite contents_child_or_new in IH.
    cbn [contents_opt]. destruct b; cbn [child] in IH.
    + rewrite (Permutation_map (tag true) IH). cbn [map]. unfold tag at 2. cbn [fst snd].
      symmetry. apply Permutation_middle.
    + rewrite (Permutation_map (tag false) IH). reflexivity.
Qed.

Lemma contents_erase bits value n n' :
  erase bits value n = Some n' ->
  Permutation (contents (List.length bits) n)
              ((bits, value) :: contents (List.length bits) n').
Proof.
  revert n n'. induction bits as [|b rest IH]; intros n n'.
  - cbn. destruct (find value (values n)) as [k|] eqn:F; [|discriminate].
    intros [= <-]. cbn [values with_values].
    apply (Permutation_map (fun v => ([] : list bool, v))
             (swap_pop_Permutation _ _ _ F)).
  - cbn [erase List.length]. destruct (child b n) as [c|] eqn:Hc; [|discriminate].
    destruct (erase rest value c) as [c'|] eqn:E; [|discriminate].
    intros [= <-]. rewrite contents_set_child, contents_S, contents_link.
    specialize (IH _ _ E). destruct b; cbn [child] in Hc; rewrite Hc; cbn [contents_opt].
    + rewrite (Permutation_map (tag true) IH). cbn [map]. unfold tag at 2. cbn [fst snd].
      symmetry. apply Permutation_middle.
    + rewrite (Permutation_map (tag false) IH). reflexivity.
Qed.

Lemma in_map_tag b bits value l :
  In (b :: bits, value) (map (tag b) l) <-> In (bits, value) l.
Proof.
  rewrite in_map_iff. split.
  - intros [[k v] [E H]]. unfold tag in E. cbn in E. now injection E as -> ->.
  - intros H. now exists (bits, value).
Qed.

Lemma not_in_map_tag b bits value l :
  ~ In (b :: bits, value) (map (tag (negb b)) l).
Proof.
  rewrite in_map_iff. intros [[k v] [E _]]. unfold tag in E. cbn in E.
  injection E as E _ _. now destruct b.
Qed.

Lemma contents_erase_none bits value n :
  erase bits value n = None ->
  ~ In (bits, value) (contents (List.length bits) n).
Proof.
  revert n. induction bits as [|b rest IH]; intros n.
  - cbn. destruct (find value (values n)) eqn:F; [discriminate|]. intros _.
    apply find_absent in F. rewrite in_map_iff. intros [v [[= ->] H]]. now apply F.
  - cbn [erase List.length]. rewrite contents_S, in_app_iff. intros E [H|H].
    + destruct b; [now apply (not_in_map_tag true) in H|].
      apply in_map_tag in H. cbn [child] in E.
      destruct (left n) as [c|]; [|exact H].
      destruct (erase rest value c) eqn:E'; [discriminate|]. now apply (IH c).
    + destruct b; [|now apply (not_in_map_tag false) in H].
      apply in_map_tag in H. cbn [child] in E.
      destruct (right n) as [c|]; [|exact H].
      destruct (erase rest value c) eqn:E'; [discriminate|]. now apply (IH c).
Qed.

(** ** Shape and pruning are kept *)

Lemma shaped_S d n :
  shaped (S d) n =
  match values n with [] => true | _ => false end
  && shaped_opt d (left n) && shaped_opt d (right n).
Proof. now destruct n. Qed.

Lemma pruned_eq n : pruned n = pruned_opt (left n) && pruned_opt (right n).
Proof. now destruct n. Qed.

Lemma shaped_new d : shaped d new_node = true.
Proof. now destruct d. Qed.

Lemma shaped_child_or_new d b n :
  shaped (S d) n = true -> shaped d (child_or_new b n) = true.
Proof.
  rewrite shaped_S. unfold child_or_new.
  destruct (values n); [|discriminate]. cbn [andb].
  intros H. apply andb_prop in H. destruct H as [Hl Hr].
  destruct b; cbn [child].
  - destruct (right n); [exact Hr|apply shaped_new].
  - destruct (left n); [exact Hl|apply shaped_new].
Qed.

Lemma shaped_set_child d b c n :
  shaped (S d) n = true -> shaped_opt d c = true ->
  shaped (S d) (set_child b c n) = true.
Proof.
  rewrite !shaped_S. intros H Hc.
  destruct (values n) eqn:V; [|discriminate]. cbn [andb] in H.
  apply andb_prop in H. destruct H as [Hl Hr].
  destruct b; cbn [set_child values left right]; rewrite V; cbn [andb];
    apply andb_true_intro; split; assumption.
Qed.

Lemma shaped_insert bits value n :
  shaped (List.length bits) n = true ->
  shaped (List.length bits) (insert bits value n) = true.
Proof.
  revert n. induction bits as [|b rest IH]; intros n H.
  - cbn in *. exact H.
  - cbn [List.length insert] in *. apply shaped_set_child; [exact H|].
    cbn [shaped_opt]. apply IH. now apply shaped_child_or_new.
Qed.

Lemma shaped_link d n : shaped d n = true -> shaped_opt d (link n) = true.
Proof. unfold link. now destruct (is_dead n). Qed.

Lemma shaped_child d b n c :
  shaped (S d) n = true -> child b n = Some c -> shaped d c = true.
Proof.
  rewrite shaped_S. destruct (values n); [|discriminate]. cbn [andb].
  intros H Hc. apply andb_prop in H. destruct H as [Hl Hr].
  destruct b; cbn [child] in Hc; rewrite Hc in *; assumption.
Qed.

Lemma shaped_erase bits value n n' :
  shaped (List.length bits) n = true -> erase bits value n = Some n' ->
  shaped (List.length bits) n' = true.
Proof.
  revert n n'. induction bits as [|b rest IH]; intros n n' H.
  - cbn in *. destruct (find value (values n)); [|discriminate].
    intros [= <-]. exact H.
  - cbn [List.length erase] in *. destruct (child b n) as [c|] eqn:Hc; [|discriminate].
    destruct (erase rest value c) as [c'|] eqn:E; [|discriminate].
    intros [= <-]. apply shaped_set_child; [exact H|].
    apply shaped_link. apply (IH c); [|exact E]. now apply (shaped_child _ b n).
Qed.

Lemma pruned_new : pruned new_node = true.
Proof. reflexivity. Qed.

Lemma pruned_child b n c :
  pruned n = true -> child b n = Some c -> is_dead c = false /\ pruned c = true.
Proof.
  rewrite pruned_eq. intros H Hc. apply andb_prop in H. destruct H as [Hl Hr].
  destruct b; cbn [child] in Hc; rewrite Hc in *; cbn [pruned_opt] in *.
  - apply andb_prop in Hr. destruct Hr as [Hd Hp]. split; [|exact Hp].
    now destruct (is_dead c).
  - apply andb_prop in Hl. destruct Hl as [Hd Hp]. split; [|exact Hp].
    now destruct (is_dead c).
Qed.

Lemma pruned_child_or_new b n :
  pruned n = true -> pruned (child_or_new b n) = true.
Proof.
  intros H. unfold child_or_new. destruct (child b n) as [c|] eqn:Hc.
  - now apply (pruned_child b n c).
  - reflexivity.
Qed.

Lemma pruned_set_child b c n :
  pruned n = true -> pruned_opt c = true -> pruned (set_child b c n) = true.
Proof.
  rewrite !pruned_eq. intros H Hc. apply andb_prop in H. destruct H as [Hl Hr].
  destruct b; cbn [set_child left right]; apply andb_true_intro; split; assumption.
Qed.

Lemma pruned_with_values vs n : pruned (with_values vs n) = pruned n.
Proof. now destruct n. Qed.

Lemma insert_alive bits value n : is_dead (insert bits value n) = false.
Proof.
  destruct bits as [|b rest]; cbn [insert].
  - unfold is_dead. cbn. now destruct (values n).
  - apply is_dead_set_child_some.
Qed.

Lemma pruned_insert bits value n :
  pruned n = true -> pruned (insert bits value n) = true.
Proof.
  revert n. induction bits as [|b rest IH]; intros n H; cbn [insert].
  - now rewrite pruned_with_values.
  - apply pruned_set_child; [exact H|]. cbn [pruned_opt].
    rewrite insert_alive. cbn [negb andb]. apply IH. now apply pruned_child_or_new.
Qed.

Lemma pruned_link n : pruned n = true -> pruned_opt (link n) = true.
Proof.
  unfold link. intros H. destruct (is_dead n) eqn:E; [reflexivity|].
  cbn. now rewrite E.
Qed.

Lemma pruned_erase bits value n n' :
  pruned n = true -> erase bits value n = Some n' -> pruned n' = true.
Proof.
  revert n n'. induction bits as [|b rest IH]; intros n n' H; cbn [erase].
  - destruct (find value (values n)); [|discriminate]. intros [= <-].
    now rewrite pruned_with_values.
  - destruct (child b n) as [c|] eqn:Hc; [|discriminate].
    destruct (erase rest value c) as [c'|] eqn:E; [|discriminate].
    intros [= <-]. apply pruned_set_child; [exact H|]. apply pruned_link.
    apply (IH c); [|exact E]. now apply (pruned_child b n c).
Qed.

(** ** The leaves a query lets through *)

Lemma subset_bits_length s q : subset_bits s q = true -> List.length s = List.length q.
Proof.
  revert q. induction s as [|a s IH]; intros [|b q]; cbn; try discriminate; auto.
  intros H. apply andb_prop in H. destruct H as [_ H]. f_equal. now apply IH.
Qed.

Lemma leaves_opt_contents rest c :
  (forall n, List.concat (map values (leaves rest n)) =
             map snd (filter (passes rest) (contents (List.length rest) n))) ->
  forall b q, implb b q = true ->
  List.concat (map values (flat_map (leaves rest) (opt_list c))) =
  map snd (filter (passes (q :: rest))
                  (map (tag b) (contents_opt (List.length rest) c))).
Proof.
  intros IH b q Hq. rewrite filter_map_swap, map_map.
  destruct c as [n|]; cbn [opt_list flat_map contents_opt]; [|reflexivity].
  rewrite app_nil_r, IH. cbn [snd tag]. f_equal. apply filter_ext.
  intros [k v]. unfold passes, tag. cbn [fst snd subset_bits]. now rewrite Hq.
Qed.

Lemma filter_tag_true_false rest l :
  filter (passes (false :: rest)) (map (tag true) l) = [].
Proof.
  rewrite filter_map_swap. induction l as [|e l IH]; [reflexivity|].
  cbn [filter]. unfold passes at 1, tag at 1. cbn [fst subset_bits implb andb].
  cbn [map]. exact IH.
Qed.

(** The values of the leaves reached are the stored values whose bit
    pattern is below the query's, in the same order. *)
Lemma leaves_contents qbits n :
  List.concat (map values (leaves qbits n)) =
  map snd (filter (passes qbits) (contents (List.length qbits) n)).
Proof.
  revert n. induction qbits as [|q rest IH]; intros n.
  - cbn. rewrite app_nil_r. induction (values n) as [|v vs IHv]; [reflexivity|].
    cbn. now rewrite <- IHv.
  - cbn [leaves List.length]. rewrite contents_S, filter_app, map_app.
    unfold next_nodes. destruct q.
    + rewrite flat_map_app, map_app, concat_app.
      rewrite (leaves_opt_contents rest (left n) IH false true eq_refl).
      rewrite (leaves_opt_contents rest (right n) IH true true eq_refl).
      reflexivity.
    + rewrite (leaves_opt_contents rest (left n) IH false false eq_refl).
      rewrite filter_tag_true_false. cbn [map]. now rewrite app_nil_r.
Qed.

(** ** Looking a bit pattern up *)

Lemma lookup_dead bits n : is_dead n = true -> leaf_values bits n = [].
Proof.
  unfold leaf_values. destruct n as [[|v vs] [l|] [r|]]; cbn; try discriminate.
  intros _. destruct bits as [|[|] rest]; reflexivity.
Qed.

Lemma child_set_child b c n : child b (set_child b c n) = c.
Proof. now destruct b. Qed.

Lemma child_set_child_other b b' c n :
  b' <> b -> child b' (set_child b c n) = child b' n.
Proof. destruct b, b'; intros H; try reflexivity; now elim H. Qed.

Lemma leaf_values_cons b rest n :
  leaf_values (b :: rest) n =
  match child b n with Some c => leaf_values rest c | None => [] end.
Proof. unfold leaf_values. cbn. now destruct (child b n). Qed.

Lemma leaf_values_link rest c :
  match link c with Some c' => leaf_values rest c' | None => [] end =
  leaf_values rest c.
Proof.
  unfold link. destruct (is_dead c) eqn:E; [|reflexivity].
  symmetry. now apply lookup_dead.
Qed.

(** What [erase] finds, takes away and leaves in place. *)
Lemma erase_some bits value n n' :
  erase bits value n = Some n' ->
  exists leaf k,
    lookup bits n = Some leaf /\ find value (values leaf) = Some k /\
    leaf_values bits n' = swap_pop k (values leaf) /\
    forall bits', bits' <> bits -> leaf_values bits' n' = leaf_values bits' n.
Proof.
  revert n n'. induction bits as [|b rest IH]; intros n n'; cbn [erase].
  - destruct (find value (values n)) as [k|] eqn:F; [|discriminate].
    intros [= <-]. exists n, k. repeat split; try assumption.
    intros [|b' rest'] H; [now elim H|]. now rewrite !leaf_values_cons.
  - destruct (child b n) as [c|] eqn:Hc; [|discriminate].
    destruct (erase rest value c) as [c'|] eqn:E; [|discriminate].
    intros [= <-]. destruct (IH _ _ E) as (leaf & k & L & F & V & O).
    exists leaf, k. cbn [lookup]. rewrite Hc. repeat split; try assumption.
    + rewrite leaf_values_cons, child_set_child, leaf_values_link. exact V.
    + intros [|b' rest'] H.
      * unfold leaf_values. cbn. now destruct b.
      * rewrite !leaf_values_cons. destruct (Bool.bool_dec b' b) as [->|Hb].
        -- rewrite child_set_child, leaf_values_link, Hc. apply O. congruence.
        -- now rewrite child_set_child_other.
Qed.

Lemma erase_none bits value n :
  erase bits value n = None ->
  lookup bits n = None \/
  exists leaf, lookup bits n = Some leaf /\ find value (values leaf) = None.
Proof.
  revert n. induction bits as [|b rest IH]; intros n; cbn [erase lookup].
  - destruct (find value (values n)) eqn:F; [discriminate|]. intros _.
    right. now exists n.
  - destruct (child b n) as [c|]; [|now left].
    destruct (erase rest value c) eqn:E; [discriminate|]. intros _. now apply IH.
Qed.

Lemma lookup_pruned bits n m :
  pruned n = true -> lookup bits n = Some m -> bits <> [] ->
  is_dead m = false /\ pruned m = true.
Proof.
  revert n. induction bits as [|b rest IH]; intros n Hp L Hne; [now elim Hne|].
  cbn [lookup] in L. destruct (child b n) as [c|] eqn:Hc; [|discriminate].
  destruct (pruned_child _ _ _ Hp Hc) as [Hd Hpc].
  destruct rest as [|b' rest'].
  - cbn in L. injection L as <-. now split.
  - apply (IH c); [exact Hpc|exact L|discriminate].
Qed.

Lemma lookup_shaped bits n m :
  shaped (List.length bits) n = true -> lookup bits n = Some m ->
  left m = None /\ right m = None.
Proof.
  revert n. induction bits as [|b rest IH]; intros n Hs L.
  - cbn in *. injection L as <-. destruct (left n), (right n); try discriminate.
    now split.
  - cbn [lookup List.length] in *. destruct (child b n) as [c|] eqn:Hc; [|discriminate].
    apply (IH c); [|exact L]. now apply (shaped_child _ b n).
Qed.

Lemma lookup_contents bits n m v :
  lookup bits n = Some m -> In v (values m) ->
  In (bits, v) (contents (List.length bits) n).
Proof.
  revert n. induction bits as [|b rest IH]; intros n L Hv.
  - cbn in *. injection L as <-. apply in_map_iff. now exists v.
  - cbn [lookup List.length] in *. destruct (child b n) as [c|] eqn:Hc; [|discriminate].
    rewrite contents_S, in_app_iff. specialize (IH c L Hv).
    destruct b; cbn [child] in Hc; rewrite Hc; cbn [contents_opt].
    + right. now apply in_map_tag.
    + left. now apply in_map_tag.
Qed.

Lemma lookup_app p q n :
  lookup (p ++ q) n =
  match lookup p n with
  | Some m => lookup q m
  | None => None
  end.
Proof.
  revert n. induction p as [|b p IH]; intros n; cbn; [reflexivity|].
  destruct (child b n); [apply IH|reflexivity].
Qed.

Lemma alive_cases b m :
  is_dead m = false ->
  values m <> [] \/ child (negb b) m <> None \/ child b m <> None.
Proof.
  unfold is_dead. destruct m as [[|v vs] [l|] [r|]]; cbn; intros H;
    try discriminate; destruct b; cbn; auto; try (left; discriminate);
    try (right; left; discriminate); try (right; right; discriminate).
Qed.

(** Along a path whose leaf is gone, below every node that is still there
    some node holds values or a child off the path. *)
Lemma remaining_node_has_cause root :
  (forall path m, path <> [] -> lookup path root = Some m -> is_dead m = false) ->
  forall s p m,
    p <> [] -> lookup p root = Some m -> lookup (p ++ s) root = None ->
    exists q b rest m',
      s = q ++ b :: rest /\ lookup (p ++ q) root = Some m' /\
      (values m' <> [] \/ child (negb b) m' <> None).
Proof.
  intros Alive. induction s as [|b rest IH]; intros p m Hp L N.
  - rewrite app_nil_r in N. congruence.
  - destruct (alive_cases b m (Alive p m Hp L)) as [V|[O|C]].
    + exists [], b, rest, m. rewrite app_nil_r. auto.
    + exists [], b, rest, m. rewrite app_nil_r. auto.
    + destruct (child b m) as [m2|] eqn:E; [|now elim C].
      assert (L2 : lookup (p ++ [b]) root = Some m2).
      { rewrite lookup_app, L. cbn. now rewrite E. }
      destruct (IH (p ++ [b]) m2) as (q & b' & rest' & m' & Es & Lq & R).
      * now destruct p.
      * exact L2.
      * now rewrite <- app_assoc.
      * exists (b :: q), b', rest', m'. split; [cbn; now rewrite Es|].
        split; [|exact R]. rewrite <- app_assoc in Lq. exact Lq.
Qed.

(** ** Sequences of operations *)

Lemma range_length n : List.length (range n) = Z.to_nat n.
Proof. unfold range. now rewrite length_map, length_seq. Qed.

Lemma elements_length bs :
  List.length (elements bs) = Z.to_nat (binary_set.capacity bs).
Proof. unfold elements. now rewrite length_map, range_length. Qed.

Lemma same_elements_eq a b :
  binary_set.capacity a = binary_set.capacity b ->
  same_elements a b = true <-> elements a = elements b.
Proof.
  intros Hc. unfold same_elements, elements. rewrite <- Hc.
  induction (range (binary_set.capacity a)) as [|i l IH]; cbn.
  - tauto.
  - rewrite andb_true_iff, IH. split.
    + intros [H ->]. f_equal. now apply eqb_prop.
    + intros [= -> ->]. split; [apply eqb_reflx|reflexivity].
Qed.

Lemma entry_eqb_key x e :
  binary_set.capacity (fst x) = binary_set.capacity (fst e) ->
  entry_eqb x e = true <-> key x = key e.
Proof.
  intros Hc. unfold entry_eqb, key. rewrite andb_true_iff, Z.eqb_eq.
  rewrite (same_elements_eq _ _ Hc). split.
  - intros [-> ->]. reflexivity.
  - intros [= -> ->]. now split.
Qed.

Lemma is_subset_of_bits s q :
  binary_set.capacity s = binary_set.capacity q ->
  is_subset_of s q = subset_bits (elements s) (elements q).
Proof.
  intros Hc. unfold is_subset_of, elements. rewrite <- Hc.
  induction (range (binary_set.capacity s)) as [|i l IH]; cbn; [reflexivity|].
  now rewrite IH.
Qed.

Lemma remove_one_absent c e st :
  Forall (fun x => binary_set.capacity (fst x) = c) st ->
  binary_set.capacity (fst e) = c ->
  ~ In (key e) (map key st) -> remove_one e st = st.
Proof.
  intros H Hc. induction H as [|x rest Hx _ IH]; intros Hn; [reflexivity|].
  cbn [remove_one]. destruct (entry_eqb x e) eqn:E.
  - apply entry_eqb_key in E; [|congruence]. exfalso. apply Hn. left. exact E.
  - f_equal. apply IH. intros Hin. apply Hn. now right.
Qed.

Lemma remove_one_present c e st :
  Forall (fun x => binary_set.capacity (fst x) = c) st ->
  binary_set.capacity (fst e) = c ->
  In (key e) (map key st) ->
  Permutation (map key st) (key e :: map key (remove_one e st)).
Proof.
  intros H Hc. induction H as [|x rest Hx _ IH]; intros Hin; [destruct Hin|].
  cbn [remove_one map]. destruct (entry_eqb x e) eqn:E.
  - apply entry_eqb_key in E; [|congruence]. now rewrite E.
  - destruct Hin as [Hk|Hin].
    + apply entry_eqb_key in Hk; [congruence|congruence].
    + cbn [map]. rewrite (IH Hin) at 1. apply perm_swap.
Qed.

Lemma remove_one_Forall (P : entry -> Prop) e st :
  Forall P st -> Forall P (remove_one e st).
Proof.
  induction 1 as [|x rest Hx H IH]; cbn; [constructor|].
  destruct (entry_eqb x e); [assumption|now constructor].
Qed.

Lemma add_mismatch value bs s :
  capacity_ s <> binary_set.capacity bs ->
  bs_searcher.add value bs s = (Throw unexpected_capacity, s).
Proof.
  intros H. unfold bs_searcher.add, bind, query, validate_capacity.
  destruct (Z.eqb_spec (capacity_ s) (binary_set.capacity bs)); [contradiction|].
  reflexivity.
Qed.

Lemma remove_mismatch value bs s :
  capacity_ s <> binary_set.capacity bs ->
  bs_searcher.remove value bs s = (Throw unexpected_capacity, s).
Proof.
  intros H. unfold bs_searcher.remove, bind, query, validate_capacity.
  destruct (Z.eqb_spec (capacity_ s) (binary_set.capacity bs)); [contradiction|].
  reflexivity.
Qed.

Lemma find_subsets_mismatch bs s :
  capacity_ s <> binary_set.capacity bs ->
  bs_searcher.find_subsets bs s = Throw unexpected_capacity.
Proof.
  intros H. unfold bs_searcher.find_subsets, validate_capacity.
  destruct (Z.eqb_spec (capacity_ s) (binary_set.capacity bs)); [contradiction|].
  reflexivity.
Qed.

Lemma index_inv_make c : index_inv c (bs_searcher.make c) [].
Proof.
  split; [reflexivity|constructor|]. exists new_node.
  repeat split; [apply shaped_new|]. now destruct (Z.to_nat c).
Qed.

Lemma index_inv_run c s st o :
  backed (op_set o) -> index_inv c s st ->
  index_inv c (run s o) (stored_step c st o).
Proof.
  intros Hb [Hc He (root & Hr & Hs & Hp & Hperm)].
  destruct o as [value bs|value bs]; cbn [run stored_step op_set] in *.
  - destruct (Z.eqb_spec (binary_set.capacity bs) c) as [E|E].
    + rewrite (add_insert value bs s root Hb); [|congruence|exact Hr]. cbn [snd].
      assert (L : List.length (elements bs) = Z.to_nat c)
        by (now rewrite elements_length, E).
      split; [exact Hc| |].
      * apply Forall_app. split; [exact He|]. now repeat constructor.
      * exists (insert (elements bs) value root). rewrite <- L in *.
        repeat split.
        -- now apply shaped_insert.
        -- now apply pruned_insert.
        -- rewrite contents_insert, Hperm, map_app. cbn [map].
           apply Permutation_cons_append.
    + rewrite add_mismatch by congruence. cbn [snd].
      split; [exact Hc|exact He|]. now exists root.
  - destruct (Z.eqb_spec (binary_set.capacity bs) c) as [E|E].
    + rewrite (remove_erase value bs s root Hb); [|congruence|exact Hr].
      assert (L : List.length (elements bs) = Z.to_nat c)
        by (now rewrite elements_length, E).
      destruct (erase (elements bs) value root) as [root'|] eqn:Er; cbn [snd].
      * split; [exact Hc|now apply remove_one_Forall|].
        exists root'. rewrite <- L in *. repeat split.
        -- exact (shaped_erase _ _ _ _ Hs Er).
        -- exact (pruned_erase _ _ _ _ Hp Er).
        -- pose proof (contents_erase _ _ _ _ Er) as Pc.
           assert (Hin : In (key (bs, value)) (map key st)).
           { eapply Permutation_in; [exact Hperm|].
             eapply Permutation_in; [symmetry; exact Pc|]. now left. }
           pose proof (remove_one_present c (bs, value) st He E Hin) as Ps.
           apply (Permutation_cons_inv (a := key (bs, value))).
           rewrite <- Ps, <- Hperm. symmetry. exact Pc.
      * rewrite (remove_one_absent c (bs, value) st He E).
        -- split; [exact Hc|exact He|]. now exists root.
        -- intros Hin. apply (contents_erase_none _ _ _ Er).
           rewrite L. eapply Permutation_in; [symmetry; exact Hperm|]. exact Hin.
    + rewrite remove_mismatch by congruence. cbn [snd].
      split; [exact Hc|exact He|]. now exists root.
Qed.

Lemma index_inv_run_all c ops :
  Forall (fun o => backed (op_set o)) ops ->
  forall s st, index_inv c s st ->
  index_inv c (run_all ops s) (fold_left (stored_step c) ops st).
Proof.
  induction 1 as [|o ops Ho _ IH]; intros s st H; [exact H|].
  cbn [run_all fold_left]. apply IH. now apply index_inv_run.
Qed.

Lemma index_inv_built c ops :
  Forall (fun o => backed (op_set o)) ops ->
  index_inv c (run_all ops (bs_searcher.make c)) (stored c ops).
Proof. intros H. apply index_inv_run_all; [exact H|apply index_inv_make]. Qed.

Lemma Permutation_filter_keep {A} (f : A -> bool) l l' :
  Permutation l l' -> Permutation (filter f l) (filter f l').
Proof.
  induction 1 as [|x l l' _ IH|x y l|l l' l'' _ IH1 _ IH2]; cbn.
  - constructor.
  - destruct (f x); [now constructor|assumption].
  - destruct (f x), (f y); try reflexivity. apply perm_swap.
  - now transitivity (filter f l').
Qed.

(** ** Counting over an index range *)

Lemma range_nonpos n : n <= 0 -> range n = [].
Proof. intros H. unfold range. now replace (Z.to_nat n) with O by lia. Qed.

Lemma range_succ n : 0 <= n -> range (n + 1) = range n ++ [n].
Proof.
  intros H. unfold range.
  replace (Z.to_nat (n + 1)) with (S (Z.to_nat n)) by lia.
  rewrite seq_S, map_app. cbn. f_equal. f_equal. lia.
Qed.

Lemma cnt_nonpos p n : n <= 0 -> cnt p n = 0.
Proof. intros H. unfold cnt. now rewrite range_nonpos. Qed.

Lemma cnt_succ p n :
  0 <= n -> cnt p (n + 1) = cnt p n + (if p n then 1 else 0).
Proof.
  intros H. unfold cnt. rewrite range_succ, filter_app, length_app by assumption.
  cbn. destruct (p n); cbn; lia.
Qed.

Lemma cnt_bounds p n : 0 <= n -> 0 <= cnt p n <= n.
Proof.
  intros H. pattern n. apply natlike_ind; [now rewrite cnt_nonpos by lia| |exact H].
  intros x Hx IH. unfold Z.succ. rewrite cnt_succ by assumption.
  destruct (p x); lia.
Qed.

Lemma cnt_ext p q n :
  (forall i, 0 <= i < n -> p i = q i) -> cnt p n = cnt q n.
Proof.
  intros H. unfold cnt. f_equal. f_equal. apply filter_ext_in.
  intros i Hi. apply H. now apply In_range.
Qed.

Lemma cnt_shift p a n :
  0 <= a -> 0 <= n -> cnt p (a + n) = cnt p a + cnt (fun i => p (a + i)) n.
Proof.
  intros Ha Hn. pattern n. apply natlike_ind; [|  |exact Hn].
  - rewrite Z.add_0_r, (cnt_nonpos _ 0); lia.
  - intros x Hx IH. unfold Z.succ. rewrite Z.add_assoc, !cnt_succ by lia. lia.
Qed.

Lemma cnt_cut p m n :
  0 <= m <= n -> (forall i, m <= i < n -> p i = false) -> cnt p n = cnt p m.
Proof.
  intros [Hm Hn] Hp. replace n with (m + (n - m)) by lia.
  rewrite cnt_shift by lia.
  rewrite (cnt_ext (fun i => p (m + i)) (fun _ => false) (n - m)).
  - assert (Hz : forall k, 0 <= k -> cnt (fun _ => false) k = 0).
    { intros k Hk. pattern k. apply natlike_ind; [now rewrite cnt_nonpos by lia| |exact Hk].
      intros x Hx IH. unfold Z.succ. rewrite cnt_succ by assumption. lia. }
    rewrite Hz by lia. lia.
  - intros i Hi. apply Hp. lia.
Qed.

Lemma cnt_zero p n : (forall i, 0 <= i < n -> p i = false) -> cnt p n = 0.
Proof.
  intros H. destruct (Z.le_gt_cases 0 n) as [Hn|Hn].
  - rewrite (cnt_cut p 0 n); [now rewrite cnt_nonpos by lia|lia|exact H].
  - apply cnt_nonpos. lia.
Qed.

Lemma cnt_below c n : 0 <= c <= n -> cnt (fun i => i <? c) n = c.
Proof.
  intros [Hc Hn]. rewrite (cnt_cut _ c n); [|lia|intros i Hi; apply Z.ltb_ge; lia].
  clear Hn n. pattern c. apply natlike_ind; [now rewrite cnt_nonpos by lia| |exact Hc].
  intros x Hx IH. unfold Z.succ. rewrite cnt_succ by assumption.
  rewrite (cnt_ext _ (fun i => i <? x)).
  - rewrite IH. destruct (Z.ltb_spec x (x + 1)); lia.
  - intros i Hi. destruct (Z.ltb_spec i (x + 1)), (Z.ltb_spec i x); lia.
Qed.

(** Changing the predicate at one index changes the count by one. *)
Lemma cnt_set p q e n :
  0 <= e < n -> p e = false -> q e = true ->
  (forall i, 0 <= i < n -> i <> e -> q i = p i) -> cnt q n = cnt p n + 1.
Proof.
  intros He Hp Hq Ho.
  replace n with ((e + 1) + (n - (e + 1))) by lia.
  rewrite (cnt_shift q), (cnt_shift p) by lia.
  rewrite !cnt_succ by lia. rewrite Hp, Hq.
  rewrite (cnt_ext q p e) by (intros i Hi; apply Ho; lia).
  rewrite (cnt_ext (fun i => q (e + 1 + i)) (fun i => p (e + 1 + i)))
    by (intros i Hi; apply Ho; lia).
  lia.
Qed.

Lemma cnt_clear p q e n :
  0 <= e < n -> p e = true -> q e = false ->
  (forall i, 0 <= i < n -> i <> e -> q i = p i) -> cnt q n = cnt p n - 1.
Proof.
  intros He Hp Hq Ho.
  rewrite (cnt_set q p e n); try assumption; [lia|].
  intros i Hi Hne. symmetry. now apply Ho.
Qed.
(** ** Bytes and their bits *)

Lemma u8_byte x : is_byte (u8 x).
Proof. unfold is_byte, u8. apply Z.mod_pos_bound. lia. Qed.

Lemma u8_id b : is_byte b -> u8 b = b.
Proof. unfold is_byte, u8. intros H. now apply Z.mod_small. Qed.

Lemma testbit_u8 x m : 0 <= m < 8 -> Z.testbit (u8 x) m = Z.testbit x m.
Proof.
  intros H. unfold u8. change 256 with (2 ^ 8).
  apply Z.mod_pow2_bits_low. lia.
Qed.

Lemma byte_high b m : is_byte b -> 8 <= m -> Z.testbit b m = false.
Proof.
  intros Hb Hm. rewrite <- (u8_id b Hb). unfold u8. change 256 with (2 ^ 8).
  apply Z.mod_pow2_bits_high. lia.
Qed.

Lemma byte_ext a b :
  is_byte a -> is_byte b ->
  (forall m, 0 <= m < 8 -> Z.testbit a m = Z.testbit b m) -> a = b.
Proof.
  intros Ha Hb H. apply Z.bits_inj'. intros m Hm.
  destruct (Z.lt_ge_cases m 8) as [Hlt|Hge].
  - apply H. lia.
  - now rewrite !byte_high by assumption.
Qed.

Lemma bit_mask k : 0 <= k < 8 -> u32 (Z.shiftl 1 k) = 2 ^ k.
Proof.
  intros H. rewrite Z.shiftl_1_l. unfold u32. apply Z.mod_small.
  split; [apply Z.pow_nonneg; lia|apply Z.pow_lt_mono_r; lia].
Qed.

Lemma land_pow2_zero b k :
  0 <= k -> negb (Z.land b (2 ^ k) =? 0) = Z.testbit b k.
Proof.
  intros Hk. destruct (Z.testbit b k) eqn:T.
  - destruct (Z.eqb_spec (Z.land b (2 ^ k)) 0) as [E|E]; [|reflexivity].
    assert (B : Z.testbit (Z.land b (2 ^ k)) k = true)
      by (now rewrite Z.land_spec, T, Z.pow2_bits_true).
    rewrite E, Z.bits_0 in B. discriminate.
  - replace (Z.land b (2 ^ k)) with 0; [reflexivity|].
    symmetry. apply Z.bits_inj'. intros m Hm.
    rewrite Z.land_spec, Z.bits_0, Z.pow2_bits_eqb by assumption.
    destruct (Z.eqb_spec k m) as [<-|]; [now rewrite T|apply andb_false_r].
Qed.

Lemma testbit_set b k m :
  0 <= k < 8 -> 0 <= m < 8 ->
  Z.testbit (u8 (Z.lor b (u32 (Z.shiftl 1 k)))) m = Z.testbit b m || (m =? k).
Proof.
  intros Hk Hm. rewrite testbit_u8, bit_mask, Z.lor_spec by assumption.
  rewrite Z.pow2_bits_eqb by lia. now rewrite (Z.eqb_sym k m).
Qed.

Lemma testbit_clear b k m :
  0 <= k < 8 -> 0 <= m < 8 ->
  Z.testbit (u8 (Z.land b (u32 (Z.lnot (u32 (Z.shiftl 1 k)))))) m =
  Z.testbit b m && negb (m =? k).
Proof.
  intros Hk Hm. rewrite testbit_u8, bit_mask, Z.land_spec by assumption.
  f_equal. unfold u32. rewrite Z.mod_pow2_bits_low by lia.
  rewrite Z.lnot_spec, Z.pow2_bits_eqb by lia. now rewrite (Z.eqb_sym k m).
Qed.

Lemma testbit_byte_and a b m :
  0 <= m < 8 ->
  Z.testbit (binary_set.byte_and a b) m = Z.testbit a m && Z.testbit b m.
Proof. intros H. unfold binary_set.byte_and. now rewrite testbit_u8, Z.land_spec. Qed.

Lemma testbit_byte_or a b m :
  0 <= m < 8 ->
  Z.testbit (binary_set.byte_or a b) m = Z.testbit a m || Z.testbit b m.
Proof. intros H. unfold binary_set.byte_or. now rewrite testbit_u8, Z.lor_spec. Qed.

Lemma testbit_byte_diff a b m :
  0 <= m < 8 ->
  Z.testbit (binary_set.byte_diff a b) m = Z.testbit a m && negb (Z.testbit b m).
Proof.
  intros H. unfold binary_set.byte_diff.
  rewrite testbit_u8, Z.land_spec, Z.lnot_spec by lia. reflexivity.
Qed.

Lemma testbit_byte_not a m :
  0 <= m < 8 -> Z.testbit (u8 (Z.lnot a)) m = negb (Z.testbit a m).
Proof. intros H. rewrite testbit_u8, Z.lnot_spec by lia. reflexivity. Qed.

Lemma testbit_last_mask c m :
  0 <= m < 8 -> Z.testbit (binary_set.last_mask c) m = (m <? c mod 8).
Proof.
  intros Hm. unfold binary_set.last_mask.
  pose proof (Z.mod_pos_bound c 8 ltac:(lia)) as Hr.
  generalize dependent (c mod 8). intros r Hr.
  below8 r Hr; below8 m Hm; reflexivity.
Qed.

Lemma testbit_all_ones m : 0 <= m < 8 -> Z.testbit binary_set.all_ones m = true.
Proof. intros Hm. below8 m Hm; reflexivity. Qed.

(** ** Vectors *)

Lemma upd_length k x v : List.length (upd k x v) = List.length v.
Proof.
  revert k. induction v as [|a v IH]; intros [|k]; cbn; try reflexivity.
  now rewrite IH.
Qed.

Lemma upd_nth k x v j d :
  (k < List.length v)%nat ->
  nth j (upd k x v) d = if Nat.eqb j k then x else nth j v d.
Proof.
  revert k j. induction v as [|a v IH]; intros k j H; cbn in H; [lia|].
  destruct k as [|k], j as [|j]; cbn; try reflexivity.
  apply IH. lia.
Qed.

Lemma upd_Forall (P : Z -> Prop) k x v :
  P x -> Forall P v -> Forall P (upd k x v).
Proof.
  intros Hx H. revert k. induction H as [|a v Ha Hv IH]; intros k.
  - destruct k; constructor.
  - destruct k; cbn; constructor; auto.
Qed.

Lemma vec_size_upd k x v : vec_size (upd k x v) = vec_size v.
Proof. unfold vec_size. now rewrite upd_length. Qed.

Lemma vec_get_in v i :
  0 <= i < vec_size v -> vec_get v i = Ok (nth (Z.to_nat i) v 0).
Proof.
  intros H. unfold vec_get, in_bounds.
  destruct (Z.leb_spec 0 i); [|lia]. destruct (Z.ltb_spec i (vec_size v)); [|lia].
  reflexivity.
Qed.

Lemma vec_get_out v i : ~ (0 <= i < vec_size v) -> vec_get v i = Undefined.
Proof.
  intros H. unfold vec_get, in_bounds.
  destruct (Z.leb_spec 0 i); [|reflexivity].
  destruct (Z.ltb_spec i (vec_size v)); [lia|reflexivity].
Qed.

Lemma vec_set_in v i x :
  0 <= i < vec_size v -> vec_set v i x = Ok (upd (Z.to_nat i) x v).
Proof.
  intros H. unfold vec_set, in_bounds.
  destruct (Z.leb_spec 0 i); [|lia]. destruct (Z.ltb_spec i (vec_size v)); [|lia].
  reflexivity.
Qed.

Lemma bit_upd k x v i :
  0 <= k < vec_size v -> 0 <= i ->
  bit (upd (Z.to_nat k) x v) i =
  if i / 8 =? k then Z.testbit x (i mod 8) else bit v i.
Proof.
  intros Hk Hi. unfold bit. unfold vec_size in Hk.
  rewrite upd_nth by lia.
  assert (0 <= i / 8) by (apply Z.div_pos; lia).
  destruct (Z.eqb_spec (i / 8) k) as [E|E].
  - rewrite E, Nat.eqb_refl. reflexivity.
  - destruct (Nat.eqb_spec (Z.to_nat (i / 8)) (Z.to_nat k)); [lia|reflexivity].
Qed.

Lemma bit_out v i : 8 * vec_size v <= i -> bit v i = false.
Proof.
  intros H. unfold bit, vec_size in *. rewrite nth_overflow; [apply Z.bits_0|].
  assert (Z.of_nat (List.length v) <= i / 8) by (apply Z.div_le_lower_bound; lia).
  lia.
Qed.

Lemma bit_at j m v :
  0 <= j -> 0 <= m < 8 ->
  bit v (8 * j + m) = Z.testbit (nth (Z.to_nat j) v 0) m.
Proof.
  intros Hj Hm. unfold bit.
  replace ((8 * j + m) / 8) with j
    by (apply Z.div_unique with (r := m); lia).
  replace ((8 * j + m) mod 8) with m
    by (apply Z.mod_unique with (q := j); lia).
  reflexivity.
Qed.

(** Two byte vectors of one length with the same bits are equal. *)
Lemma vec_ext v w :
  List.length v = List.length w -> Forall is_byte v -> Forall is_byte w ->
  (forall i, 0 <= i < 8 * vec_size v -> bit v i = bit w i) -> v = w.
Proof.
  intros Hl Hv Hw H. apply (nth_ext _ _ 0 0 Hl). intros j Hj.
  rewrite Forall_forall in Hv, Hw.
  apply byte_ext.
  - apply Hv. now apply nth_In.
  - apply Hw. apply nth_In. lia.
  - intros m Hm. specialize (H (8 * Z.of_nat j + m)).
    rewrite !bit_at in H by lia. rewrite Nat2Z.id in H. apply H.
    unfold vec_size. lia.
Qed.
(** ** The population count *)

Lemma byte_forall (P : Z -> bool) :
  forallb P (range 256) = true -> forall b, is_byte b -> P b = true.
Proof.
  intros H b Hb. rewrite forallb_forall in H. apply H. now apply In_range.
Qed.

Lemma count_byte_acc fuel b size :
  0 <= size -> size + Z.of_nat fuel < 2 ^ 64 ->
  binary_set.count_byte fuel b size =
  obind (binary_set.count_byte fuel b 0) (fun k => Ok (size + k)).
Proof.
  revert b size. induction fuel as [|fuel IH]; intros b size H0 H.
  - cbn. destruct (b =? 0); cbn; [now rewrite Z.add_0_r|reflexivity].
  - cbn [binary_set.count_byte]. destruct (b =? 0); cbn [obind].
    + now rewrite Z.add_0_r.
    + assert (E : usize (size + 1) = size + 1)
        by (unfold usize; apply Z.mod_small; lia).
      rewrite E. rewrite (IH _ (size + 1)) by lia.
      change (usize (0 + 1)) with 1. rewrite (IH _ 1) by lia.
      destruct (binary_set.count_byte fuel _ 0); cbn [obind]; try reflexivity.
      apply f_equal. lia.
Qed.

Lemma count_byte_ones b :
  is_byte b -> binary_set.count_byte 8 b 0 = Ok (cnt (Z.testbit b) 8).
Proof.
  intros Hb.
  pose proof (byte_forall
    (fun b => match binary_set.count_byte 8 b 0 with
              | Ok k => k =? cnt (Z.testbit b) 8
              | _ => false
              end) ltac:(vm_compute; reflexivity) b Hb) as H.
  cbv beta in H. destruct (binary_set.count_byte 8 b 0); try discriminate.
  f_equal. now apply Z.eqb_eq.
Qed.

Lemma popcount_nil : popcount [] = 0.
Proof. reflexivity. Qed.

Lemma popcount_cons b rest :
  popcount (b :: rest) = cnt (Z.testbit b) 8 + popcount rest.
Proof.
  unfold popcount.
  replace (8 * vec_size (b :: rest)) with (8 + 8 * vec_size rest)
    by (unfold vec_size; cbn [List.length]; lia).
  rewrite cnt_shift by (unfold vec_size; lia).
  rewrite (cnt_ext (bit (b :: rest)) (Z.testbit b) 8).
  2: { intros i Hi. unfold bit. now rewrite Z.div_small, Z.mod_small by lia. }
  rewrite (cnt_ext (fun i => bit (b :: rest) (8 + i)) (bit rest)
             (8 * vec_size rest)); [reflexivity|].
  intros i Hi. unfold bit.
  replace ((8 + i) / 8) with (1 + i / 8)
    by (rewrite <- (Z.div_add_l 1 8 i) by lia; f_equal; lia).
  replace ((8 + i) mod 8) with (i mod 8)
    by (rewrite <- (Z.mod_add i 1 8) by lia; f_equal; lia).
  assert (0 <= i / 8) by (apply Z.div_pos; lia).
  replace (Z.to_nat (1 + i / 8)) with (S (Z.to_nat (i / 8))) by lia.
  reflexivity.
Qed.

Lemma popcount_bounds v : 0 <= popcount v <= 8 * vec_size v.
Proof. unfold popcount. apply cnt_bounds. unfold vec_size. lia. Qed.

Lemma count_bytes_popcount v size :
  Forall is_byte v -> 0 <= size -> size + 8 * vec_size v < 2 ^ 64 ->
  binary_set.count_bytes v size = Ok (size + popcount v).
Proof.
  intros H. revert size. induction H as [|b rest Hb _ IH]; intros size H0 Hs.
  - cbn [binary_set.count_bytes]. now rewrite popcount_nil, Z.add_0_r.
  - cbn [binary_set.count_bytes].
    assert (Hn : vec_size (b :: rest) = 1 + vec_size rest)
      by (unfold vec_size; cbn [List.length]; lia).
    assert (0 <= vec_size rest) by (unfold vec_size; lia).
    rewrite count_byte_acc by (cbn; lia).
    rewrite (count_byte_ones b Hb). cbn [obind].
    pose proof (cnt_bounds (Z.testbit b) 8 ltac:(lia)).
    rewrite IH by lia. rewrite popcount_cons. f_equal. lia.
Qed.

Lemma recalculate_size_popcount s :
  Forall is_byte (binary_set.set_ s) ->
  8 * vec_size (binary_set.set_ s) < 2 ^ 64 ->
  binary_set.recalculate_size s =
  (Ok tt, binary_set.with_size (popcount (binary_set.set_ s)) s).
Proof.
  intros Hb Hl. unfold binary_set.recalculate_size, try_modify.
  rewrite count_bytes_popcount by (assumption || lia). reflexivity.
Qed.

(** ** Membership *)

Lemma contains_bit s i :
  0 <= i < binary_set.capacity_ s -> i < 8 * vec_size (binary_set.set_ s) ->
  binary_set.contains i s = Ok (bit (binary_set.set_ s) i).
Proof.
  intros Hi Hl. unfold binary_set.contains, binary_set.validate_element.
  destruct (Z.eqb_spec (binary_set.capacity_ s) 0); [lia|].
  destruct (Z.leb_spec (binary_set.capacity_ s) i); [lia|]. cbn [obind].
  assert (0 <= i / 8 < vec_size (binary_set.set_ s)).
  { split; [apply Z.div_pos; lia|apply Z.div_lt_upper_bound; lia]. }
  rewrite vec_get_in by assumption. cbn [obind]. f_equal.
  pose proof (Z.mod_pos_bound i 8 ltac:(lia)).
  rewrite bit_mask by assumption. now rewrite land_pow2_zero by lia.
Qed.

Lemma contains_unbacked s i :
  0 <= i < binary_set.capacity_ s -> 8 * vec_size (binary_set.set_ s) <= i ->
  binary_set.contains i s = Undefined.
Proof.
  intros Hi Hl. unfold binary_set.contains, binary_set.validate_element.
  destruct (Z.eqb_spec (binary_set.capacity_ s) 0); [lia|].
  destruct (Z.leb_spec (binary_set.capacity_ s) i); [lia|]. cbn [obind].
  rewrite vec_get_out; [reflexivity|].
  assert (vec_size (binary_set.set_ s) <= i / 8)
    by (apply Z.div_le_lower_bound; lia).
  lia.
Qed.

Lemma member_bit s i :
  0 <= i < binary_set.capacity_ s ->
  member s i = bit (binary_set.set_ s) i.
Proof.
  intros Hi. unfold member.
  destruct (Z.lt_ge_cases i (8 * vec_size (binary_set.set_ s))) as [Hl|Hl].
  - rewrite contains_bit by assumption. now destruct (bit _ i).
  - rewrite contains_unbacked by assumption. now rewrite bit_out.
Qed.

(** Under the representation invariant the cached size is the number of
    elements that [contains] reports. *)
Lemma inv_size_count s : inv s -> binary_set.size_ s = count_contains s.
Proof.
  intros [Hc Hl Hb Hp Hs]. rewrite Hs. unfold count_contains, popcount.
  unfold binary_set.capacity.
  rewrite (cnt_ext (member s) (bit (binary_set.set_ s)))
    by (intros i Hi; now apply member_bit).
  set (n := 8 * vec_size (binary_set.set_ s)).
  assert (0 <= n) by (unfold n, vec_size; lia).
  destruct (Z.le_gt_cases (binary_set.capacity_ s) n) as [Hle|Hgt].
  - apply cnt_cut; [lia|]. intros i Hi. apply Hp. fold n. lia.
  - symmetry. apply cnt_cut; [lia|]. intros i Hi. apply bit_out. fold n. lia.
Qed.

(** ** The representation invariant *)

Lemma u32_bounds x : 0 <= u32 x < 4294967296.
Proof. unfold u32. change (2 ^ 32) with 4294967296. apply Z.mod_pos_bound. lia. Qed.

Lemma inv_length_bound s : inv s -> 8 * vec_size (binary_set.set_ s) <= 4294967296.
Proof.
  intros H. rewrite (inv_length s H).
  pose proof (u32_bounds (binary_set.capacity_ s + 7)) as B.
  pose proof (Z.mul_div_le (u32 (binary_set.capacity_ s + 7)) 8 ltac:(lia)). lia.
Qed.

Lemma inv_size_bound s : inv s -> 0 <= binary_set.size_ s <= 4294967296.
Proof.
  intros H. rewrite (inv_size s H).
  pose proof (popcount_bounds (binary_set.set_ s)).
  pose proof (inv_length_bound s H). lia.
Qed.

(** A set whose cached size is the population count of a well-padded store
    satisfies the invariant. *)
Lemma inv_intro c v :
  0 <= c < 2 ^ 32 -> vec_size v = u32 (c + 7) / 8 -> Forall is_byte v ->
  (forall i, c <= i < 8 * vec_size v -> bit v i = false) ->
  inv (binary_set.mk c (popcount v) v).
Proof. intros. now constructor. Qed.

Lemma usize_small x : 0 <= x < 18446744073709551616 -> usize x = x.
Proof. intros H. unfold usize. now apply Z.mod_small. Qed.

Lemma upd_same k v : upd k (nth k v 0) v = v.
Proof.
  revert k. induction v as [|a v IH]; intros [|k]; cbn; try reflexivity.
  now rewrite IH.
Qed.

Lemma upd_upd k x y v : upd k x (upd k y v) = upd k x v.
Proof.
  revert k. induction v as [|a v IH]; intros [|k]; cbn; try reflexivity.
  now rewrite IH.
Qed.

Lemma div8_eq i e : 0 <= i -> 0 <= e -> i / 8 = e / 8 -> i mod 8 = e mod 8 -> i = e.
Proof.
  intros Hi He Hd Hm.
  rewrite (Z.div_mod i 8), (Z.div_mod e 8) by lia. now rewrite Hd, Hm.
Qed.

(** *** add and remove *)

Lemma byte_index e v :
  0 <= e < 8 * vec_size v -> 0 <= e / 8 < vec_size v.
Proof.
  intros H. split; [apply Z.div_pos; lia|apply Z.div_lt_upper_bound; lia].
Qed.

Lemma bit_set_bit e v i :
  0 <= e < 8 * vec_size v -> 0 <= i ->
  bit (set_bit e v) i = if i =? e then true else bit v i.
Proof.
  intros He Hi. unfold set_bit. rewrite bit_upd by (auto using byte_index).
  pose proof (Z.mod_pos_bound i 8 ltac:(lia)).
  pose proof (Z.mod_pos_bound e 8 ltac:(lia)).
  destruct (Z.eqb_spec (i / 8) (e / 8)) as [Ed|Ed].
  - rewrite testbit_set by assumption. fold (bit v e). unfold bit at 1.
    rewrite <- Ed. fold (bit v i).
    destruct (Z.eqb_spec (i mod 8) (e mod 8)) as [Em|Em].
    + rewrite (div8_eq i e) by lia. rewrite Z.eqb_refl. apply orb_true_r.
    + destruct (Z.eqb_spec i e) as [->|]; [contradiction|apply orb_false_r].
  - destruct (Z.eqb_spec i e) as [->|]; [contradiction|reflexivity].
Qed.

Lemma bit_clear_bit e v i :
  0 <= e < 8 * vec_size v -> 0 <= i ->
  bit (clear_bit e v) i = if i =? e then false else bit v i.
Proof.
  intros He Hi. unfold clear_bit. rewrite bit_upd by (auto using byte_index).
  pose proof (Z.mod_pos_bound i 8 ltac:(lia)).
  pose proof (Z.mod_pos_bound e 8 ltac:(lia)).
  destruct (Z.eqb_spec (i / 8) (e / 8)) as [Ed|Ed].
  - rewrite testbit_clear by assumption. unfold bit at 1.
    rewrite <- Ed. fold (bit v i).
    destruct (Z.eqb_spec (i mod 8) (e mod 8)) as [Em|Em].
    + rewrite (div8_eq i e) by lia. rewrite Z.eqb_refl. apply andb_false_r.
    + destruct (Z.eqb_spec i e) as [->|]; [contradiction|apply andb_true_r].
  - destruct (Z.eqb_spec i e) as [->|]; [contradiction|reflexivity].
Qed.

Lemma update_byte_in i f s :
  0 <= i < vec_size (binary_set.set_ s) ->
  binary_set.update_byte i f s =
  (Ok tt, binary_set.with_set
            (upd (Z.to_nat i) (f (nth (Z.to_nat i) (binary_set.set_ s) 0))
                 (binary_set.set_ s)) s).
Proof.
  intros H. unfold binary_set.update_byte, try_modify.
  rewrite vec_get_in by assumption. cbn [obind].
  now rewrite vec_set_in by assumption.
Qed.

(** [add] and [remove] written out. *)
Lemma add_eq e s :
  binary_set.add e s =
  if binary_set.capacity_ s =? 0 then (Throw binary_set.domain_empty, s)
  else if binary_set.capacity_ s <=? e
       then (Throw binary_set.element_out_of_range, s)
  else match vec_get (binary_set.set_ s) (e / 8) with
       | Ok b =>
           if negb (Z.land b (u32 (Z.shiftl 1 (e mod 8))) =? 0)
           then (Ok false, s)
           else (Ok true,
                 binary_set.mk (binary_set.capacity_ s)
                   (usize (binary_set.size_ s + 1))
                   (upd (Z.to_nat (e / 8))
                        (u8 (Z.lor b (u32 (Z.shiftl 1 (e mod 8)))))
                        (binary_set.set_ s)))
       | Throw x => (Throw x, s)
       | Undefined => (Undefined, s)
       | OutOfFuel => (OutOfFuel, s)
       end.
Proof.
  unfold binary_set.add, bind, query, binary_set.contains,
    binary_set.validate_element, binary_set.update_byte, try_modify, modify, ret.
  cbv beta.
  destruct (binary_set.capacity_ s =? 0); [reflexivity|].
  destruct (binary_set.capacity_ s <=? e); [reflexivity|]. cbn [obind].
  unfold vec_get, vec_set.
  destruct (in_bounds (binary_set.set_ s) (e / 8)) eqn:IB; [|reflexivity].
  cbn [obind].
  destruct (Z.land _ _ =? 0); cbn [negb]; cbv iota beta; rewrite ?IB; reflexivity.
Qed.

Lemma remove_eq e s :
  binary_set.remove e s =
  if binary_set.capacity_ s =? 0 then (Throw binary_set.domain_empty, s)
  else if binary_set.capacity_ s <=? e
       then (Throw binary_set.element_out_of_range, s)
  else match vec_get (binary_set.set_ s) (e / 8) with
       | Ok b =>
           if negb (Z.land b (u32 (Z.shiftl 1 (e mod 8))) =? 0)
           then (Ok true,
                 binary_set.mk (binary_set.capacity_ s)
                   (usize (binary_set.size_ s - 1))
                   (upd (Z.to_nat (e / 8))
                        (u8 (Z.land b (u32 (Z.lnot (u32 (Z.shiftl 1 (e mod 8)))))))
                        (binary_set.set_ s)))
           else (Ok false, s)
       | Throw x => (Throw x, s)
       | Undefined => (Undefined, s)
       | OutOfFuel => (OutOfFuel, s)
       end.
Proof.
  unfold binary_set.remove, bind, query, binary_set.contains,
    binary_set.validate_element, binary_set.update_byte, try_modify, modify, ret.
  cbv beta.
  destruct (binary_set.capacity_ s =? 0); [reflexivity|].
  destruct (binary_set.capacity_ s <=? e); [reflexivity|]. cbn [obind].
  unfold vec_get, vec_set.
  destruct (in_bounds (binary_set.set_ s) (e / 8)) eqn:IB; [|reflexivity].
  cbn [obind].
  destruct (Z.land _ _ =? 0); cbn [negb]; cbv iota beta; rewrite ?IB; reflexivity.
Qed.

Lemma test_mask b e :
  0 <= e ->
  negb (Z.land b (u32 (Z.shiftl 1 (e mod 8))) =? 0) = Z.testbit b (e mod 8).
Proof.
  intros He. pose proof (Z.mod_pos_bound e 8 ltac:(lia)).
  rewrite bit_mask by assumption. apply land_pow2_zero. lia.
Qed.

(** Every way [add] can end. *)
Lemma add_cases e s :
  0 <= e ->
  (binary_set.capacity_ s = 0 /\
   binary_set.add e s = (Throw binary_set.domain_empty, s)) \/
  (binary_set.capacity_ s <> 0 /\ binary_set.capacity_ s <= e /\
   binary_set.add e s = (Throw binary_set.element_out_of_range, s)) \/
  (e < binary_set.capacity_ s /\ 8 * vec_size (binary_set.set_ s) <= e /\
   binary_set.add e s = (Undefined, s)) \/
  (e < binary_set.capacity_ s /\ e < 8 * vec_size (binary_set.set_ s) /\
   bit (binary_set.set_ s) e = true /\
   binary_set.add e s = (Ok false, s)) \/
  (e < binary_set.capacity_ s /\ e < 8 * vec_size (binary_set.set_ s) /\
   bit (binary_set.set_ s) e = false /\
   binary_set.add e s =
     (Ok true, binary_set.mk (binary_set.capacity_ s)
                             (usize (binary_set.size_ s + 1))
                             (set_bit e (binary_set.set_ s)))).
Proof.
  intros He. rewrite add_eq.
  destruct (Z.eqb_spec (binary_set.capacity_ s) 0) as [E0|E0]; [now left|].
  destruct (Z.leb_spec (binary_set.capacity_ s) e) as [Hle|Hlt]; [right; now left|].
  right. right.
  destruct (Z.lt_ge_cases e (8 * vec_size (binary_set.set_ s))) as [Hb|Hb].
  - right. rewrite vec_get_in by (apply byte_index; lia).
    rewrite test_mask by assumption. fold (bit (binary_set.set_ s) e).
    destruct (bit (binary_set.set_ s) e); [left|right]; auto.
  - left. rewrite vec_get_out; [auto|].
    assert (vec_size (binary_set.set_ s) <= e / 8)
      by (apply Z.div_le_lower_bound; lia).
    lia.
Qed.

(** Every way [remove] can end. *)
Lemma remove_cases e s :
  0 <= e ->
  (binary_set.capacity_ s = 0 /\
   binary_set.remove e s = (Throw binary_set.domain_empty, s)) \/
  (binary_set.capacity_ s <> 0 /\ binary_set.capacity_ s <= e /\
   binary_set.remove e s = (Throw binary_set.element_out_of_range, s)) \/
  (e < binary_set.capacity_ s /\ 8 * vec_size (binary_set.set_ s) <= e /\
   binary_set.remove e s = (Undefined, s)) \/
  (e < binary_set.capacity_ s /\ e < 8 * vec_size (binary_set.set_ s) /\
   bit (binary_set.set_ s) e = false /\
   binary_set.remove e s = (Ok false, s)) \/
  (e < binary_set.capacity_ s /\ e < 8 * vec_size (binary_set.set_ s) /\
   bit (binary_set.set_ s) e = true /\
   binary_set.remove e s =
     (Ok true, binary_set.mk (binary_set.capacity_ s)
                             (usize (binary_set.size_ s - 1))
                             (clear_bit e (binary_set.set_ s)))).
Proof.
  intros He. rewrite remove_eq.
  destruct (Z.eqb_spec (binary_set.capacity_ s) 0) as [E0|E0]; [now left|].
  destruct (Z.leb_spec (binary_set.capacity_ s) e) as [Hle|Hlt]; [right; now left|].
  right. right.
  destruct (Z.lt_ge_cases e (8 * vec_size (binary_set.set_ s))) as [Hb|Hb].
  - right. rewrite vec_get_in by (apply byte_index; lia).
    rewrite test_mask by assumption. fold (bit (binary_set.set_ s) e).
    destruct (bit (binary_set.set_ s) e); [right|left]; auto.
  - left. rewrite vec_get_out; [auto|].
    assert (vec_size (binary_set.set_ s) <= e / 8)
      by (apply Z.div_le_lower_bound; lia).
    lia.
Qed.

Lemma set_bit_length e v : vec_size (set_bit e v) = vec_size v.
Proof. apply vec_size_upd. Qed.

Lemma clear_bit_length e v : vec_size (clear_bit e v) = vec_size v.
Proof. apply vec_size_upd. Qed.

Lemma inv_set_bit s e :
  inv s -> 0 <= e < binary_set.capacity_ s ->
  e < 8 * vec_size (binary_set.set_ s) -> bit (binary_set.set_ s) e = false ->
  usize (binary_set.size_ s + 1) = binary_set.size_ s + 1 /\
  inv (binary_set.mk (binary_set.capacity_ s) (usize (binary_set.size_ s + 1))
                     (set_bit e (binary_set.set_ s))).
Proof.
  intros H He Hb B.
  assert (P : popcount (set_bit e (binary_set.set_ s)) =
              popcount (binary_set.set_ s) + 1).
  { unfold popcount. rewrite set_bit_length.
    apply (cnt_set _ _ e); [lia|exact B| |].
    - rewrite bit_set_bit by lia. now rewrite Z.eqb_refl.
    - intros i Hi Hne. rewrite bit_set_bit by lia.
      destruct (Z.eqb_spec i e); [contradiction|reflexivity]. }
  pose proof (inv_size_bound s H).
  assert (U : usize (binary_set.size_ s + 1) = binary_set.size_ s + 1)
    by (apply usize_small; lia).
  split; [exact U|]. rewrite U, (inv_size s H), <- P.
  destruct H as [Hc Hl Hy Hp Hs]. apply inv_intro.
  - exact Hc.
  - now rewrite set_bit_length.
  - apply upd_Forall; [apply u8_byte|exact Hy].
  - intros i Hi. rewrite set_bit_length in Hi. rewrite bit_set_bit by lia.
    destruct (Z.eqb_spec i e); [lia|]. now apply Hp.
Qed.

Lemma inv_clear_bit s e :
  inv s -> 0 <= e < binary_set.capacity_ s ->
  e < 8 * vec_size (binary_set.set_ s) -> bit (binary_set.set_ s) e = true ->
  usize (binary_set.size_ s - 1) = binary_set.size_ s - 1 /\
  inv (binary_set.mk (binary_set.capacity_ s) (usize (binary_set.size_ s - 1))
                     (clear_bit e (binary_set.set_ s))).
Proof.
  intros H He Hb B.
  assert (P : popcount (clear_bit e (binary_set.set_ s)) =
              popcount (binary_set.set_ s) - 1).
  { unfold popcount. rewrite clear_bit_length.
    apply (cnt_clear _ _ e); [lia|exact B| |].
    - rewrite bit_clear_bit by lia. now rewrite Z.eqb_refl.
    - intros i Hi Hne. rewrite bit_clear_bit by lia.
      destruct (Z.eqb_spec i e); [contradiction|reflexivity]. }
  pose proof (inv_size_bound s H).
  pose proof (popcount_bounds (clear_bit e (binary_set.set_ s))).
  assert (U : usize (binary_set.size_ s - 1) = binary_set.size_ s - 1).
  { apply usize_small. rewrite (inv_size s H) in *. lia. }
  split; [exact U|]. rewrite U, (inv_size s H), <- P.
  destruct H as [Hc Hl Hy Hp Hs]. apply inv_intro.
  - exact Hc.
  - now rewrite clear_bit_length.
  - apply upd_Forall; [apply u8_byte|exact Hy].
  - intros i Hi. rewrite clear_bit_length in Hi. rewrite bit_clear_bit by lia.
    destruct (Z.eqb_spec i e); [lia|]. now apply Hp.
Qed.
(** *** Construction, clear and fill *)

Lemma nbytes_small c :
  0 <= c -> c + 7 < 4294967296 -> u32 (c + 7) / 8 = (c + 7) / 8.
Proof.
  intros H0 H. unfold u32. change (2 ^ 32) with 4294967296.
  rewrite Z.mod_small by lia. reflexivity.
Qed.

Lemma nbytes_wrap c :
  0 <= c < 4294967296 -> 4294967296 <= c + 7 ->
  u32 (c + 7) / 8 = 0 /\ c mod 8 <> 0.
Proof.
  intros H0 H. unfold u32. change (2 ^ 32) with 4294967296. split.
  - replace ((c + 7) mod 4294967296) with (c + 7 - 4294967296)
      by (apply Z.mod_unique with (q := 1); lia).
    apply Z.div_small. lia.
  - pose proof (Z.div_mod c 8 ltac:(lia)). pose proof (Z.mod_pos_bound c 8 ltac:(lia)).
    lia.
Qed.

(** A store that is not empty, or whose capacity is a multiple of 8, covers
    the capacity. *)
Lemma length_covers c n :
  0 <= c < 4294967296 -> n = u32 (c + 7) / 8 -> 0 < n \/ c mod 8 = 0 ->
  c + 7 < 4294967296 /\ c <= 8 * n < c + 8.
Proof.
  intros Hc Hn Hne.
  destruct (Z.lt_ge_cases (c + 7) 4294967296) as [Hs|Hw].
  - split; [exact Hs|]. rewrite nbytes_small in Hn by lia. subst n.
    pose proof (Z.div_mod (c + 7) 8 ltac:(lia)).
    pose proof (Z.mod_pos_bound (c + 7) 8 ltac:(lia)). lia.
  - destruct (nbytes_wrap c Hc Hw) as [E N]. lia.
Qed.

Lemma bit_repeat x k i :
  0 <= i < 8 * Z.of_nat k -> bit (repeat x k) i = Z.testbit x (i mod 8).
Proof.
  intros H. unfold bit. rewrite nth_repeat_lt; [reflexivity|].
  assert (0 <= i / 8 < Z.of_nat k)
    by (split; [apply Z.div_pos; lia|apply Z.div_lt_upper_bound; lia]).
  lia.
Qed.

Lemma vec_size_repeat x k : vec_size (repeat x k) = Z.of_nat k.
Proof. unfold vec_size. now rewrite repeat_length. Qed.

Lemma Forall_repeat_byte x k : is_byte x -> Forall is_byte (repeat x k).
Proof. intros H. induction k; cbn; constructor; auto. Qed.

Lemma vec_size_nonneg v : 0 <= vec_size v.
Proof. unfold vec_size. lia. Qed.

Lemma mask_last_nil mask : binary_set.mask_last mask [] = Undefined.
Proof. reflexivity. Qed.

Lemma mask_last_eq mask v :
  0 < vec_size v < 4294967296 ->
  binary_set.mask_last mask v =
  Ok (upd (Z.to_nat (vec_size v - 1))
          (u8 (Z.land (nth (Z.to_nat (vec_size v - 1)) v 0) mask)) v).
Proof.
  intros H. unfold binary_set.mask_last.
  rewrite usize_small by lia. rewrite vec_get_in by lia. cbn [obind].
  now rewrite vec_set_in by lia.
Qed.

(** The bits of an all-ones store after the last byte has been masked. *)
Lemma bit_masked_ones c k i :
  0 < c -> c mod 8 <> 0 -> Z.of_nat k = (c + 7) / 8 -> 0 <= i < 8 * Z.of_nat k ->
  bit (upd (Z.to_nat (Z.of_nat k - 1))
           (u8 (Z.land binary_set.all_ones (binary_set.last_mask c)))
           (repeat binary_set.all_ones k)) i = (i <? c).
Proof.
  intros Hc Hm Hk Hi.
  pose proof (Z.div_mod (c + 7) 8 ltac:(lia)).
  pose proof (Z.mod_pos_bound (c + 7) 8 ltac:(lia)).
  pose proof (Z.div_mod c 8 ltac:(lia)).
  pose proof (Z.mod_pos_bound c 8 ltac:(lia)).
  pose proof (Z.div_mod i 8 ltac:(lia)).
  pose proof (Z.mod_pos_bound i 8 ltac:(lia)).
  assert (Hq : Z.of_nat k - 1 = c / 8) by lia.
  rewrite bit_upd by (rewrite ?vec_size_repeat; lia).
  destruct (Z.eqb_spec (i / 8) (Z.of_nat k - 1)) as [E|E].
  - rewrite testbit_u8, Z.land_spec, testbit_all_ones, testbit_last_mask by lia.
    cbn [andb]. destruct (Z.ltb_spec (i mod 8) (c mod 8)), (Z.ltb_spec i c); lia.
  - rewrite bit_repeat, testbit_all_ones by lia.
    destruct (Z.ltb_spec i c); [reflexivity|lia].
Qed.

Lemma inv_bits_below c v :
  0 <= c < 2 ^ 32 -> vec_size v = u32 (c + 7) / 8 -> Forall is_byte v ->
  c <= 8 * vec_size v ->
  (forall i, 0 <= i < 8 * vec_size v -> bit v i = (i <? c)) ->
  inv (binary_set.mk c c v).
Proof.
  intros Hc Hl Hb Hle Hbits.
  assert (P : popcount v = c).
  { unfold popcount. rewrite (cnt_ext _ (fun i => i <? c)) by exact Hbits.
    apply cnt_below. lia. }
  replace (binary_set.mk c c v) with (binary_set.mk c (popcount v) v)
    by (now rewrite P).
  apply inv_intro; try assumption.
  intros i Hi. rewrite Hbits by lia. apply Z.ltb_ge. lia.
Qed.

Lemma inv_zeros c k :
  0 <= c < 2 ^ 32 -> Z.of_nat k = u32 (c + 7) / 8 ->
  inv (binary_set.mk c 0 (repeat 0 k)).
Proof.
  intros Hc Hk.
  assert (P : popcount (repeat 0 k) = 0).
  { unfold popcount. apply cnt_zero. intros i Hi.
    rewrite vec_size_repeat in Hi. rewrite bit_repeat by lia. apply Z.bits_0. }
  replace (binary_set.mk c 0 (repeat 0 k))
    with (binary_set.mk c (popcount (repeat 0 k)) (repeat 0 k)) by (now rewrite P).
  apply inv_intro; try assumption.
  - now rewrite vec_size_repeat.
  - apply Forall_repeat_byte. unfold is_byte. lia.
  - intros i Hi. rewrite vec_size_repeat in Hi. rewrite bit_repeat by lia.
    apply Z.bits_0.
Qed.

(** An all-ones store of [k] bytes, masked as the constructor and [fill]
    mask it, holds exactly the elements below the capacity. *)
Lemma inv_filled c k :
  0 < c < 2 ^ 32 -> Z.of_nat k = u32 (c + 7) / 8 ->
  match (if negb (c mod 8 =? 0)
         then binary_set.mask_last (binary_set.last_mask c)
                                   (repeat binary_set.all_ones k)
         else Ok (repeat binary_set.all_ones k)) with
  | Ok v => inv (binary_set.mk c c v)
  | Undefined => True
  | _ => False
  end.
Proof.
  intros Hc Hk. change (2 ^ 32) with 4294967296 in Hc.
  pose proof (u32_bounds (c + 7)) as Hu.
  pose proof (Z.mul_div_le (u32 (c + 7)) 8 ltac:(lia)) as Hd.
  destruct (Z.eqb_spec (c mod 8) 0) as [E|E]; cbn [negb].
  - destruct (length_covers c (Z.of_nat k) ltac:(lia) Hk (or_intror E)) as [Hs Hcov].
    apply inv_bits_below; rewrite ?vec_size_repeat; try lia.
    + apply Forall_repeat_byte. now vm_compute.
    + intros i Hi. rewrite bit_repeat, testbit_all_ones by (try lia; apply Z.mod_pos_bound; lia).
      pose proof (Z.div_mod c 8 ltac:(lia)).
      destruct (Z.ltb_spec i c); [reflexivity|lia].
  - destruct k as [|k']; [now rewrite mask_last_nil|].
    destruct (length_covers c (Z.of_nat (S k')) ltac:(lia) Hk ltac:(left; lia)) as [Hs Hcov].
    rewrite mask_last_eq by (rewrite vec_size_repeat; lia).
    rewrite vec_size_repeat.
    rewrite nth_repeat_lt by lia.
    rewrite nbytes_small in Hk by lia.
    apply inv_bits_below; rewrite ?vec_size_upd, ?vec_size_repeat; try lia.
    + rewrite nbytes_small by lia. exact Hk.
    + apply upd_Forall; [apply u8_byte|]. apply Forall_repeat_byte. now vm_compute.
    + intros i Hi. now apply bit_masked_ones.
Qed.

Lemma make_inv c fill s :
  0 <= c < 2 ^ 32 -> binary_set.make c fill = Ok s ->
  inv s /\ binary_set.capacity_ s = c.
Proof.
  intros Hc. unfold binary_set.make.
  destruct (Z.eqb_spec c 0) as [E|E]; [discriminate|].
  assert (Hk : Z.of_nat (Z.to_nat (u32 (c + 7) / 8)) = u32 (c + 7) / 8).
  { pose proof (u32_bounds (c + 7)). rewrite Z2Nat.id; [reflexivity|].
    apply Z.div_pos; lia. }
  destruct fill; cbn [andb].
  - pose proof (inv_filled c _ ltac:(lia) Hk) as H.
    destruct (negb (c mod 8 =? 0)).
    + destruct (binary_set.mask_last _ _) as [v| | |]; try discriminate; try contradiction.
      cbn [obind]. intros [= <-]. now split.
    + intros [= <-]. now split.
  - intros [= <-]. split; [|reflexivity]. now apply inv_zeros.
Qed.

Lemma inv_default : inv binary_set.default.
Proof. apply (inv_zeros 0 0); [lia|reflexivity]. Qed.

Lemma inv_clear s : inv s -> inv (binary_set.clear s).
Proof.
  intros H. unfold binary_set.clear. rewrite map_const.
  apply inv_zeros; [exact (inv_capacity s H)|exact (inv_length s H)].
Qed.

Lemma fill_inv s s' : inv s -> binary_set.fill s = (Ok tt, s') -> inv s'.
Proof.
  intros H. unfold binary_set.fill, bind, modify, query, try_modify, ret.
  cbv beta. cbn [binary_set.with_set binary_set.capacity_ binary_set.set_
                 binary_set.size_ binary_set.with_size].
  rewrite map_const.
  pose proof (inv_length s H) as Hl. pose proof (inv_capacity s H) as Hc.
  destruct (Z.eqb_spec (binary_set.capacity_ s) 0) as [E|E].
  - rewrite andb_false_r. intros [= <-]. rewrite E in *.
    change (u32 (0 + 7) / 8) with 0 in Hl.
    replace (List.length (binary_set.set_ s)) with O by (unfold vec_size in Hl; lia).
    unfold binary_set.with_size, binary_set.with_set.
    cbn [binary_set.capacity_ binary_set.set_ binary_set.size_ repeat].
    rewrite E. exact inv_default.
  - rewrite andb_true_r.
    pose proof (inv_filled (binary_set.capacity_ s)
                  (List.length (binary_set.set_ s)) ltac:(lia) Hl) as F.
    destruct (negb (binary_set.capacity_ s mod 8 =? 0)).
    + destruct (binary_set.mask_last _ _) as [v| | |]; try discriminate; try contradiction.
      cbn [obind]. intros [= <-]. exact F.
    + intros [= <-]. exact F.
Qed.


(** *** The boolean operations *)

Lemma zip_with_length f v w :
  List.length v = List.length w -> List.length (zip_with f v w) = List.length v.
Proof.
  revert w. induction v as [|a v IH]; intros [|b w]; cbn; try discriminate; auto.
Qed.

Lemma zip_with_nth f v w j :
  List.length v = List.length w -> (j < List.length v)%nat ->
  nth j (zip_with f v w) 0 = f (nth j v 0) (nth j w 0).
Proof.
  revert w j. induction v as [|a v IH]; intros [|b w] j; cbn; try discriminate; try lia.
  intros [= Hl] Hj. destruct j as [|j]; [reflexivity|]. apply IH; [exact Hl|lia].
Qed.

Lemma zip_with_Forall f v w :
  (forall a b, is_byte (f a b)) -> Forall is_byte (zip_with f v w).
Proof.
  intros Hf. revert w. induction v as [|a v IH]; intros [|b w]; cbn; constructor; auto.
Qed.

Lemma bit_zip_with f fb v w i :
  bitwise f fb -> List.length v = List.length w -> 0 <= i < 8 * vec_size v ->
  bit (zip_with f v w) i = fb (bit v i) (bit w i).
Proof.
  intros (_ & Hb & _) Hl Hi. unfold bit.
  assert (0 <= i / 8 < vec_size v)
    by (split; [apply Z.div_pos; lia|apply Z.div_lt_upper_bound; lia]).
  rewrite zip_with_nth by (try assumption; unfold vec_size in *; lia).
  apply Hb. apply Z.mod_pos_bound. lia.
Qed.

Lemma bitwise_and : bitwise binary_set.byte_and andb.
Proof.
  split; [intros; apply u8_byte|].
  split; [intros; now apply testbit_byte_and|reflexivity].
Qed.

Lemma bitwise_or : bitwise binary_set.byte_or orb.
Proof.
  split; [intros; apply u8_byte|].
  split; [intros; now apply testbit_byte_or|reflexivity].
Qed.

Lemma bitwise_diff : bitwise binary_set.byte_diff (fun a b => a && negb b).
Proof.
  split; [intros; apply u8_byte|].
  split; [intros; now apply testbit_byte_diff|reflexivity].
Qed.

Lemma bitwise_ops f :
  In f [binary_set.byte_and; binary_set.byte_or; binary_set.byte_diff] ->
  exists fb, bitwise f fb.
Proof.
  intros [<-|[<-|[<-|[]]]]; eexists;
    [apply bitwise_and|apply bitwise_or|apply bitwise_diff].
Qed.

Lemma combine_loop_from f other m :
  forall k done todo wdone wtodo s,
    List.length done = k -> List.length wdone = k ->
    List.length todo = m -> List.length wtodo = m ->
    binary_set.set_ s = done ++ todo ->
    binary_set.set_ other = wdone ++ wtodo ->
    binary_set.combine_loop f other (map Z.of_nat (seq k m)) s =
    (Ok tt, binary_set.with_set (done ++ zip_with f todo wtodo) s).
Proof.
  induction m as [|m IH]; intros k done todo wdone wtodo s Hd Hwd Ht Hwt Hs Ho.
  - destruct todo; [|discriminate]. cbn. rewrite <- Hs. now destruct s.
  - destruct todo as [|a todo]; [discriminate|].
    destruct wtodo as [|b wtodo]; [discriminate|].
    subst k.
    assert (G1 : nth (List.length done) (done ++ a :: todo) 0 = a)
      by apply nth_middle.
    assert (G2 : nth (List.length done) (wdone ++ b :: wtodo) 0 = b)
      by (rewrite <- Hwd; apply nth_middle).
    cbn [seq map binary_set.combine_loop]. unfold bind, try_modify.
    rewrite Hs, Ho.
    rewrite !vec_get_in
      by (unfold vec_size; rewrite length_app; cbn [List.length]; lia).
    cbn [obind]. rewrite vec_set_in
      by (unfold vec_size; rewrite length_app; cbn [List.length]; lia).
    rewrite Nat2Z.id, G1, G2, upd_app_cons. cbn [obind].
    rewrite (IH (S (List.length done)) (done ++ [f a b]) todo (wdone ++ [b]) wtodo).
    + cbn [zip_with]. unfold binary_set.with_set. cbn. now rewrite <- app_assoc.
    + rewrite length_app. cbn. lia.
    + rewrite length_app. cbn. lia.
    + now injection Ht.
    + now injection Hwt.
    + cbn. now rewrite <- app_assoc.
    + now rewrite <- app_assoc.
Qed.

Lemma range_vec_size v : range (vec_size v) = map Z.of_nat (seq 0 (List.length v)).
Proof. unfold range, vec_size. now rewrite Nat2Z.id. Qed.

Lemma combine_loop_all f other s :
  List.length (binary_set.set_ s) = List.length (binary_set.set_ other) ->
  binary_set.combine_loop f other (range (vec_size (binary_set.set_ s))) s =
  (Ok tt, binary_set.with_set
            (zip_with f (binary_set.set_ s) (binary_set.set_ other)) s).
Proof.
  intros Hl. rewrite range_vec_size.
  now rewrite (combine_loop_from f other _ 0%nat [] (binary_set.set_ s)
                 [] (binary_set.set_ other) s).
Qed.

Lemma inv_same_length s other :
  inv s -> inv other -> binary_set.capacity_ s = binary_set.capacity_ other ->
  List.length (binary_set.set_ s) = List.length (binary_set.set_ other).
Proof.
  intros Hs Ho Hc. pose proof (inv_length s Hs) as A.
  pose proof (inv_length other Ho) as B. rewrite Hc in A. unfold vec_size in *. lia.
Qed.

Lemma assign_op_eq f other s :
  inv s -> inv other -> (forall a b, is_byte (f a b)) ->
  binary_set.assign_op f other s =
  if binary_set.capacity_ s =? binary_set.capacity_ other
  then (Ok tt, combined f other s)
  else (Throw binary_set.capacity_mismatch, s).
Proof.
  intros Hs Ho Hf. unfold binary_set.assign_op, bind at 1, query at 1.
  unfold binary_set.validate_same_capacity.
  destruct (Z.eqb_spec (binary_set.capacity_ s) (binary_set.capacity_ other)) as [E|E];
    cbn [negb]; [|reflexivity].
  unfold bind at 1, query. unfold bind.
  pose proof (inv_same_length s other Hs Ho E) as Hl.
  rewrite (combine_loop_all f other s Hl).
  rewrite recalculate_size_popcount.
  - reflexivity.
  - cbn. now apply zip_with_Forall.
  - cbn [binary_set.set_ binary_set.with_set].
    change (2 ^ 64) with 18446744073709551616.
    unfold vec_size. rewrite zip_with_length by assumption.
    pose proof (inv_length_bound s Hs). unfold vec_size in *. lia.
Qed.

Lemma copy_op_eq f other s :
  inv s -> inv other -> (forall a b, is_byte (f a b)) ->
  binary_set.copy_op f other s =
  if binary_set.capacity_ s =? binary_set.capacity_ other
  then Ok (combined f other s)
  else Throw binary_set.capacity_mismatch.
Proof.
  intros Hs Ho Hf. unfold binary_set.copy_op.
  unfold binary_set.validate_same_capacity.
  destruct (Z.eqb_spec (binary_set.capacity_ s) (binary_set.capacity_ other)) as [E|E];
    cbn [negb obind]; [|reflexivity].
  unfold bind.
  pose proof (inv_same_length s other Hs Ho E) as Hl.
  rewrite (combine_loop_all f other s Hl).
  rewrite recalculate_size_popcount.
  - reflexivity.
  - cbn. now apply zip_with_Forall.
  - cbn [binary_set.set_ binary_set.with_set].
    change (2 ^ 64) with 18446744073709551616.
    unfold vec_size. rewrite zip_with_length by assumption.
    pose proof (inv_length_bound s Hs). unfold vec_size in *. lia.
Qed.

Lemma inv_combined f fb other s :
  bitwise f fb -> inv s -> inv other ->
  binary_set.capacity_ s = binary_set.capacity_ other ->
  inv (combined f other s).
Proof.
  intros Hf Hs Ho E. pose proof (inv_same_length s other Hs Ho E) as Hl.
  unfold combined. apply inv_intro.
  - exact (inv_capacity s Hs).
  - unfold vec_size. rewrite zip_with_length by assumption. exact (inv_length s Hs).
  - apply zip_with_Forall. now destruct Hf.
  - intros i Hi. unfold vec_size in Hi. rewrite zip_with_length in Hi by assumption.
    pose proof (inv_capacity s Hs).
    rewrite (bit_zip_with f fb) by (try assumption; unfold vec_size; lia).
    rewrite (inv_pad s Hs) by (unfold vec_size; lia).
    rewrite (inv_pad other Ho) by (unfold vec_size; lia).
    now destruct Hf as (_ & _ & ->).
Qed.
(** *** The complement *)

Lemma not_loop_from s m :
  forall k done todo wdone wtodo result,
    List.length done = k -> List.length wdone = k ->
    List.length todo = m -> List.length wtodo = m ->
    binary_set.set_ result = done ++ todo ->
    binary_set.set_ s = wdone ++ wtodo ->
    binary_set.not_loop s (map Z.of_nat (seq k m)) result =
    (Ok tt, binary_set.with_set
              (done ++ map (fun a => u8 (Z.lnot a)) wtodo) result).
Proof.
  induction m as [|m IH]; intros k done todo wdone wtodo result Hd Hwd Ht Hwt Hr Hs.
  - destruct todo; [|discriminate]. destruct wtodo; [|discriminate].
    cbn. rewrite <- Hr. now destruct result.
  - destruct todo as [|a todo]; [discriminate|].
    destruct wtodo as [|b wtodo]; [discriminate|].
    subst k.
    assert (G2 : nth (List.length done) (wdone ++ b :: wtodo) 0 = b)
      by (rewrite <- Hwd; apply nth_middle).
    cbn [seq map binary_set.not_loop]. unfold bind, try_modify.
    rewrite Hr, Hs.
    rewrite !vec_get_in
      by (unfold vec_size; rewrite length_app; cbn [List.length]; lia).
    cbn [obind]. rewrite vec_set_in
      by (unfold vec_size; rewrite length_app; cbn [List.length]; lia).
    rewrite Nat2Z.id, G2, upd_app_cons. cbn [obind].
    rewrite (IH (S (List.length done)) (done ++ [u8 (Z.lnot b)]) todo
               (wdone ++ [b]) wtodo).
    + unfold binary_set.with_set. cbn. now rewrite <- app_assoc.
    + rewrite length_app. cbn. lia.
    + rewrite length_app. cbn. lia.
    + now injection Ht.
    + now injection Hwt.
    + cbn. now rewrite <- app_assoc.
    + now rewrite <- app_assoc.
Qed.

Lemma inv_length_nat s :
  inv s ->
  Z.to_nat (u32 (binary_set.capacity_ s + 7) / 8) = List.length (binary_set.set_ s).
Proof. intros H. rewrite <- (inv_length s H). unfold vec_size. lia. Qed.

(** [!s] written out. *)
Lemma complement_eq s :
  inv s ->
  binary_set.not_ s =
  if binary_set.capacity_ s =? 0 then Throw binary_set.invalid_capacity
  else if negb (binary_set.capacity_ s mod 8 =? 0)
          && (vec_size (binary_set.set_ s) =? 0)
  then Undefined
  else let z := complement_store (binary_set.capacity_ s) (binary_set.set_ s) in
       Ok (binary_set.mk (binary_set.capacity_ s) (popcount z) z).
Proof.
  intros H. unfold binary_set.not_, binary_set.make.
  destruct (Z.eqb_spec (binary_set.capacity_ s) 0) as [E|E]; [reflexivity|].
  cbn [andb obind]. rewrite (inv_length_nat s H).
  unfold bind at 1. rewrite range_vec_size.
  rewrite (not_loop_from s _ 0%nat [] (repeat 0 (List.length (binary_set.set_ s)))
             [] (binary_set.set_ s));
    try reflexivity; [|now rewrite repeat_length].
  cbn [app]. unfold bind at 1. unfold complement_store.
  destruct (Z.eqb_spec (binary_set.capacity_ s) 0) as [|_]; [contradiction|].
  rewrite andb_true_r.
  set (nv := map (fun a => u8 (Z.lnot a)) (binary_set.set_ s)).
  assert (Hn : vec_size nv = vec_size (binary_set.set_ s))
    by (unfold nv, vec_size; now rewrite length_map).
  assert (Hy : Forall is_byte nv).
  { unfold nv. apply Forall_forall. intros x Hx. apply in_map_iff in Hx.
    destruct Hx as [a [<- _]]. apply u8_byte. }
  pose proof (inv_length_bound s H) as Hb.
  pose proof (vec_size_nonneg (binary_set.set_ s)) as H0.
  destruct (negb (binary_set.capacity_ s mod 8 =? 0)); cbn [andb].
  - unfold try_modify. cbn [binary_set.set_ binary_set.with_set].
    destruct (Z.eqb_spec (vec_size (binary_set.set_ s)) 0) as [Z0|Z0].
    + rewrite Z0. rewrite vec_get_out; [reflexivity|].
      rewrite Hn, Z0. vm_compute. intros [_ C]. discriminate.
    + rewrite usize_small by lia. rewrite vec_get_in by lia. cbn [obind].
      rewrite vec_set_in by lia. cbn [obind].
      rewrite recalculate_size_popcount.
      * reflexivity.
      * cbn. apply upd_Forall; [apply u8_byte|exact Hy].
      * cbn [binary_set.set_ binary_set.with_set].
        change (2 ^ 64) with 18446744073709551616. rewrite vec_size_upd. lia.
  - unfold ret. rewrite recalculate_size_popcount.
    + reflexivity.
    + exact Hy.
    + cbn [binary_set.set_ binary_set.with_set].
      change (2 ^ 64) with 18446744073709551616. lia.
Qed.

Lemma bit_map_not v i :
  0 <= i < 8 * vec_size v ->
  bit (map (fun a => u8 (Z.lnot a)) v) i = negb (bit v i).
Proof.
  intros Hi. unfold bit.
  assert (0 <= i / 8 < vec_size v)
    by (split; [apply Z.div_pos; lia|apply Z.div_lt_upper_bound; lia]).
  rewrite (nth_indep _ 0 (u8 (Z.lnot 0)))
    by (rewrite length_map; unfold vec_size in *; lia).
  rewrite (map_nth (fun a => u8 (Z.lnot a))).
  apply testbit_byte_not. apply Z.mod_pos_bound. lia.
Qed.

(** The complement holds the elements below the capacity that the set does
    not hold. *)
Lemma bit_complement c v i :
  0 < c < 4294967296 -> vec_size v = u32 (c + 7) / 8 ->
  0 < vec_size v \/ c mod 8 = 0 -> 0 <= i < 8 * vec_size v ->
  bit (complement_store c v) i = negb (bit v i) && (i <? c).
Proof.
  intros Hc Hl Hne Hi.
  destruct (length_covers c (vec_size v) ltac:(lia) Hl Hne) as [Hs Hcov].
  pose proof (Z.div_mod c 8 ltac:(lia)).
  pose proof (Z.mod_pos_bound c 8 ltac:(lia)).
  pose proof (Z.div_mod i 8 ltac:(lia)).
  pose proof (Z.mod_pos_bound i 8 ltac:(lia)).
  unfold complement_store.
  destruct (Z.eqb_spec c 0) as [|_]; [lia|]. rewrite andb_true_r.
  destruct (Z.eqb_spec (c mod 8) 0) as [E|E]; cbn [negb].
  - rewrite bit_map_not by assumption.
    destruct (Z.ltb_spec i c); [now rewrite andb_true_r|lia].
  - assert (Hn : vec_size (map (fun a => u8 (Z.lnot a)) v) = vec_size v)
      by (unfold vec_size; now rewrite length_map).
    rewrite bit_upd by lia.
    destruct (Z.eqb_spec (i / 8) (vec_size v - 1)) as [Ei|Ei].
    + rewrite testbit_u8, Z.land_spec, testbit_last_mask by lia.
      rewrite <- Ei. fold (bit (map (fun a => u8 (Z.lnot a)) v) i).
      rewrite bit_map_not by assumption. f_equal.
      destruct (Z.ltb_spec (i mod 8) (c mod 8)), (Z.ltb_spec i c); lia.
    + rewrite bit_map_not by assumption.
      destruct (Z.ltb_spec i c); [now rewrite andb_true_r|lia].
Qed.

Lemma complement_store_length c v :
  vec_size (complement_store c v) = vec_size v.
Proof.
  unfold complement_store.
  destruct (negb (c mod 8 =? 0) && negb (c =? 0)); rewrite ?vec_size_upd;
    unfold vec_size; now rewrite length_map.
Qed.

Lemma complement_store_bytes c v : Forall is_byte (complement_store c v).
Proof.
  assert (Hy : Forall is_byte (map (fun a => u8 (Z.lnot a)) v)).
  { apply Forall_forall. intros x Hx. apply in_map_iff in Hx.
    destruct Hx as [a [<- _]]. apply u8_byte. }
  unfold complement_store.
  destruct (negb (c mod 8 =? 0) && negb (c =? 0)); [|exact Hy].
  apply upd_Forall; [apply u8_byte|exact Hy].
Qed.

Lemma inv_complement s :
  inv s -> binary_set.capacity_ s <> 0 ->
  0 < vec_size (binary_set.set_ s) \/ binary_set.capacity_ s mod 8 = 0 ->
  inv (binary_set.mk (binary_set.capacity_ s)
         (popcount (complement_store (binary_set.capacity_ s) (binary_set.set_ s)))
         (complement_store (binary_set.capacity_ s) (binary_set.set_ s))).
Proof.
  intros H E Hne. pose proof (inv_capacity s H) as Hc.
  change (2 ^ 32) with 4294967296 in Hc.
  apply inv_intro.
  - exact (inv_capacity s H).
  - rewrite complement_store_length. exact (inv_length s H).
  - apply complement_store_bytes.
  - intros i Hi. rewrite complement_store_length in Hi.
    rewrite bit_complement
      by (try assumption; try lia; exact (inv_length s H)).
    destruct (Z.ltb_spec i (binary_set.capacity_ s)); [lia|apply andb_false_r].
Qed.

Lemma not_inv s r : inv s -> binary_set.not_ s = Ok r -> inv r.
Proof.
  intros H. rewrite (complement_eq s H).
  destruct (Z.eqb_spec (binary_set.capacity_ s) 0) as [E|E]; [discriminate|].
  destruct (Z.eqb_spec (binary_set.capacity_ s mod 8) 0) as [Em|Em]; cbn [negb andb].
  - intros [= <-]. apply inv_complement; auto.
  - destruct (Z.eqb_spec (vec_size (binary_set.set_ s)) 0) as [Z0|Z0]; [discriminate|].
    intros [= <-]. apply inv_complement; auto.
    left. pose proof (vec_size_nonneg (binary_set.set_ s)). lia.
Qed.

(** ** Every reachable set satisfies the invariant *)

Lemma reachable_inv s : reachable s -> inv s.
Proof.
  induction 1 as [ |c fill s Hc Hm |e s b s' _ IH He Ha |e s b s' _ IH He Hr
                   |s _ IH |s s' _ IH Hf |f other s s' Hin _ IHo _ IHs Ha
                   |f other s r Hin _ IHo _ IHs Hc |s r _ IH Hn].
  - exact inv_default.
  - now destruct (make_inv c fill s Hc Hm).
  - destruct (add_cases e s (proj1 He)) as
      [[_ A]|[(_ & _ & A)|[(_ & _ & A)|[(_ & _ & _ & A)|(Hlt & Hb & B & A)]]]];
      rewrite A in Ha; try discriminate.
    + now injection Ha as _ <-.
    + injection Ha as _ <-. apply inv_set_bit; auto. lia.
  - destruct (remove_cases e s (proj1 He)) as
      [[_ A]|[(_ & _ & A)|[(_ & _ & A)|[(_ & _ & _ & A)|(Hlt & Hb & B & A)]]]];
      rewrite A in Hr; try discriminate.
    + now injection Hr as _ <-.
    + injection Hr as _ <-. apply inv_clear_bit; auto. lia.
  - now apply inv_clear.
  - now apply (fill_inv s).
  - destruct (bitwise_ops f Hin) as [fb Hf].
    rewrite (assign_op_eq f other s IHs IHo (proj1 Hf)) in Ha.
    destruct (Z.eqb_spec (binary_set.capacity_ s) (binary_set.capacity_ other));
      [|discriminate].
    injection Ha as <-. now apply (inv_combined f fb).
  - destruct (bitwise_ops f Hin) as [fb Hf].
    rewrite (copy_op_eq f other s IHs IHo (proj1 Hf)) in Hc.
    destruct (Z.eqb_spec (binary_set.capacity_ s) (binary_set.capacity_ other));
      [|discriminate].
    injection Hc as <-. now apply (inv_combined f fb).
  - now apply (not_inv s).
Qed.

(** ** Failures *)

Lemma vec_get_no_throw v i x : vec_get v i <> Throw x.
Proof. unfold vec_get. destruct (in_bounds v i); discriminate. Qed.

Lemma vec_set_no_throw v i y x : vec_set v i y <> Throw x.
Proof. unfold vec_set. destruct (in_bounds v i); discriminate. Qed.

Lemma count_byte_no_throw fuel b size x :
  binary_set.count_byte fuel b size <> Throw x.
Proof.
  revert b size. induction fuel as [|fuel IH]; intros b size; cbn;
    destruct (b =? 0); try discriminate. apply IH.
Qed.

Lemma count_bytes_no_throw v size x :
  binary_set.count_bytes v size <> Throw x.
Proof.
  revert size. induction v as [|b v IH]; intros size;
    cbn [binary_set.count_bytes]; [discriminate|].
  pose proof (count_byte_no_throw 8 b size x) as N.
  destruct (binary_set.count_byte 8 b size); cbn [obind]; try discriminate;
    [apply IH|congruence].
Qed.

Lemma recalculate_size_no_throw s x s' :
  binary_set.recalculate_size s <> (Throw x, s').
Proof.
  unfold binary_set.recalculate_size, try_modify.
  pose proof (count_bytes_no_throw (binary_set.set_ s) 0) as N.
  destruct (binary_set.count_bytes (binary_set.set_ s) 0); cbn [obind];
    try discriminate. exfalso. now apply (N e).
Qed.

Lemma combine_loop_no_throw f other ixs :
  forall s x s', binary_set.combine_loop f other ixs s <> (Throw x, s').
Proof.
  induction ixs as [|i rest IH]; intros s x s'; cbn [binary_set.combine_loop];
    [discriminate|].
  unfold bind, try_modify.
  pose proof (vec_get_no_throw (binary_set.set_ s) i) as N1.
  pose proof (vec_get_no_throw (binary_set.set_ other) i) as N2.
  destruct (vec_get (binary_set.set_ s) i) as [a| | |]; cbn [obind];
    try discriminate; [|exfalso; now apply (N1 e)].
  destruct (vec_get (binary_set.set_ other) i) as [b| | |]; cbn [obind];
    try discriminate; [|exfalso; now apply (N2 e)].
  pose proof (vec_set_no_throw (binary_set.set_ s) i (f a b)) as N3.
  destruct (vec_set (binary_set.set_ s) i (f a b)); cbn [obind];
    try discriminate; [apply IH|exfalso; now apply (N3 e)].
Qed.

(** [&=], [|=], [-=] throw only for a capacity mismatch, before any write. *)
Lemma assign_op_throw f other s x s' :
  binary_set.assign_op f other s = (Throw x, s') ->
  s' = s /\ x = binary_set.capacity_mismatch /\
  binary_set.capacity_ s <> binary_set.capacity_ other.
Proof.
  unfold binary_set.assign_op, bind at 1, query at 1.
  unfold binary_set.validate_same_capacity.
  destruct (Z.eqb_spec (binary_set.capacity_ s) (binary_set.capacity_ other)) as [E|E];
    cbn [negb].
  - unfold bind at 1, query. unfold bind.
    destruct (binary_set.combine_loop f other _ s) as [r1 s1] eqn:CL.
    destruct r1 as [[]|e| |]; try discriminate.
    + intros Q. exfalso. now apply (recalculate_size_no_throw s1 x s').
    + exfalso. now apply (combine_loop_no_throw _ _ _ _ _ _ CL).
  - intros [= <- <-]. auto.
Qed.

Lemma assign_op_mismatch f other s :
  binary_set.capacity_ s <> binary_set.capacity_ other ->
  binary_set.assign_op f other s = (Throw binary_set.capacity_mismatch, s).
Proof.
  intros H. unfold binary_set.assign_op, bind, query,
    binary_set.validate_same_capacity.
  destruct (Z.eqb_spec (binary_set.capacity_ s) (binary_set.capacity_ other));
    [contradiction|reflexivity].
Qed.

Lemma copy_op_mismatch f other s :
  binary_set.capacity_ s <> binary_set.capacity_ other ->
  binary_set.copy_op f other s = Throw binary_set.capacity_mismatch.
Proof.
  intros H. unfold binary_set.copy_op, binary_set.validate_same_capacity.
  destruct (Z.eqb_spec (binary_set.capacity_ s) (binary_set.capacity_ other));
    [contradiction|reflexivity].
Qed.

Lemma add_throw e s x s' : binary_set.add e s = (Throw x, s') -> s' = s.
Proof.
  rewrite add_eq.
  destruct (binary_set.capacity_ s =? 0); [now intros [= _ <-]|].
  destruct (binary_set.capacity_ s <=? e); [now intros [= _ <-]|].
  destruct (vec_get (binary_set.set_ s) (e / 8)); try (now intros [= _ <-]);
    try discriminate.
  destruct (negb _); discriminate.
Qed.

Lemma remove_throw e s x s' : binary_set.remove e s = (Throw x, s') -> s' = s.
Proof.
  rewrite remove_eq.
  destruct (binary_set.capacity_ s =? 0); [now intros [= _ <-]|].
  destruct (binary_set.capacity_ s <=? e); [now intros [= _ <-]|].
  destruct (vec_get (binary_set.set_ s) (e / 8)); try (now intros [= _ <-]);
    try discriminate.
  destruct (negb _); discriminate.
Qed.

Lemma mask_last_no_throw mask v x : binary_set.mask_last mask v <> Throw x.
Proof.
  unfold binary_set.mask_last.
  pose proof (vec_get_no_throw v (usize (vec_size v - 1))) as N.
  destruct (vec_get v (usize (vec_size v - 1))); cbn [obind]; try discriminate;
    [apply vec_set_no_throw|exfalso; now apply (N e)].
Qed.

Lemma fill_no_throw s x s' : binary_set.fill s <> (Throw x, s').
Proof.
  unfold binary_set.fill, bind, modify, query, try_modify, ret. cbv beta.
  destruct (negb _ && negb _); [|discriminate].
  match goal with |- context [binary_set.mask_last ?m ?v] =>
    pose proof (mask_last_no_throw m v) as N; destruct (binary_set.mask_last m v)
  end; cbn [obind]; try discriminate. exfalso. now apply (N e).
Qed.

Lemma index_no_throw i bs x :
  0 <= i < binary_set.capacity_ bs -> binary_set.index i bs <> Throw x.
Proof.
  intros Hi. unfold binary_set.index, binary_set.contains,
    binary_set.validate_element.
  destruct (Z.eqb_spec (binary_set.capacity_ bs) 0); [lia|].
  destruct (Z.leb_spec (binary_set.capacity_ bs) i); [lia|]. cbn [obind].
  pose proof (vec_get_no_throw (binary_set.set_ bs) (i / 8)) as N.
  destruct (vec_get (binary_set.set_ bs) (i / 8)); cbn [obind]; try discriminate.
  exfalso. now apply (N e).
Qed.

Lemma add_loop_no_throw bs ixs :
  Forall (fun i => 0 <= i < binary_set.capacity_ bs) ixs ->
  forall cur x cur', add_loop bs ixs cur <> (Throw x, cur').
Proof.
  induction 1 as [|i rest Hi _ IH]; intros cur x cur'; cbn [add_loop];
    [discriminate|].
  unfold bind at 1, query. pose proof (fun y => index_no_throw i bs y Hi) as N.
  destruct (binary_set.index i bs); try discriminate;
    [|exfalso; now apply (N e)].
  unfold bind at 1, modify. apply IH.
Qed.

(** [bs_searcher::add] throws only for a capacity mismatch, before it
    touches the tree. *)
Lemma searcher_add_throw value bs s x s' :
  bs_searcher.add value bs s = (Throw x, s') -> s' = s.
Proof.
  unfold bs_searcher.add, bind at 1, query at 1, validate_capacity.
  destruct (Z.eqb_spec (capacity_ s) (binary_set.capacity bs)) as [E|E];
    cbn [negb]; [|now intros [= _ <-]].
  unfold bind at 1, query, from_root.
  destruct (root_ s) as [root|]; [|discriminate].
  unfold bind.
  destruct (add_loop bs (range (capacity_ s)) ([], root)) as [r1 cur] eqn:AL.
  destruct r1 as [[]|e| |]; cbn.
  - unfold modify. destruct (push_back value cur). discriminate.
  - exfalso. apply (add_loop_no_throw bs (range (capacity_ s))
                      ltac:(rewrite E; apply range_Forall) _ _ _ AL).
  - destruct cur. discriminate.
  - destruct cur. discriminate.
Qed.

Lemma searcher_remove_throw value bs s x s' :
  bs_searcher.remove value bs s = (Throw x, s') -> s' = s.
Proof.
  unfold bs_searcher.remove, bind, query.
  destruct (validate_capacity bs s); try discriminate; [|now intros [= _ <-]].
  destruct (remove_descend bs (range (capacity_ s)) [] (root_ s))
    as [[path [node|]]| | |]; try discriminate; [|now intros [= _ <-]].
  destruct (find value (values node)); discriminate.
Qed.

Lemma contains_domain e s :
  binary_set.capacity_ s = 0 ->
  binary_set.contains e s = Throw binary_set.domain_empty.
Proof.
  intros H. unfold binary_set.contains, binary_set.validate_element.
  now rewrite H.
Qed.

Lemma contains_range e s :
  binary_set.capacity_ s <> 0 -> binary_set.capacity_ s <= e ->
  binary_set.contains e s = Throw binary_set.element_out_of_range.
Proof.
  intros H0 H. unfold binary_set.contains, binary_set.validate_element.
  destruct (Z.eqb_spec (binary_set.capacity_ s) 0); [contradiction|].
  destruct (Z.leb_spec (binary_set.capacity_ s) e); [reflexivity|lia].
Qed.

Lemma pair_mismatch s other :
  binary_set.capacity_ s <> binary_set.capacity_ other ->
  binary_set.validate_same_capacity other s = Throw binary_set.capacity_mismatch.
Proof.
  intros H. unfold binary_set.validate_same_capacity.
  destruct (Z.eqb_spec (binary_set.capacity_ s) (binary_set.capacity_ other));
    [contradiction|reflexivity].
Qed.


(** A reachable set whose capacity does not make [capacity + 7] wrap has a
    byte for every element index. *)
Lemma reachable_backed s :
  reachable s -> binary_set.capacity s + 7 < 2 ^ 32 -> backed s.
Proof.
  intros R Hc. pose proof (reachable_inv s R) as H.
  pose proof (inv_capacity s H) as C. pose proof (inv_length s H) as L.
  unfold binary_set.capacity in Hc. change (2 ^ 32) with 4294967296 in *.
  rewrite nbytes_small in L by lia.
  pose proof (Z.div_mod (binary_set.capacity_ s + 7) 8 ltac:(lia)).
  pose proof (Z.mod_pos_bound (binary_set.capacity_ s + 7) 8 ltac:(lia)).
  unfold backed. lia.
Qed.

(** ** The subset test of the sets themselves *)

Lemma land_not_zero a b :
  is_byte b ->
  (Z.land (Z.lnot a) b =? 0) =
  forallb (fun m => implb (Z.testbit b m) (Z.testbit a m)) (range 8).
Proof.
  intros Hb. apply eq_true_iff_eq. rewrite Z.eqb_eq, forallb_forall. split.
  - intros E m Hm. apply In_range in Hm.
    assert (T : Z.testbit (Z.land (Z.lnot a) b) m = false)
      by (rewrite E; apply Z.bits_0).
    rewrite Z.land_spec, Z.lnot_spec in T by lia.
    destruct (Z.testbit a m), (Z.testbit b m); cbn in *; congruence.
  - intros H. apply Z.bits_inj'. intros m Hm. rewrite Z.bits_0, Z.land_spec.
    destruct (Z.lt_ge_cases m 8) as [Hlt|Hge].
    + specialize (H m ltac:(apply In_range; lia)).
      rewrite Z.lnot_spec by lia.
      destruct (Z.testbit a m), (Z.testbit b m); cbn in *; congruence.
    + rewrite (byte_high b m Hb Hge). apply andb_false_r.
Qed.

Lemma contains_set_loop_forall other s ixs :
  Forall (fun i => 0 <= i < vec_size (binary_set.set_ s) /\
                   i < vec_size (binary_set.set_ other)) ixs ->
  binary_set.contains_set_loop other s ixs =
  Ok (forallb (fun i =>
        Z.land (Z.lnot (nth (Z.to_nat i) (binary_set.set_ s) 0))
               (nth (Z.to_nat i) (binary_set.set_ other) 0) =? 0) ixs).
Proof.
  induction 1 as [|i rest [Hs Ho] _ IH]; [reflexivity|].
  cbn [binary_set.contains_set_loop forallb].
  rewrite !vec_get_in by lia. cbn [obind].
  destruct (Z.land _ _ =? 0); cbn [negb andb]; [exact IH|reflexivity].
Qed.

(** [q.contains(s)] decides whether every element of [s] is in [q]. *)
Lemma contains_set_is_subset q s :
  inv q -> inv s -> backed q ->
  binary_set.capacity q = binary_set.capacity s ->
  binary_set.contains_set q s = Ok (is_subset_of s q).
Proof.
  intros Iq Is [_ Bq] Hc. unfold binary_set.capacity in Hc.
  pose proof (inv_same_length q s Iq Is Hc) as Hl.
  unfold binary_set.contains_set, binary_set.validate_same_capacity.
  rewrite Hc, Z.eqb_refl. cbn [negb obind].
  rewrite contains_set_loop_forall.
  2: { apply Forall_forall. intros i Hi. apply In_range in Hi.
       unfold vec_size in *. lia. }
  f_equal. apply eq_true_iff_eq. unfold is_subset_of, binary_set.capacity.
  rewrite !forallb_forall. split.
  - intros H i Hi. apply In_range in Hi.
    rewrite !member_bit by lia.
    assert (Hi8 : 0 <= i / 8 < vec_size (binary_set.set_ q))
      by (apply byte_index; lia).
    specialize (H (i / 8) ltac:(apply In_range; lia)).
    rewrite land_not_zero in H.
    2: { pose proof (inv_bytes s Is) as Y. rewrite Forall_forall in Y.
         apply Y, nth_In. unfold vec_size in *. lia. }
    rewrite forallb_forall in H.
    apply (H (i mod 8)). apply In_range. apply Z.mod_pos_bound. lia.
  - intros H j Hj. apply In_range in Hj.
    rewrite land_not_zero.
    2: { pose proof (inv_bytes s Is) as Y. rewrite Forall_forall in Y.
         apply Y, nth_In. unfold vec_size in *. lia. }
    apply forallb_forall. intros m Hm. apply In_range in Hm.
    rewrite <- !bit_at by lia.
    destruct (Z.lt_ge_cases (8 * j + m) (binary_set.capacity_ s)) as [Hlt|Hge].
    + specialize (H (8 * j + m) ltac:(apply In_range; lia)).
      rewrite !member_bit in H by lia. exact H.
    + rewrite (inv_pad s Is); [reflexivity|]. unfold vec_size in *. lia.
Qed.
(** ** Removal that finds nothing *)

(** C9: when [remove] returns [false] the index is the one it was given. *)
Theorem remove_false_unchanged value bs s s' :
  bs_searcher.remove value bs s = (Ok false, s') -> s' = s.
Proof.
  unfold bs_searcher.remove, bind, query.
  destruct (validate_capacity bs s); try discriminate.
  destruct (remove_descend bs (range (capacity_ s)) [] (root_ s))
    as [[path [node|]]| | |]; try discriminate.
  - destruct (find value (values node)); intros [= <-]; reflexivity.
  - intros [= <-]; reflexivity.
Qed.
(** ** Subset queries *)

(** C1: after any sequence of [add] and [remove] calls on an index of
    capacity [c], [find_subsets q] returns, in some order, exactly the values
    stored with a set that is a subset of [q], each as often as it is
    stored. *)
Theorem find_subsets_correct c ops q :
  Forall (fun o => backed (op_set o)) ops ->
  backed q -> binary_set.capacity q = c ->
  exists res,
    bs_searcher.find_subsets q (run_all ops (bs_searcher.make c)) = Ok res /\
    Permutation res (stored_subsets c ops q).
Proof.
  intros Hops Hq Hc.
  destruct (index_inv_built c ops Hops) as [Hcap He (root & Hr & _ & _ & Hperm)].
  rewrite (find_subsets_leaves q _ root Hq); [|congruence|exact Hr].
  eexists. split; [reflexivity|].
  rewrite leaves_contents, elements_length, Hc.
  rewrite (Permutation_filter_keep (passes (elements q)) _ _ Hperm).
  unfold stored_subsets. rewrite filter_map_swap, map_map.
  cbn [key snd].
  erewrite filter_ext_in; [reflexivity|].
  intros e Hin. unfold passes, key. cbn [fst].
  rewrite is_subset_of_bits; [reflexivity|].
  rewrite Forall_forall in He. rewrite (He e Hin). now symmetry.
Qed.
(** ** Pruning *)

(** C2: after any sequence of [add] and [remove] calls, no node other than
    the root is without values and without children; and once no value is
    stored for a set any more, the leaf of its path is gone, and a node of
    that path is still there only if it, or a node of the path below it,
    holds values or a child off the path. *)
Theorem no_dead_node_remains c ops :
  Forall (fun o => backed (op_set o)) ops ->
  exists root,
    root_ (run_all ops (bs_searcher.make c)) = Some root /\
    (forall path m,
        path <> [] -> lookup path root = Some m -> is_dead m = false) /\
    (forall bs,
        backed bs -> binary_set.capacity bs = c -> 0 < c ->
        (forall e, In e (stored c ops) -> same_elements (fst e) bs = false) ->
        lookup (elements bs) root = None /\
        forall p s m,
          elements bs = p ++ s -> p <> [] -> lookup p root = Some m ->
          exists q b rest m',
            s = q ++ b :: rest /\ lookup (p ++ q) root = Some m' /\
            (values m' <> [] \/ child (negb b) m' <> None)).
Proof.
  intros Hops.
  destruct (index_inv_built c ops Hops) as [Hcap He (root & Hr & Hs & Hp & Hperm)].
  assert (Alive : forall path m,
             path <> [] -> lookup path root = Some m -> is_dead m = false).
  { intros path m Hne L. now destruct (lookup_pruned path root m Hp L Hne). }
  exists root. split; [exact Hr|]. split; [exact Alive|].
  intros bs Hb Hc Hpos Hno.
  assert (Gone : lookup (elements bs) root = None); [|split; [exact Gone|]].
  - destruct (lookup (elements bs) root) as [m|] eqn:L; [|reflexivity]. exfalso.
    assert (Hlen : List.length (elements bs) = Z.to_nat c)
      by (now rewrite elements_length, Hc).
    assert (Hne : elements bs <> []).
    { intros E. rewrite E in Hlen. cbn in Hlen. lia. }
    destruct (lookup_pruned _ _ _ Hp L Hne) as [Hd _].
    rewrite <- Hlen in Hs. destruct (lookup_shaped _ _ _ Hs L) as [Hl Hrt].
    destruct (values m) as [|v vs] eqn:V.
    { unfold is_dead in Hd. now rewrite V, Hl, Hrt in Hd. }
    assert (Hin : In (elements bs, v) (map key (stored c ops))).
    { eapply Permutation_in; [exact Hperm|]. rewrite <- Hlen.
      apply (lookup_contents _ _ m); [exact L|]. rewrite V. now left. }
    apply in_map_iff in Hin. destruct Hin as (e & Hk & Hin).
    specialize (Hno e Hin). rewrite Forall_forall in He.
    assert (E : same_elements (fst e) bs = true).
    { apply same_elements_eq; [rewrite (He e Hin); now symmetry|].
      unfold key in Hk. now injection Hk as Hk _. }
    congruence.
  - intros p s m E Hne L. rewrite E in Gone.
    exact (remaining_node_has_cause root Alive s p m Hne L Gone).
Qed.

(** ** Removal *)

(** C3: [remove] returns [false] when the path of the set does not resolve
    or its leaf holds no entry equal to the value; otherwise it returns
    [true] and takes away exactly one entry, the first that matches, leaving
    every other list of values as it was. *)
Theorem remove_first_match s root value bs :
  root_ s = Some root -> capacity_ s = binary_set.capacity bs -> backed bs ->
  match lookup (elements bs) root with
  | None => bs_searcher.remove value bs s = (Ok false, s)
  | Some leaf =>
      (~ In value (values leaf) ->
       bs_searcher.remove value bs s = (Ok false, s)) /\
      (In value (values leaf) ->
       exists k root',
         first_match value (values leaf) k /\
         bs_searcher.remove value bs s =
           (Ok true, mk (Some root') (capacity_ s)) /\
         leaf_values (elements bs) root' = swap_pop k (values leaf) /\
         Permutation (values leaf) (value :: leaf_values (elements bs) root') /\
         count_occ Z.eq_dec (leaf_values (elements bs) root') value =
           pred (count_occ Z.eq_dec (values leaf) value) /\
         forall bits', bits' <> elements bs ->
                       leaf_values bits' root' = leaf_values bits' root)
  end.
Proof.
  intros Hr Hc Hb. rewrite (remove_erase value bs s root Hb Hc Hr).
  destruct (erase (elements bs) value root) as [root'|] eqn:E.
  - destruct (erase_some _ _ _ _ E) as (leaf & k & L & F & V & O).
    rewrite L. split.
    + intros Hn. exfalso. apply Hn. now apply (find_In value (values leaf) k).
    + intros _. exists k, root'.
      pose proof (swap_pop_Permutation _ _ _ F) as P. rewrite <- V in P.
      repeat split; try assumption.
      * now apply find_first_match.
      * now destruct (find_first_match _ _ _ F).
      * rewrite (proj1 (Permutation_count_occ Z.eq_dec _ _) P value).
        cbn [count_occ]. destruct (Z.eq_dec value value); [reflexivity|contradiction].
  - destruct (erase_none _ _ _ E) as [L|(leaf & L & F)]; rewrite L; [reflexivity|].
    split; [reflexivity|]. intros Hin. apply find_absent in F. contradiction.
Qed.

(** ** The cached size *)

(** C4: whatever sequence of operations produced a set, its size is the
    number of indices below its capacity that [contains] reports, which is
    the population count of its backing store, whose pad bits are zero. *)
Theorem size_counts_elements s :
  reachable s ->
  binary_set.size s = count_contains s /\
  binary_set.size s = popcount (binary_set.set_ s) /\
  forall i, binary_set.capacity s <= i < 8 * vec_size (binary_set.set_ s) ->
            bit (binary_set.set_ s) i = false.
Proof.
  intros H. apply reachable_inv in H. split; [now apply inv_size_count|].
  split; [exact (inv_size s H)|exact (inv_pad s H)].
Qed.
(** ** Adding and removing an element *)

Lemma clear_set_bit e v :
  Forall is_byte v -> 0 <= e < 8 * vec_size v -> bit v e = false ->
  clear_bit e (set_bit e v) = v.
Proof.
  intros Hy He B. apply vec_ext.
  - unfold clear_bit, set_bit. now rewrite !upd_length.
  - apply upd_Forall; [apply u8_byte|]. apply upd_Forall; [apply u8_byte|exact Hy].
  - exact Hy.
  - intros i Hi. rewrite clear_bit_length, set_bit_length in Hi.
    rewrite bit_clear_bit by (rewrite ?set_bit_length; lia).
    rewrite bit_set_bit by lia.
    destruct (Z.eqb_spec i e) as [->|]; [now rewrite B|reflexivity].
Qed.

(** C5, as the code has it: [add(e)] followed by [remove(e)] leaves [e]
    absent; when [e] was absent before, the set, and so its size, is the one
    before the [add]; when [e] was present, the [add] returns [false] and
    changes nothing, and the size ends one less. *)
Theorem add_remove_round_trip s e :
  reachable s -> backed s -> 0 <= e < binary_set.capacity s ->
  exists b s1 s2,
    binary_set.add e s = (Ok b, s1) /\
    binary_set.remove e s1 = (Ok true, s2) /\
    binary_set.contains e s2 = Ok false /\
    (member s e = false -> s2 = s /\ binary_set.size s2 = binary_set.size s) /\
    (member s e = true ->
     b = false /\ s1 = s /\ binary_set.size s2 = binary_set.size s - 1).
Proof.
  intros Hr [_ Hb] He. unfold binary_set.capacity in He.
  pose proof (reachable_inv s Hr) as H.
  assert (He8 : e < 8 * vec_size (binary_set.set_ s)) by lia.
  rewrite (member_bit s e He).
  destruct (add_cases e s (proj1 He)) as
    [[C _]|[(_ & C & _)|[(_ & C & _)|[(_ & _ & B & A)|(_ & _ & B & A)]]]];
    try lia.
  - (* e was present: add changes nothing *)
    destruct (remove_cases e s (proj1 He)) as
      [[C _]|[(_ & C & _)|[(_ & C & _)|[(_ & _ & B' & _)|(_ & _ & _ & R)]]]];
      try lia; try congruence.
    destruct (inv_clear_bit s e H He He8 B) as [U _].
    exists false, s, (binary_set.mk (binary_set.capacity_ s)
                        (usize (binary_set.size_ s - 1))
                        (clear_bit e (binary_set.set_ s))).
    split; [exact A|]. split; [exact R|]. split; [|split].
    + rewrite contains_bit
        by (cbn [binary_set.capacity_ binary_set.set_]; rewrite ?clear_bit_length; lia).
      cbn [binary_set.set_]. rewrite bit_clear_bit by lia. now rewrite Z.eqb_refl.
    + intros F. congruence.
    + intros _. split; [reflexivity|]. split; [reflexivity|exact U].
  - (* e was absent: add sets its bit, remove clears it again *)
    destruct (inv_set_bit s e H He He8 B) as [U H1]. rewrite U in A.
    pose proof (remove_cases e
                  (binary_set.mk (binary_set.capacity_ s)
                     (binary_set.size_ s + 1)
                     (set_bit e (binary_set.set_ s))) (proj1 He)) as RC.
    cbn [binary_set.capacity_ binary_set.size_ binary_set.set_] in RC.
    rewrite set_bit_length, bit_set_bit, Z.eqb_refl in RC by lia.
    destruct RC as
      [[C _]|[(_ & C & _)|[(_ & C & _)|[(_ & _ & B' & _)|(_ & _ & _ & R)]]]];
      try lia; try discriminate.
    pose proof (inv_size_bound s H) as Hsz.
    replace (binary_set.size_ s + 1 - 1) with (binary_set.size_ s) in R by lia.
    rewrite usize_small in R by lia.
    rewrite clear_set_bit in R by (try exact (inv_bytes s H); try exact B; lia).
    eexists true, _, s.
    split; [exact A|]. split; [destruct s; exact R|]. split; [|split].
    + rewrite contains_bit by lia. now rewrite B.
    + intros _. now split.
    + intros F. congruence.
Qed.

(** C5 as stated fails when the element was already present: the [add] is
    a no-op and the [remove] takes the element away. *)
Lemma add_remove_round_trip_counterexample :
  let s := binary_set.mk 8 1 [8] in
  reachable s /\ backed s /\ 0 <= 3 < binary_set.capacity s /\
  binary_set.add 3 s = (Ok false, s) /\
  binary_set.remove 3 s = (Ok true, binary_set.mk 8 0 [0]) /\
  binary_set.size (binary_set.mk 8 0 [0]) <> binary_set.size s.
Proof.
  cbv zeta. split.
  { apply (reach_add 3 (binary_set.mk 8 0 [0]) true); [|lia|reflexivity].
    apply (reach_make 8 false); [lia|reflexivity]. }
  split; [unfold backed; cbn; lia|].
  split; [cbn; lia|]. split; [reflexivity|]. split; [reflexivity|].
  cbn. lia.
Qed.

(** ** De Morgan *)

Lemma vec_eqb_refl v : Forall is_byte v -> binary_set.vec_eqb v v = true.
Proof.
  induction 1 as [|a v _ _ IH]; cbn; [reflexivity|]. now rewrite Z.eqb_refl, IH.
Qed.

Lemma backed_nonempty s :
  inv s -> backed s -> 0 < binary_set.capacity_ s ->
  0 < vec_size (binary_set.set_ s).
Proof. intros _ [_ Hb] Hc. lia. Qed.

(** [!s] on a set of positive capacity whose store covers it. *)
Lemma not_backed s :
  inv s -> backed s -> 0 < binary_set.capacity_ s ->
  binary_set.not_ s =
  Ok (binary_set.mk (binary_set.capacity_ s)
        (popcount (complement_store (binary_set.capacity_ s) (binary_set.set_ s)))
        (complement_store (binary_set.capacity_ s) (binary_set.set_ s))).
Proof.
  intros H Hb Hc. rewrite (complement_eq s H).
  pose proof (backed_nonempty s H Hb Hc).
  destruct (Z.eqb_spec (binary_set.capacity_ s) 0); [lia|].
  destruct (Z.eqb_spec (vec_size (binary_set.set_ s)) 0); [lia|].
  now rewrite andb_false_r.
Qed.

(** C6, as the code has it: for two sets of one positive capacity,
    [!(a & b) == ((!a) | (!b))] evaluates to [true]. *)
Theorem de_morgan_positive_capacity a b :
  reachable a -> reachable b -> backed a ->
  binary_set.capacity a = binary_set.capacity b -> 0 < binary_set.capacity a ->
  de_morgan a b = Ok true.
Proof.
  intros Ra Rb Ba Hc Hpos. unfold binary_set.capacity in *.
  pose proof (reachable_inv a Ra) as Ia. pose proof (reachable_inv b Rb) as Ib.
  pose proof (inv_same_length a b Ia Ib Hc) as Hl.
  assert (Bb : backed b).
  { destruct Ba as [B0 B1]. unfold backed, vec_size in *. rewrite <- Hc, <- Hl. lia. }
  pose proof (inv_capacity a Ia) as Hcap. change (2 ^ 32) with 4294967296 in Hcap.
  unfold de_morgan, binary_set.and_, binary_set.or_.
  rewrite (copy_op_eq _ b a Ia Ib (proj1 bitwise_and)), Hc, Z.eqb_refl. cbn [obind].
  pose proof (inv_combined _ _ b a bitwise_and Ia Ib Hc) as Iab.
  assert (Lab : List.length (binary_set.set_ (combined binary_set.byte_and b a)) =
                List.length (binary_set.set_ a))
    by (unfold combined; cbn [binary_set.set_]; now apply zip_with_length).
  assert (Bab : backed (combined binary_set.byte_and b a)).
  { destruct Ba as [B0 B1]. unfold backed, vec_size in *. rewrite Lab.
    unfold combined. cbn [binary_set.capacity_]. lia. }
  rewrite (not_backed _ Iab Bab) by (unfold combined; cbn [binary_set.capacity_]; lia).
  cbn [obind].
  rewrite (not_backed a Ia Ba Hpos). cbn [obind].
  rewrite (not_backed b Ib Bb) by lia. cbn [obind].
  pose proof (inv_complement a Ia ltac:(lia)
                (or_introl (backed_nonempty a Ia Ba Hpos))) as Ina.
  pose proof (inv_complement b Ib ltac:(lia)
                (or_introl (backed_nonempty b Ib Bb ltac:(lia)))) as Inb.
  rewrite (copy_op_eq _ _ _ Ina Inb (proj1 bitwise_or)).
  cbn [binary_set.capacity_]. rewrite Hc, Z.eqb_refl. cbn [obind].
  unfold binary_set.eq, binary_set.validate_same_capacity, combined.
  cbn [binary_set.capacity_ binary_set.set_]. rewrite Hc, Z.eqb_refl.
  cbn [negb obind]. f_equal.
  set (va := binary_set.set_ a) in *. set (vb := binary_set.set_ b) in *.
  set (c := binary_set.capacity_ b) in *.
  assert (Hla : vec_size va = u32 (c + 7) / 8) by (rewrite <- Hc; exact (inv_length a Ia)).
  assert (Hlb : vec_size vb = u32 (c + 7) / 8) by exact (inv_length b Ib).
  assert (Hna : 0 < vec_size va) by (apply (backed_nonempty a Ia Ba); lia).
  assert (E : complement_store c (zip_with binary_set.byte_and va vb) =
              zip_with binary_set.byte_or (complement_store c va)
                                          (complement_store c vb)).
  { assert (Lz : vec_size (zip_with binary_set.byte_and va vb) = vec_size va)
      by (unfold vec_size; now rewrite zip_with_length).
    assert (Lc : List.length (complement_store c va) =
                 List.length (complement_store c vb)).
    { pose proof (complement_store_length c va).
      pose proof (complement_store_length c vb). unfold vec_size in *. lia. }
    apply vec_ext.
    - rewrite zip_with_length by exact Lc.
      pose proof (complement_store_length c (zip_with binary_set.byte_and va vb)).
      pose proof (complement_store_length c va). unfold vec_size in *. lia.
    - apply complement_store_bytes.
    - apply zip_with_Forall. exact (proj1 bitwise_or).
    - intros i Hi. rewrite complement_store_length, Lz in Hi.
      rewrite bit_complement by (rewrite ?Lz; try lia; auto).
      rewrite (bit_zip_with _ _ _ _ _ bitwise_and) by (try exact Hl; lia).
      rewrite (bit_zip_with _ _ _ _ _ bitwise_or)
        by (try exact Lc; rewrite complement_store_length; lia).
      rewrite !bit_complement by (try lia; auto).
      destruct (bit va i), (bit vb i), (i <? c); reflexivity. }
  rewrite E. apply vec_eqb_refl. apply zip_with_Forall. exact (proj1 bitwise_or).
Qed.

(** C6 as stated fails for default-constructed sets: the complement throws. *)
Lemma de_morgan_counterexample :
  reachable binary_set.default /\
  binary_set.capacity binary_set.default = binary_set.capacity binary_set.default /\
  de_morgan binary_set.default binary_set.default =
    Throw binary_set.invalid_capacity.
Proof. split; [constructor|]. split; reflexivity. Qed.
(** C7, as the code has it: a call that throws has not changed the object
    it was made on; each failure condition has its own exception, but the
    exceptions fall in three types only: constructing with capacity 0 and a
    capacity mismatch are both [std::invalid_argument] and differ in their
    text alone. *)
Theorem failures_atomic_and_typed :
  (* a call that throws leaves the object as it was *)
  ((forall e s x s', binary_set.add e s = (Throw x, s') -> s' = s) /\
   (forall e s x s', binary_set.remove e s = (Throw x, s') -> s' = s) /\
   (forall f other s x s',
       binary_set.assign_op f other s = (Throw x, s') -> s' = s) /\
   (forall s x s', binary_set.fill s = (Throw x, s') -> s' = s) /\
   (forall value bs s x s',
       bs_searcher.add value bs s = (Throw x, s') -> s' = s) /\
   (forall value bs s x s',
       bs_searcher.remove value bs s = (Throw x, s') -> s' = s)) /\
  (* constructing with capacity 0 *)
  (forall fill, binary_set.make 0 fill = Throw binary_set.invalid_capacity) /\
  (* operands of different capacity *)
  (forall s other,
      binary_set.capacity s <> binary_set.capacity other ->
      binary_set.and_ s other = Throw binary_set.capacity_mismatch /\
      binary_set.or_ s other = Throw binary_set.capacity_mismatch /\
      binary_set.sub s other = Throw binary_set.capacity_mismatch /\
      binary_set.eq s other = Throw binary_set.capacity_mismatch /\
      binary_set.neq s other = Throw binary_set.capacity_mismatch /\
      binary_set.intersects s other = Throw binary_set.capacity_mismatch /\
      binary_set.contains_set s other = Throw binary_set.capacity_mismatch /\
      binary_set.and_assign other s = (Throw binary_set.capacity_mismatch, s) /\
      binary_set.or_assign other s = (Throw binary_set.capacity_mismatch, s) /\
      binary_set.sub_assign other s = (Throw binary_set.capacity_mismatch, s)) /\
  (* a set whose capacity is not the index's *)
  (forall value bs s,
      capacity_ s <> binary_set.capacity bs ->
      bs_searcher.add value bs s = (Throw unexpected_capacity, s) /\
      bs_searcher.remove value bs s = (Throw unexpected_capacity, s) /\
      bs_searcher.find_subsets bs s = Throw unexpected_capacity) /\
  (* an element of a set of capacity 0 *)
  (forall e s,
      binary_set.capacity s = 0 ->
      binary_set.add e s = (Throw binary_set.domain_empty, s) /\
      binary_set.remove e s = (Throw binary_set.domain_empty, s) /\
      binary_set.contains e s = Throw binary_set.domain_empty /\
      binary_set.index e s = Throw binary_set.domain_empty /\
      binary_set.sparse s = Throw binary_set.domain_empty) /\
  (* an element that is not below the capacity *)
  (forall e s,
      binary_set.capacity s <> 0 -> binary_set.capacity s <= e ->
      binary_set.add e s = (Throw binary_set.element_out_of_range, s) /\
      binary_set.remove e s = (Throw binary_set.element_out_of_range, s) /\
      binary_set.contains e s = Throw binary_set.element_out_of_range /\
      binary_set.index e s = Throw binary_set.element_out_of_range) /\
  (* the exceptions and their types *)
  (exn_type binary_set.invalid_capacity = invalid_argument /\
   exn_type binary_set.capacity_mismatch = invalid_argument /\
   exn_type unexpected_capacity = invalid_argument /\
   exn_type binary_set.domain_empty = domain_error /\
   exn_type binary_set.element_out_of_range = out_of_range /\
   invalid_argument <> domain_error /\
   invalid_argument <> out_of_range /\
   domain_error <> out_of_range /\
   binary_set.invalid_capacity <> binary_set.capacity_mismatch /\
   binary_set.invalid_capacity <> unexpected_capacity).
Proof.
  split; [|split; [|split; [|split; [|split; [|split]]]]].
  - split; [exact add_throw|]. split; [exact remove_throw|].
    split; [intros f other s x s' H; now destruct (assign_op_throw _ _ _ _ _ H)|].
    split; [intros s x s' H; exfalso; now apply (fill_no_throw s x s')|].
    split; [exact searcher_add_throw|exact searcher_remove_throw].
  - reflexivity.
  - intros s other H. unfold binary_set.capacity in H.
    unfold binary_set.and_, binary_set.or_, binary_set.sub, binary_set.and_assign,
      binary_set.or_assign, binary_set.sub_assign.
    rewrite !copy_op_mismatch, !assign_op_mismatch by assumption.
    unfold binary_set.eq, binary_set.neq, binary_set.intersects,
      binary_set.contains_set.
    rewrite pair_mismatch by assumption. cbn [obind]. repeat split.
  - intros value bs s H.
    now rewrite add_mismatch, remove_mismatch, find_subsets_mismatch.
  - intros e s H. unfold binary_set.capacity in H.
    rewrite add_eq, remove_eq. unfold binary_set.index, binary_set.sparse.
    rewrite !contains_domain by assumption. rewrite H. cbn. repeat split.
  - intros e s H0 H. unfold binary_set.capacity in *.
    rewrite add_eq, remove_eq. unfold binary_set.index.
    rewrite !contains_range by assumption.
    destruct (Z.eqb_spec (binary_set.capacity_ s) 0); [contradiction|].
    destruct (Z.leb_spec (binary_set.capacity_ s) e); [|lia]. repeat split.
  - repeat split; discriminate.
Qed.

(** C7 as stated fails: constructing with capacity 0 and combining sets of
    different capacities are reported by exceptions of one type. *)
Lemma failures_counterexample :
  exists x y,
    binary_set.make 0 false = Throw x /\
    binary_set.and_ (binary_set.mk 8 0 [0]) (binary_set.mk 16 0 [0; 0]) = Throw y /\
    exn_type x = exn_type y.
Proof.
  exists binary_set.invalid_capacity, binary_set.capacity_mismatch.
  repeat split.
Qed.

(** ** A default-constructed set *)

(** C8: on a default-constructed set the complement throws
    [std::invalid_argument], [add], [remove], [contains] and [sparse] throw
    [std::domain_error], and [clear], [fill], [empty] and [size] succeed. *)
Theorem default_set_calls :
  binary_set.not_ binary_set.default = Throw binary_set.invalid_capacity /\
  exn_type binary_set.invalid_capacity = invalid_argument /\
  (forall e, binary_set.add e binary_set.default =
             (Throw binary_set.domain_empty, binary_set.default)) /\
  (forall e, binary_set.remove e binary_set.default =
             (Throw binary_set.domain_empty, binary_set.default)) /\
  (forall e, binary_set.contains e binary_set.default =
             Throw binary_set.domain_empty) /\
  binary_set.sparse binary_set.default = Throw binary_set.domain_empty /\
  exn_type binary_set.domain_empty = domain_error /\
  binary_set.clear binary_set.default = binary_set.default /\
  binary_set.fill binary_set.default = (Ok tt, binary_set.default) /\
  binary_set.empty binary_set.default = true /\
  binary_set.size binary_set.default = 0.
Proof. repeat split. Qed.
(** ** An index of capacity 0 *)

Lemma zero_capacity_calls s root value bs :
  capacity_ s = 0 -> root_ s = Some root -> binary_set.capacity bs = 0 ->
  bs_searcher.add value bs s =
    (Ok tt, mk (Some (with_values (values root ++ [value]) root)) 0) /\
  bs_searcher.find_subsets bs s = Ok (values root) /\
  match find value (values root) with
  | Some k =>
      bs_searcher.remove value bs s =
        (Ok true, mk (Some (with_values (swap_pop k (values root)) root)) 0)
  | None => bs_searcher.remove value bs s = (Ok false, s)
  end.
Proof.
  intros Hc Hr Hb. repeat split.
  - unfold bs_searcher.add, bind, query, validate_capacity, from_root.
    rewrite Hc, Hb, Hr. reflexivity.
  - unfold bs_searcher.find_subsets, validate_capacity.
    rewrite Hc, Hb, Hr. cbn. now rewrite app_nil_r.
  - unfold bs_searcher.remove, bind, query, validate_capacity.
    rewrite Hc, Hb, Hr. cbn.
    destruct (find value (values root)) as [k|]; [|reflexivity].
    now destruct (is_dead (with_values (swap_pop k (values root)) root)).
Qed.

(** C10: an index of capacity 0 works with default-constructed sets: after
    any sequence of calls its root holds the values stored, [add] appends to
    that list, [find_subsets] returns it, and [remove] takes the first match
    out of it; none of them fails. *)
Theorem zero_capacity_index ops value :
  Forall (fun o => backed (op_set o)) ops ->
  exists root,
    run_all ops (bs_searcher.make 0) = mk (Some root) 0 /\
    Permutation (values root) (map snd (stored 0 ops)) /\
    bs_searcher.add value binary_set.default (mk (Some root) 0) =
      (Ok tt, mk (Some (with_values (values root ++ [value]) root)) 0) /\
    bs_searcher.find_subsets binary_set.default (mk (Some root) 0) =
      Ok (values root) /\
    match find value (values root) with
    | Some k =>
        first_match value (values root) k /\
        bs_searcher.remove value binary_set.default (mk (Some root) 0) =
          (Ok true, mk (Some (with_values (swap_pop k (values root)) root)) 0)
    | None =>
        bs_searcher.remove value binary_set.default (mk (Some root) 0) =
          (Ok false, mk (Some root) 0)
    end.
Proof.
  intros Hops.
  destruct (index_inv_built 0 ops Hops) as [Hcap He (root & Hr & _ & _ & Hperm)].
  exists root. split.
  { destruct (run_all ops (bs_searcher.make 0)) as [r c]. cbn in *. congruence. }
  split.
  { apply (Permutation_map snd) in Hperm. cbn in Hperm.
    rewrite !map_map in Hperm. cbn in Hperm. now rewrite map_id in Hperm. }
  destruct (zero_capacity_calls (mk (Some root) 0) root value binary_set.default
              eq_refl eq_refl eq_refl) as (A & F & R).
  split; [exact A|]. split; [exact F|].
  destruct (find value (values root)) as [k|] eqn:E; [|exact R].
  split; [now apply find_first_match|exact R].
Qed.

(** ** The theorems at concrete inputs *)

Lemma sample_ops_backed : Forall (fun o => backed (op_set o)) sample_ops.
Proof.
  unfold sample_ops.
  repeat (apply Forall_cons; [unfold backed; cbn; lia|]). apply Forall_nil.
Defined.

Lemma find_subsets_correct_witness :
  Forall (fun o => backed (op_set o)) sample_ops /\
  backed set_0 /\ binary_set.capacity set_0 = 2 /\
  exists res,
    bs_searcher.find_subsets set_0 (run_all sample_ops (bs_searcher.make 2)) =
      Ok res /\
    Permutation res (stored_subsets 2 sample_ops set_0).
Proof.
  assert (Hq : backed set_0) by (unfold backed; cbn; lia).
  split; [exact sample_ops_backed|]. split; [exact Hq|]. split; [reflexivity|].
  exact (find_subsets_correct 2 sample_ops set_0 sample_ops_backed Hq eq_refl).
Defined.

Lemma no_dead_node_remains_witness :
  Forall (fun o => backed (op_set o)) sample_ops /\
  exists root,
    root_ (run_all sample_ops (bs_searcher.make 2)) = Some root /\
    (forall path m,
        path <> [] -> lookup path root = Some m -> is_dead m = false) /\
    (forall bs,
        backed bs -> binary_set.capacity bs = 2 -> 0 < 2 ->
        (forall e, In e (stored 2 sample_ops) -> same_elements (fst e) bs = false) ->
        lookup (elements bs) root = None).
Proof.
  split; [exact sample_ops_backed|].
  destruct (no_dead_node_remains 2 sample_ops sample_ops_backed)
    as (root & R & A & G).
  exists root. split; [exact R|]. split; [exact A|].
  intros bs Hb Hc Hp Hn. exact (proj1 (G bs Hb Hc Hp Hn)).
Defined.

Lemma remove_first_match_witness :
  root_ (mk (Some sample_root) 2) = Some sample_root /\
  capacity_ (mk (Some sample_root) 2) = binary_set.capacity set_0 /\
  backed set_0 /\
  exists k root',
    first_match 5 [5; 7; 5] k /\
    bs_searcher.remove 5 set_0 (mk (Some sample_root) 2) =
      (Ok true, mk (Some root') 2) /\
    leaf_values (elements set_0) root' = swap_pop k [5; 7; 5] /\
    count_occ Z.eq_dec (leaf_values (elements set_0) root') 5 = 1%nat.
Proof.
  assert (Hq : backed set_0) by (unfold backed; cbn; lia).
  split; [reflexivity|]. split; [reflexivity|]. split; [exact Hq|].
  pose proof (remove_first_match (mk (Some sample_root) 2) sample_root 5 set_0
                eq_refl eq_refl Hq) as H.
  cbn [lookup] in H.
  change (lookup (elements set_0) sample_root)
    with (Some (mk_treenode [5; 7; 5] None None)) in H.
  destruct H as [_ H]. destruct (H (or_introl eq_refl)) as (k & root' & F & R & V & _ & C & _).
  exists k, root'. repeat split; try assumption; apply F.
Defined.

Lemma remove_false_unchanged_witness :
  bs_searcher.remove 9 set_0 (mk (Some sample_root) 2) =
    (Ok false, mk (Some sample_root) 2) /\
  mk (Some sample_root) 2 = mk (Some sample_root) 2.
Proof.
  split; [reflexivity|].
  exact (remove_false_unchanged 9 set_0 (mk (Some sample_root) 2)
           (mk (Some sample_root) 2) eq_refl).
Defined.

Lemma sample_ops_0_backed : Forall (fun o => backed (op_set o)) sample_ops_0.
Proof.
  unfold sample_ops_0.
  repeat (apply Forall_cons; [unfold backed; cbn; lia|]). apply Forall_nil.
Defined.

Lemma zero_capacity_index_witness :
  Forall (fun o => backed (op_set o)) sample_ops_0 /\
  exists root,
    run_all sample_ops_0 (bs_searcher.make 0) = mk (Some root) 0 /\
    Permutation (values root) (map snd (stored 0 sample_ops_0)) /\
    bs_searcher.add 9 binary_set.default (mk (Some root) 0) =
      (Ok tt, mk (Some (with_values (values root ++ [9]) root)) 0) /\
    bs_searcher.find_subsets binary_set.default (mk (Some root) 0) =
      Ok (values root).
Proof.
  split; [exact sample_ops_0_backed|].
  destruct (zero_capacity_index sample_ops_0 9 sample_ops_0_backed)
    as (root & E & P & A & F & _).
  exists root. repeat split; assumption.
Defined.

Lemma set_none_reachable : reachable set_none.
Proof. apply (reach_make 8 false); [lia|reflexivity]. Defined.

Lemma set_3_reachable : reachable set_3.
Proof.
  apply (reach_add 3 set_none true); [exact set_none_reachable|lia|reflexivity].
Defined.

Lemma size_counts_elements_witness :
  reachable set_3 /\
  binary_set.size set_3 = count_contains set_3 /\
  binary_set.size set_3 = popcount (binary_set.set_ set_3).
Proof.
  split; [exact set_3_reachable|].
  destruct (size_counts_elements set_3 set_3_reachable) as (A & B & _).
  split; assumption.
Defined.

Lemma add_remove_round_trip_witness :
  reachable set_none /\ backed set_none /\ 0 <= 3 < binary_set.capacity set_none /\
  exists b s1 s2,
    binary_set.add 3 set_none = (Ok b, s1) /\
    binary_set.remove 3 s1 = (Ok true, s2) /\
    binary_set.contains 3 s2 = Ok false /\
    s2 = set_none.
Proof.
  assert (Hb : backed set_none) by (unfold backed; cbn; lia).
  assert (He : 0 <= 3 < binary_set.capacity set_none) by (cbn; lia).
  split; [exact set_none_reachable|]. split; [exact Hb|]. split; [exact He|].
  destruct (add_remove_round_trip set_none 3 set_none_reachable Hb He)
    as (b & s1 & s2 & A & R & C & N & _).
  exists b, s1, s2. repeat split; try assumption. now apply N.
Defined.

Lemma de_morgan_positive_capacity_witness :
  reachable set_3 /\ reachable set_none /\ backed set_3 /\
  binary_set.capacity set_3 = binary_set.capacity set_none /\
  0 < binary_set.capacity set_3 /\
  de_morgan set_3 set_none = Ok true.
Proof.
  assert (Hb : backed set_3) by (unfold backed; cbn; lia).
  assert (Hp : 0 < binary_set.capacity set_3) by (cbn; lia).
  split; [exact set_3_reachable|]. split; [exact set_none_reachable|].
  split; [exact Hb|]. split; [reflexivity|]. split; [exact Hp|].
  exact (de_morgan_positive_capacity set_3 set_none set_3_reachable
           set_none_reachable Hb eq_refl Hp).
Defined.

Lemma failures_atomic_and_typed_witness :
  binary_set.capacity set_none <> 0 /\ binary_set.capacity set_none <= 9 /\
  binary_set.add 9 set_none = (Throw binary_set.element_out_of_range, set_none) /\
  (binary_set.capacity set_none <> binary_set.capacity set_0 /\
   binary_set.and_assign set_0 set_none =
     (Throw binary_set.capacity_mismatch, set_none)).
Proof.
  assert (H0 : binary_set.capacity set_none <> 0) by (cbn; lia).
  assert (H9 : binary_set.capacity set_none <= 9) by (cbn; lia).
  assert (Hm : binary_set.capacity set_none <> binary_set.capacity set_0)
    by (cbn; lia).
  destruct failures_atomic_and_typed as (_ & _ & M & _ & _ & R & _).
  split; [exact H0|]. split; [exact H9|].
  split; [exact (proj1 (R 9 set_none H0 H9))|].
  split; [exact Hm|]. apply (M set_none set_0 Hm).
Defined.

(** ** The scenarios of the test suite, evaluated *)

(** [BSSearcherTest.AddAndFind]: the expected values, before sorting. *)
Example test_add_and_find :
  bs_searcher.find_subsets (set_of 8 [1; 3; 4; 6])
    (run_all [OpAdd 101 (set_of 8 [1; 3]); OpAdd 102 (set_of 8 [1]);
              OpAdd 103 (set_of 8 [1; 3; 5])] (bs_searcher.make 8)) =
  Ok [102; 101].
Proof. reflexivity. Qed.

(** [BSSearcherTest.RemoveAndPrune]: only the root is left. *)
Example test_remove_and_prune :
  run_all [OpAdd 1 (set_of 4 [1]); OpAdd 2 (set_of 4 [1; 2]);
           OpRemove 1 (set_of 4 [1]); OpRemove 2 (set_of 4 [1; 2])]
          (bs_searcher.make 4) =
  bs_searcher.make 4.
Proof. reflexivity. Qed.

(** [BSSearcherTest.Duplicates]: one of two equal entries is left. *)
Example test_duplicates :
  bs_searcher.find_subsets (set_of 4 [1])
    (run_all [OpAdd 1 (set_of 4 [1]); OpAdd 1 (set_of 4 [1]);
              OpRemove 1 (set_of 4 [1])] (bs_searcher.make 4)) =
  Ok [1].
Proof. reflexivity. Qed.

(** [BSSearcherTest.RemoveNonExistent]. *)
Example test_remove_non_existent :
  fst (bs_searcher.remove 2 (set_of 4 [1])
         (run_all [OpAdd 1 (set_of 4 [1])] (bs_searcher.make 4))) = Ok false /\
  fst (bs_searcher.remove 1 (set_of 4 [2])
         (run_all [OpAdd 1 (set_of 4 [1])] (bs_searcher.make 4))) = Ok false.
Proof. split; reflexivity. Qed.

(** [BinarySetTest.ConstructorWithCapacityNotMultipleOf8]. *)
Example test_filled_13 :
  binary_set.make 13 true = Ok (binary_set.mk 13 13 [255; 31]).
Proof. reflexivity. Qed.

(** [BinarySetTest.Complement] and [ComplementNotMultipleOf8]. *)
Example test_complement :
  binary_set.not_ (set_of 10 [1; 3; 5]) = Ok (binary_set.mk 10 7 [213; 3]) /\
  binary_set.not_ (set_of 13 [1; 3; 5]) = Ok (binary_set.mk 13 10 [213; 31]).
Proof. split; reflexivity. Qed.

(** [BinarySetTest.Intersection], [Union] and [Difference]. *)
Example test_boolean_operations :
  binary_set.and_ (set_of 10 [1; 3; 5]) (set_of 10 [3; 5; 7]) =
    Ok (set_of 10 [3; 5]) /\
  binary_set.or_ (set_of 10 [1; 3; 5]) (set_of 10 [3; 5; 7]) =
    Ok (set_of 10 [1; 3; 5; 7]) /\
  binary_set.sub (set_of 10 [1; 3; 5]) (set_of 10 [3; 5; 7]) =
    Ok (set_of 10 [1]).
Proof. repeat split; reflexivity. Qed.

(** [BinarySetTest.Sparse]. *)
Example test_sparse :
  binary_set.sparse (set_of 10 [7; 1; 5; 3]) = Ok [1; 3; 5; 7].
Proof. reflexivity. Qed.

(** [BinarySetTest.StringOperator], and a filled set of capacity 13: its
    text, its size and the size of its complement. *)
Example test_string :
  binary_set.to_string (set_of 10 [0; 3; 9]) = Ok "[X--X-----X]"%string /\
  binary_set.to_string (binary_set.mk 13 13 [255; 31]) =
    Ok "[XXXXXXXXXXXXX]"%string /\
  binary_set.not_ (binary_set.mk 13 13 [255; 31]) =
    Ok (binary_set.mk 13 0 [0; 0]).
Proof. repeat split; reflexivity. Qed.

(** * Further properties *)

(** ** Sets as their elements *)

Lemma contains_member s i :
  backed s -> 0 <= i < binary_set.capacity s ->
  binary_set.contains i s = Ok (member s i).
Proof. intros B Hi. exact (backed_index s i B Hi). Qed.

Lemma member_out s i :
  ~ (0 <= i < binary_set.capacity_ s) -> 0 <= binary_set.capacity_ s ->
  member s i = false.
Proof.
  intros Hi Hc. unfold member, binary_set.contains, binary_set.validate_element.
  destruct (Z.eqb_spec (binary_set.capacity_ s) 0); [reflexivity|].
  destruct (Z.leb_spec (binary_set.capacity_ s) i); [reflexivity|].
  cbn [obind]. rewrite vec_get_out; [reflexivity|].
  intros [H0 _]. assert (i < 0) by lia.
  pose proof (Z.div_lt_upper_bound i 8 0 ltac:(lia) ltac:(lia)). lia.
Qed.

(** A set under the representation invariant is determined by its capacity
    and its elements. *)
Lemma inv_ext a b :
  inv a -> inv b -> binary_set.capacity_ a = binary_set.capacity_ b ->
  (forall i, 0 <= i < binary_set.capacity_ a -> member a i = member b i) ->
  a = b.
Proof.
  intros Ia Ib Hc Hm.
  pose proof (inv_same_length a b Ia Ib Hc) as Hl.
  assert (Hv : binary_set.set_ a = binary_set.set_ b).
  { apply vec_ext; [exact Hl|exact (inv_bytes a Ia)|exact (inv_bytes b Ib)|].
    intros i Hi.
    destruct (Z.lt_ge_cases i (binary_set.capacity_ a)) as [Hlt|Hge].
    - rewrite <- !member_bit by lia. apply Hm. lia.
    - rewrite (inv_pad a Ia) by lia.
      rewrite (inv_pad b Ib); [reflexivity|]. unfold vec_size in *. lia. }
  pose proof (inv_size a Ia) as Sa. pose proof (inv_size b Ib) as Sb.
  destruct a, b. cbn in *. congruence.
Qed.

Lemma cnt_zero_inv p n :
  cnt p n = 0 -> forall i, 0 <= i < n -> p i = false.
Proof.
  unfold cnt. intros H i Hi.
  destruct (p i) eqn:E; [|reflexivity]. exfalso.
  assert (In i (filter p (range n))) as Hin
    by (apply filter_In; split; [now apply In_range|exact E]).
  destruct (filter p (range n)); [contradiction|cbn in H; lia].
Qed.

Lemma cnt_negb p n : 0 <= n -> cnt (fun i => negb (p i)) n = n - cnt p n.
Proof.
  intros Hn. pattern n. apply natlike_ind; [| |exact Hn].
  - now rewrite !cnt_nonpos by lia.
  - intros x Hx IH. unfold Z.succ. rewrite !cnt_succ by lia.
    destruct (p x); cbn [negb]; lia.
Qed.

Lemma cnt_full_inv p n :
  0 <= n -> cnt p n = n -> forall i, 0 <= i < n -> p i = true.
Proof.
  intros Hn H i Hi. pose proof (cnt_negb p n Hn) as N. rewrite H in N.
  replace (n - n) with 0 in N by lia.
  pose proof (cnt_zero_inv _ _ N i Hi) as F. cbv beta in F.
  now destruct (p i).
Qed.

Lemma cnt_full p n :
  (forall i, 0 <= i < n -> p i = true) -> 0 <= n -> cnt p n = n.
Proof.
  intros H Hn. rewrite (cnt_ext p (fun i => i <? n)).
  - apply cnt_below. lia.
  - intros i Hi. rewrite (H i Hi). symmetry. apply Z.ltb_lt. lia.
Qed.

Lemma inv_size_cnt s :
  inv s -> binary_set.size_ s = cnt (member s) (binary_set.capacity_ s).
Proof. intros I. exact (inv_size_count s I). Qed.

(** *** The elements after each operation *)

Lemma member_mk_bit c n v i :
  0 <= i < c -> member (binary_set.mk c n v) i = bit v i.
Proof. intros Hi. now rewrite member_bit. Qed.

Lemma member_combined f fb other s i :
  bitwise f fb -> inv s -> inv other ->
  binary_set.capacity_ s = binary_set.capacity_ other ->
  0 <= i < binary_set.capacity_ s ->
  member (combined f other s) i = fb (member s i) (member other i).
Proof.
  intros Hf Is Io Hc Hi. unfold combined.
  rewrite member_mk_bit by assumption. rewrite !member_bit by lia.
  pose proof (inv_same_length s other Is Io Hc) as Hl.
  destruct (Z.lt_ge_cases i (8 * vec_size (binary_set.set_ s))) as [Hlt|Hge].
  - apply (bit_zip_with f fb); [exact Hf|exact Hl|lia].
  - rewrite !bit_out.
    + symmetry. apply Hf.
    + unfold vec_size in *. lia.
    + exact Hge.
    + unfold vec_size. rewrite zip_with_length by exact Hl.
      unfold vec_size in Hge. lia.
Qed.

Lemma combined_capacity f other s :
  binary_set.capacity_ (combined f other s) = binary_set.capacity_ s.
Proof. reflexivity. Qed.

Lemma complement_ok s :
  inv s -> backed s -> 0 < binary_set.capacity_ s ->
  let z := complement_store (binary_set.capacity_ s) (binary_set.set_ s) in
  let r := binary_set.mk (binary_set.capacity_ s) (popcount z) z in
  binary_set.not_ s = Ok r /\ inv r /\
  forall i, 0 <= i < binary_set.capacity_ s -> member r i = negb (member s i).
Proof.
  intros I [_ B] Hc z r.
  assert (L : 0 < vec_size (binary_set.set_ s)) by lia.
  split; [|split].
  - rewrite complement_eq by exact I.
    destruct (Z.eqb_spec (binary_set.capacity_ s) 0); [lia|].
    destruct (Z.eqb_spec (vec_size (binary_set.set_ s)) 0); [lia|].
    now rewrite andb_false_r.
  - apply inv_complement; [exact I|lia|now left].
  - intros i Hi. unfold r. rewrite member_mk_bit by exact Hi.
    rewrite member_bit by exact Hi. unfold z.
    pose proof (inv_capacity s I) as C. change (2 ^ 32) with 4294967296 in C.
    rewrite bit_complement; [|lia|exact (inv_length s I)|now left|lia].
    destruct (Z.ltb_spec i (binary_set.capacity_ s)); [|lia].
    apply andb_true_r.
Qed.

(** ** The stores that the constructor, [fill] and [clear] leave *)

Lemma backed_no_wrap s :
  inv s -> backed s -> 0 < binary_set.capacity_ s ->
  binary_set.capacity_ s + 7 < 4294967296 /\
  0 < vec_size (binary_set.set_ s) /\
  vec_size (binary_set.set_ s) = (binary_set.capacity_ s + 7) / 8.
Proof.
  intros I [_ B] Hc. pose proof (inv_capacity s I) as C.
  pose proof (inv_length s I) as L. change (2 ^ 32) with 4294967296 in C.
  destruct (Z.lt_ge_cases (binary_set.capacity_ s + 7) 4294967296) as [Hs|Hw].
  - rewrite nbytes_small in L by lia. repeat split; [exact Hs|lia|exact L].
  - destruct (nbytes_wrap (binary_set.capacity_ s) C Hw) as [Z0 _]. lia.
Qed.

(** The store that the filling constructor and [fill] both leave. *)
Lemma filled_store_ok c k :
  0 < c -> c + 7 < 4294967296 -> Z.of_nat k = (c + 7) / 8 ->
  exists v,
    (if negb (c mod 8 =? 0)
     then binary_set.mask_last (binary_set.last_mask c)
                               (repeat binary_set.all_ones k)
     else Ok (repeat binary_set.all_ones k)) = Ok v /\
    inv (binary_set.mk c c v).
Proof.
  intros Hc Hs Hk.
  assert (Hk' : Z.of_nat k = u32 (c + 7) / 8) by (rewrite nbytes_small; lia).
  pose proof (inv_filled c k ltac:(change (2 ^ 32) with 4294967296; lia) Hk') as F.
  assert (Kpos : 0 < Z.of_nat k).
  { rewrite Hk. apply Z.div_str_pos. lia. }
  assert (Ksmall : Z.of_nat k < 4294967296).
  { rewrite Hk. apply Z.div_lt_upper_bound; lia. }
  destruct (negb (c mod 8 =? 0)).
  - assert (Hv : 0 < vec_size (repeat binary_set.all_ones k) < 4294967296)
      by (rewrite vec_size_repeat; lia).
    rewrite (mask_last_eq _ _ Hv) in F. rewrite (mask_last_eq _ _ Hv).
    eexists. split; [reflexivity|exact F].
  - eexists. split; [reflexivity|exact F].
Qed.

Lemma make_filled c :
  0 < c -> c + 7 < 4294967296 ->
  exists v, binary_set.make c true = Ok (binary_set.mk c c v) /\
            inv (binary_set.mk c c v).
Proof.
  intros Hc Hs. unfold binary_set.make.
  destruct (Z.eqb_spec c 0); [lia|]. cbn [andb].
  assert (Hk : Z.of_nat (Z.to_nat (u32 (c + 7) / 8)) = (c + 7) / 8).
  { rewrite nbytes_small by lia. rewrite Z2Nat.id; [reflexivity|].
    apply Z.div_pos; lia. }
  destruct (filled_store_ok c _ Hc Hs Hk) as (v & E & I).
  exists v. split; [|exact I].
  destruct (negb (c mod 8 =? 0)); [rewrite E; reflexivity|].
  now injection E as ->.
Qed.

Lemma make_cleared c :
  0 < c -> c + 7 < 4294967296 ->
  binary_set.make c false =
    Ok (binary_set.mk c 0 (repeat 0 (Z.to_nat ((c + 7) / 8)))) /\
  inv (binary_set.mk c 0 (repeat 0 (Z.to_nat ((c + 7) / 8)))).
Proof.
  intros Hc Hs. unfold binary_set.make.
  destruct (Z.eqb_spec c 0); [lia|]. cbn [andb].
  rewrite nbytes_small by lia. split; [reflexivity|].
  apply inv_zeros; [change (2 ^ 32) with 4294967296; lia|].
  rewrite nbytes_small by lia. rewrite Z2Nat.id; [reflexivity|].
  apply Z.div_pos; lia.
Qed.

Lemma fill_filled s :
  inv s -> backed s ->
  exists v,
    binary_set.fill s =
      (Ok tt, binary_set.mk (binary_set.capacity_ s) (binary_set.capacity_ s) v) /\
    inv (binary_set.mk (binary_set.capacity_ s) (binary_set.capacity_ s) v) /\
    (0 < binary_set.capacity_ s ->
     binary_set.make (binary_set.capacity_ s) true =
       Ok (binary_set.mk (binary_set.capacity_ s) (binary_set.capacity_ s) v)).
Proof.
  intros I B. pose proof (inv_capacity s I) as C.
  unfold binary_set.fill, bind, modify, query, try_modify, ret.
  cbv beta. unfold binary_set.with_set, binary_set.with_size.
  cbn [binary_set.capacity_ binary_set.set_ binary_set.size_].
  rewrite map_const.
  destruct (Z.eqb_spec (binary_set.capacity_ s) 0) as [E|E].
  - rewrite andb_false_r. pose proof (inv_length s I) as L. rewrite E in *.
    change (u32 (0 + 7) / 8) with 0 in L.
    replace (List.length (binary_set.set_ s)) with O by (unfold vec_size in L; lia).
    exists []. cbn [repeat]. split; [reflexivity|]. split; [exact inv_default|lia].
  - rewrite andb_true_r.
    destruct (backed_no_wrap s I B ltac:(lia)) as (Hs & Lp & L).
    destruct (filled_store_ok (binary_set.capacity_ s)
                (List.length (binary_set.set_ s)) ltac:(lia) Hs L) as (v & Ev & Iv).
    exists v. split; [|split; [exact Iv|]].
    + destruct (negb (binary_set.capacity_ s mod 8 =? 0)).
      * cbn [binary_set.capacity_ binary_set.set_ binary_set.size_].
        rewrite Ev. reflexivity.
      * now injection Ev as ->.
    + intros Hc. unfold binary_set.make.
      destruct (Z.eqb_spec (binary_set.capacity_ s) 0); [lia|]. cbn [andb].
      rewrite nbytes_small by lia.
      replace (Z.to_nat ((binary_set.capacity_ s + 7) / 8))
        with (List.length (binary_set.set_ s)) by (unfold vec_size in L; lia).
      destruct (negb (binary_set.capacity_ s mod 8 =? 0)).
      * rewrite Ev. reflexivity.
      * now injection Ev as ->.
Qed.

Lemma full_members s :
  inv s -> binary_set.size_ s = binary_set.capacity_ s ->
  forall i, 0 <= i < binary_set.capacity_ s -> member s i = true.
Proof.
  intros I E. rewrite (inv_size_cnt s I) in E.
  apply cnt_full_inv; [exact (proj1 (inv_capacity s I))|exact E].
Qed.

Lemma clear_members s i : member (binary_set.clear s) i = false.
Proof.
  unfold member, binary_set.contains, binary_set.clear, binary_set.validate_element.
  cbn [binary_set.capacity_ binary_set.set_].
  destruct (binary_set.capacity_ s =? 0); [reflexivity|].
  destruct (binary_set.capacity_ s <=? i); [reflexivity|]. cbn [obind].
  unfold vec_get. destruct (in_bounds _ _); [|reflexivity]. cbn [obind].
  rewrite map_const.
  assert (N : nth (Z.to_nat (i / 8)) (repeat 0 (List.length (binary_set.set_ s))) 0 = 0).
  { destruct (Nat.lt_ge_cases (Z.to_nat (i / 8)) (List.length (binary_set.set_ s))).
    - now apply nth_repeat_lt.
    - apply nth_overflow. now rewrite repeat_length. }
  now rewrite N.
Qed.

Lemma empty_zero_bytes v :
  forallb (fun byte => byte =? 0) v = true <-> v = repeat 0 (List.length v).
Proof.
  induction v as [|b v IH]; cbn [forallb List.length repeat]; [tauto|].
  rewrite andb_true_iff, Z.eqb_eq, IH. split.
  - intros [-> E]. now rewrite <- E.
  - intros [= -> E]. split; [reflexivity|exact E].
Qed.

Lemma popcount_zero_store v :
  Forall is_byte v -> popcount v = 0 -> v = repeat 0 (List.length v).
Proof.
  intros Hb P. apply vec_ext.
  - now rewrite repeat_length.
  - exact Hb.
  - apply Forall_repeat_byte. unfold is_byte. lia.
  - intros i Hi. rewrite (cnt_zero_inv _ _ P i Hi).
    unfold vec_size in Hi. rewrite bit_repeat by lia. symmetry. apply Z.bits_0.
Qed.

Lemma popcount_repeat_zero k : popcount (repeat 0 k) = 0.
Proof.
  unfold popcount. apply cnt_zero. intros i Hi.
  rewrite vec_size_repeat in Hi. rewrite bit_repeat by lia. apply Z.bits_0.
Qed.

Lemma empty_size_zero s :
  inv s -> binary_set.empty s = true <-> binary_set.size_ s = 0.
Proof.
  intros I. unfold binary_set.empty. rewrite empty_zero_bytes, (inv_size s I).
  split.
  - intros E. rewrite E. apply popcount_repeat_zero.
  - apply popcount_zero_store. exact (inv_bytes s I).
Qed.

Lemma vec_eqb_eq v w : binary_set.vec_eqb v w = true <-> v = w.
Proof.
  revert w. induction v as [|a v IH]; intros [|b w]; cbn [binary_set.vec_eqb];
    try (split; [discriminate|discriminate]); [tauto|].
  rewrite andb_true_iff, Z.eqb_eq, IH. split.
  - intros [-> ->]. reflexivity.
  - intros [= -> ->]. now split.
Qed.

(** ** Elements one at a time *)

(** X1: [add(e)] on an element index below the capacity returns [true]
    exactly when [e] was absent; afterwards [e] is an element, every other
    index is an element exactly when it was, the capacity is the same and
    the size has grown by one when [true] was returned; when [false] was
    returned the set is untouched. *)
Theorem add_puts_element s e :
  reachable s -> backed s -> 0 <= e < binary_set.capacity s ->
  exists s',
    binary_set.add e s = (Ok (negb (member s e)), s') /\
    binary_set.capacity s' = binary_set.capacity s /\
    (forall i, 0 <= i < binary_set.capacity s ->
               binary_set.contains i s' = Ok ((i =? e) || member s i)) /\
    binary_set.size s' = binary_set.size s + (if member s e then 0 else 1) /\
    (member s e = true -> s' = s).
Proof.
  intros R B He. pose proof (reachable_inv s R) as I.
  unfold binary_set.capacity, binary_set.size in *.
  destruct B as [Bc B].
  assert (He8 : e < 8 * vec_size (binary_set.set_ s)) by lia.
  rewrite (member_bit s e He).
  destruct (add_cases e s (proj1 He)) as
    [[C _]|[(_ & C & _)|[(_ & C & _)|[(_ & _ & Bt & A)|(_ & _ & Bt & A)]]]];
    try lia; rewrite Bt, A; cbn [negb].
  - exists s. split; [reflexivity|]. split; [reflexivity|]. split; [|split].
    + intros i Hi. rewrite contains_bit by lia. rewrite <- member_bit by lia.
      destruct (Z.eqb_spec i e) as [->|]; [|reflexivity].
      now rewrite (member_bit s e He), Bt.
    + lia.
    + reflexivity.
  - destruct (inv_set_bit s e I He He8 Bt) as [U _]. rewrite U.
    eexists. split; [reflexivity|]. cbn [binary_set.capacity_ binary_set.size_].
    split; [reflexivity|]. split; [|split].
    + intros i Hi.
      rewrite contains_bit
        by (cbn [binary_set.capacity_ binary_set.set_]; rewrite ?set_bit_length; lia).
      cbn [binary_set.set_]. rewrite bit_set_bit by lia.
      rewrite <- member_bit by lia. now destruct (i =? e).
    + reflexivity.
    + discriminate.
Qed.

(** X2: [remove(e)] on an element index below the capacity returns [true]
    exactly when [e] was present; afterwards [e] is not an element, every
    other index is an element exactly when it was, the capacity is the same
    and the size has dropped by one when [true] was returned; when [false]
    was returned the set is untouched. *)
Theorem remove_takes_element s e :
  reachable s -> backed s -> 0 <= e < binary_set.capacity s ->
  exists s',
    binary_set.remove e s = (Ok (member s e), s') /\
    binary_set.capacity s' = binary_set.capacity s /\
    (forall i, 0 <= i < binary_set.capacity s ->
               binary_set.contains i s' = Ok (negb (i =? e) && member s i)) /\
    binary_set.size s' = binary_set.size s - (if member s e then 1 else 0) /\
    (member s e = false -> s' = s).
Proof.
  intros R B He. pose proof (reachable_inv s R) as I.
  unfold binary_set.capacity, binary_set.size in *.
  destruct B as [Bc B].
  assert (He8 : e < 8 * vec_size (binary_set.set_ s)) by lia.
  rewrite (member_bit s e He).
  destruct (remove_cases e s (proj1 He)) as
    [[C _]|[(_ & C & _)|[(_ & C & _)|[(_ & _ & Bt & A)|(_ & _ & Bt & A)]]]];
    try lia; rewrite Bt, A.
  - exists s. split; [reflexivity|]. split; [reflexivity|]. split; [|split].
    + intros i Hi. rewrite contains_bit by lia. rewrite <- member_bit by lia.
      destruct (Z.eqb_spec i e) as [->|]; [|reflexivity].
      now rewrite (member_bit s e He), Bt.
    + lia.
    + reflexivity.
  - destruct (inv_clear_bit s e I He He8 Bt) as [U _]. rewrite U.
    eexists. split; [reflexivity|]. cbn [binary_set.capacity_ binary_set.size_].
    split; [reflexivity|]. split; [|split].
    + intros i Hi.
      rewrite contains_bit
        by (cbn [binary_set.capacity_ binary_set.set_]; rewrite ?clear_bit_length; lia).
      cbn [binary_set.set_]. rewrite bit_clear_bit by lia.
      rewrite <- member_bit by lia. now destruct (i =? e).
    + reflexivity.
    + discriminate.
Qed.

(** ** Construction, [clear] and [fill] *)

(** X3: the constructor with a capacity [c > 0] (for which [c + 7] does not
    wrap) returns a set of capacity [c] over [(c + 7) / 8] bytes in which
    every index below [c] is an element when [fill] is [true] and none is
    when it is [false], its size being [c] or [0]. *)
Theorem make_all_or_nothing c fill :
  0 < c -> c + 7 < 2 ^ 32 ->
  exists s,
    binary_set.make c fill = Ok s /\
    binary_set.capacity s = c /\
    binary_set.size s = (if fill then c else 0) /\
    vec_size (binary_set.set_ s) = (c + 7) / 8 /\
    (forall i, 0 <= i < c -> binary_set.contains i s = Ok fill) /\
    binary_set.empty s = negb fill.
Proof.
  intros Hc Hs. change (2 ^ 32) with 4294967296 in Hs.
  assert (exists s, binary_set.make c fill = Ok s /\ inv s /\
                    binary_set.capacity_ s = c /\
                    binary_set.size_ s = if fill then c else 0)
    as (s & E & I & C & Z).
  { destruct fill.
    - destruct (make_filled c Hc Hs) as (v & E & I). eauto.
    - destruct (make_cleared c Hc Hs) as (E & I). eauto. }
  assert (R : reachable s)
    by (apply (reach_make c fill); [change (2 ^ 32) with 4294967296; lia|exact E]).
  assert (B : backed s)
    by (apply reachable_backed; [exact R|unfold binary_set.capacity; rewrite C;
        change (2 ^ 32) with 4294967296; lia]).
  exists s. split; [exact E|]. split; [exact C|]. split; [exact Z|].
  destruct (backed_no_wrap s I B ltac:(lia)) as (_ & _ & L). rewrite C in L.
  split; [exact L|]. split.
  - intros i Hi.
    rewrite contains_member by (try exact B; unfold binary_set.capacity; lia).
    f_equal. destruct fill.
    + apply full_members; [exact I|congruence|lia].
    + assert (Z' : cnt (member s) (binary_set.capacity_ s) = 0)
        by (rewrite <- inv_size_cnt by exact I; exact Z).
      apply (cnt_zero_inv _ _ Z'). lia.
  - apply eq_true_iff_eq. rewrite (empty_size_zero s I), Z.
    destruct fill; cbn [negb]; split; try lia; try discriminate; reflexivity.
Qed.

(** X4: [clear()] leaves no element, size 0 and the capacity it had; a set
    of non-zero capacity is then the set the constructor builds. *)
Theorem clear_leaves_nothing s :
  reachable s -> backed s ->
  binary_set.capacity (binary_set.clear s) = binary_set.capacity s /\
  binary_set.size (binary_set.clear s) = 0 /\
  binary_set.empty (binary_set.clear s) = true /\
  (forall i, 0 <= i < binary_set.capacity s ->
             binary_set.contains i (binary_set.clear s) = Ok false) /\
  (0 < binary_set.capacity s ->
   binary_set.make (binary_set.capacity s) false = Ok (binary_set.clear s)).
Proof.
  intros R B. pose proof (reachable_inv s R) as I.
  unfold binary_set.capacity, binary_set.size.
  split; [reflexivity|]. split; [reflexivity|]. split; [|split].
  - apply (empty_size_zero _ (inv_clear s I)). reflexivity.
  - intros i Hi. rewrite contains_member.
    + now rewrite clear_members.
    + unfold backed, binary_set.clear in *.
      cbn [binary_set.capacity_ binary_set.set_]. unfold vec_size in *.
      now rewrite length_map.
    + exact Hi.
  - intros Hc. destruct (backed_no_wrap s I B Hc) as (Hs & _ & L).
    destruct (make_cleared (binary_set.capacity_ s) Hc Hs) as [E _].
    rewrite E. unfold binary_set.clear. rewrite map_const. do 3 f_equal.
    unfold vec_size in L. lia.
Qed.

(** X5: [fill()] makes every index below the capacity an element and the
    size equal to the capacity; a set of non-zero capacity is then the set
    the filling constructor builds. *)
Theorem fill_takes_everything s :
  reachable s -> backed s ->
  exists s',
    binary_set.fill s = (Ok tt, s') /\
    binary_set.capacity s' = binary_set.capacity s /\
    binary_set.size s' = binary_set.capacity s /\
    (forall i, 0 <= i < binary_set.capacity s ->
               binary_set.contains i s' = Ok true) /\
    (0 < binary_set.capacity s ->
     binary_set.make (binary_set.capacity s) true = Ok s').
Proof.
  intros R B. pose proof (reachable_inv s R) as I.
  destruct (fill_filled s I B) as (v & E & Iv & Mk).
  unfold binary_set.capacity, binary_set.size.
  eexists. split; [exact E|]. split; [reflexivity|]. split; [reflexivity|].
  split; [|exact Mk].
  intros i Hi. rewrite contains_member.
  - f_equal. apply full_members; [exact Iv|reflexivity|exact Hi].
  - pose proof (inv_length s I) as L. pose proof (inv_length _ Iv) as L'.
    cbn [binary_set.capacity_ binary_set.set_] in L'.
    unfold backed in *. cbn [binary_set.capacity_ binary_set.set_]. lia.
  - exact Hi.
Qed.

(** ** Bounds on the size *)

(** X6: the size of a set never exceeds its capacity, and it equals the
    capacity exactly when every index below the capacity is an element. *)
Theorem size_within_capacity s :
  reachable s ->
  0 <= binary_set.size s <= binary_set.capacity s /\
  (binary_set.size s = binary_set.capacity s <->
   forall i, 0 <= i < binary_set.capacity s -> member s i = true).
Proof.
  intros R. pose proof (reachable_inv s R) as I.
  unfold binary_set.size, binary_set.capacity.
  pose proof (inv_capacity s I) as C. rewrite (inv_size_cnt s I). split.
  - apply cnt_bounds. lia.
  - split.
    + intros E. apply cnt_full_inv; [lia|exact E].
    + intros H. apply cnt_full; [exact H|lia].
Qed.

(** X7: [empty()] is [true] exactly when the size is 0, which is exactly
    when no index below the capacity is an element. *)
Theorem empty_means_no_element s :
  reachable s ->
  (binary_set.empty s = true <-> binary_set.size s = 0) /\
  (binary_set.empty s = true <->
   forall i, 0 <= i < binary_set.capacity s -> member s i = false).
Proof.
  intros R. pose proof (reachable_inv s R) as I.
  unfold binary_set.size, binary_set.capacity.
  split; [exact (empty_size_zero s I)|].
  rewrite (empty_size_zero s I), (inv_size_cnt s I). split.
  - apply cnt_zero_inv.
  - apply cnt_zero.
Qed.

(** ** Equality *)

(** X8: on two sets of one capacity [operator==] returns [true] exactly
    when they have the same elements, in which case the two objects are
    identical (store and size); [operator!=] returns the opposite. *)
Theorem eq_compares_elements a b :
  reachable a -> reachable b ->
  binary_set.capacity a = binary_set.capacity b ->
  exists r,
    binary_set.eq a b = Ok r /\
    binary_set.neq a b = Ok (negb r) /\
    (r = true <->
     forall i, 0 <= i < binary_set.capacity a -> member a i = member b i) /\
    (r = true <-> a = b).
Proof.
  intros Ra Rb Hc. pose proof (reachable_inv a Ra) as Ia.
  pose proof (reachable_inv b Rb) as Ib. unfold binary_set.capacity in *.
  unfold binary_set.eq, binary_set.neq, binary_set.validate_same_capacity.
  rewrite Hc, Z.eqb_refl. cbn [negb obind].
  eexists. split; [reflexivity|]. split; [reflexivity|].
  rewrite vec_eqb_eq.
  assert (E : binary_set.set_ a = binary_set.set_ b <-> a = b).
  { split; [|now intros ->]. intros E.
    pose proof (inv_size a Ia) as Sa. pose proof (inv_size b Ib) as Sb.
    destruct a, b. cbn in *. congruence. }
  split; [|exact E]. rewrite E. split.
  - now intros ->.
  - intros H. rewrite <- Hc in H. now apply inv_ext.
Qed.

(** ** Intersection, union, difference and complement *)

Lemma backed_combined f other s :
  inv s -> inv other -> binary_set.capacity_ s = binary_set.capacity_ other ->
  backed s -> backed (combined f other s).
Proof.
  intros Is Io Hc B. pose proof (inv_same_length s other Is Io Hc) as Hl.
  unfold backed, combined in *. cbn [binary_set.capacity_ binary_set.set_].
  unfold vec_size in *. now rewrite zip_with_length.
Qed.

(** What the three binary operators have in common, in their copying and
    in-place forms. *)
Lemma binary_op_elements f fb a b :
  bitwise f fb -> inv a -> inv b -> backed a ->
  binary_set.capacity_ a = binary_set.capacity_ b ->
  binary_set.copy_op f b a = Ok (combined f b a) /\
  binary_set.assign_op f b a = (Ok tt, combined f b a) /\
  inv (combined f b a) /\
  (forall i, 0 <= i < binary_set.capacity_ a ->
             binary_set.contains i (combined f b a) =
             Ok (fb (member a i) (member b i))) /\
  binary_set.size_ (combined f b a) =
  cnt (fun i => fb (member a i) (member b i)) (binary_set.capacity_ a).
Proof.
  intros Hf Ia Ib B Hc.
  pose proof (inv_combined f fb b a Hf Ia Ib Hc) as Ir.
  split; [|split; [|split; [exact Ir|split]]].
  - rewrite copy_op_eq by (try assumption; apply Hf). now rewrite Hc, Z.eqb_refl.
  - rewrite assign_op_eq by (try assumption; apply Hf). now rewrite Hc, Z.eqb_refl.
  - intros i Hi. rewrite contains_member.
    + f_equal. now apply (member_combined f fb).
    + now apply backed_combined.
    + exact Hi.
  - rewrite (inv_size_cnt _ Ir). cbn [combined binary_set.capacity_].
    apply cnt_ext. intros i Hi. now apply (member_combined f fb).
Qed.

Lemma combined_eq f fb g gb a b a' b' :
  bitwise f fb -> bitwise g gb ->
  inv a -> inv b -> inv a' -> inv b' ->
  binary_set.capacity_ a = binary_set.capacity_ b ->
  binary_set.capacity_ a' = binary_set.capacity_ b' ->
  binary_set.capacity_ a = binary_set.capacity_ a' ->
  (forall i, 0 <= i < binary_set.capacity_ a ->
             fb (member a i) (member b i) = gb (member a' i) (member b' i)) ->
  combined f b a = combined g b' a'.
Proof.
  intros Hf Hg Ia Ib Ia' Ib' Hc Hc' Hcc H.
  apply inv_ext.
  - now apply (inv_combined f fb).
  - now apply (inv_combined g gb).
  - exact Hcc.
  - intros i Hi. cbn [combined binary_set.capacity_] in Hi.
    rewrite (member_combined f fb), (member_combined g gb) by (assumption || lia).
    now apply H.
Qed.

(** X9: [a & b] and [a &= b] on two sets of one capacity give the set of
    that capacity whose elements are the indices that are elements of both,
    with the size counting them. *)
Theorem and_keeps_common a b :
  reachable a -> reachable b -> backed a ->
  binary_set.capacity a = binary_set.capacity b ->
  exists r,
    binary_set.and_ a b = Ok r /\
    binary_set.and_assign b a = (Ok tt, r) /\
    binary_set.capacity r = binary_set.capacity a /\
    (forall i, 0 <= i < binary_set.capacity a ->
               binary_set.contains i r = Ok (member a i && member b i)) /\
    binary_set.size r =
      cnt (fun i => member a i && member b i) (binary_set.capacity a).
Proof.
  intros Ra Rb B Hc.
  destruct (binary_op_elements _ _ a b bitwise_and (reachable_inv a Ra)
              (reachable_inv b Rb) B Hc) as (C & A & _ & M & S).
  exists (combined binary_set.byte_and b a).
  split; [exact C|]. split; [exact A|]. split; [reflexivity|]. now split.
Qed.

(** X10: [a | b] and [a |= b] on two sets of one capacity give the set of
    that capacity whose elements are the indices that are elements of either,
    with the size counting them. *)
Theorem or_joins a b :
  reachable a -> reachable b -> backed a ->
  binary_set.capacity a = binary_set.capacity b ->
  exists r,
    binary_set.or_ a b = Ok r /\
    binary_set.or_assign b a = (Ok tt, r) /\
    binary_set.capacity r = binary_set.capacity a /\
    (forall i, 0 <= i < binary_set.capacity a ->
               binary_set.contains i r = Ok (member a i || member b i)) /\
    binary_set.size r =
      cnt (fun i => member a i || member b i) (binary_set.capacity a).
Proof.
  intros Ra Rb B Hc.
  destruct (binary_op_elements _ _ a b bitwise_or (reachable_inv a Ra)
              (reachable_inv b Rb) B Hc) as (C & A & _ & M & S).
  exists (combined binary_set.byte_or b a).
  split; [exact C|]. split; [exact A|]. split; [reflexivity|]. now split.
Qed.

(** X11: [a - b] and [a -= b] on two sets of one capacity give the set of
    that capacity whose elements are the elements of [a] that are not
    elements of [b], with the size counting them. *)
Theorem sub_drops_other a b :
  reachable a -> reachable b -> backed a ->
  binary_set.capacity a = binary_set.capacity b ->
  exists r,
    binary_set.sub a b = Ok r /\
    binary_set.sub_assign b a = (Ok tt, r) /\
    binary_set.capacity r = binary_set.capacity a /\
    (forall i, 0 <= i < binary_set.capacity a ->
               binary_set.contains i r = Ok (member a i && negb (member b i))) /\
    binary_set.size r =
      cnt (fun i => member a i && negb (member b i)) (binary_set.capacity a).
Proof.
  intros Ra Rb B Hc.
  destruct (binary_op_elements _ _ a b bitwise_diff (reachable_inv a Ra)
              (reachable_inv b Rb) B Hc) as (C & A & _ & M & S).
  exists (combined binary_set.byte_diff b a).
  split; [exact C|]. split; [exact A|]. split; [reflexivity|]. now split.
Qed.

Lemma backed_complement s r :
  inv s -> backed s -> 0 < binary_set.capacity_ s ->
  binary_set.not_ s = Ok r ->
  inv r /\ backed r /\ binary_set.capacity_ r = binary_set.capacity_ s /\
  forall i, 0 <= i < binary_set.capacity_ s -> member r i = negb (member s i).
Proof.
  intros I B Hc E. destruct (complement_ok s I B Hc) as (E' & Ir & M).
  rewrite E' in E. injection E as <-.
  split; [exact Ir|]. split; [|split; [reflexivity|exact M]].
  unfold backed in *. cbn [binary_set.capacity_ binary_set.set_].
  now rewrite complement_store_length.
Qed.

(** X12: [!s] on a set of non-zero capacity is the set of that capacity
    whose elements are the indices below the capacity that are not elements
    of [s]; its size is the capacity less the size of [s]. *)
Theorem not_flips_elements s :
  reachable s -> backed s -> 0 < binary_set.capacity s ->
  exists r,
    binary_set.not_ s = Ok r /\
    binary_set.capacity r = binary_set.capacity s /\
    (forall i, 0 <= i < binary_set.capacity s ->
               binary_set.contains i r = Ok (negb (member s i))) /\
    binary_set.size r = binary_set.capacity s - binary_set.size s.
Proof.
  intros R B Hc. pose proof (reachable_inv s R) as I.
  unfold binary_set.capacity, binary_set.size in *.
  destruct (complement_ok s I B Hc) as (E & _ & _).
  destruct (backed_complement s _ I B Hc E) as (Ir & Br & C & M).
  eexists. split; [exact E|]. split; [exact C|]. split.
  - intros i Hi. rewrite contains_member; [|exact Br|unfold binary_set.capacity; lia].
    f_equal. now apply M.
  - rewrite (inv_size_cnt _ Ir), (inv_size_cnt s I), C.
    rewrite <- cnt_negb by lia. apply cnt_ext. exact M.
Qed.

(** X13: the complement of the complement is the set itself. *)
Theorem not_twice s :
  reachable s -> backed s -> 0 < binary_set.capacity s ->
  exists r, binary_set.not_ s = Ok r /\ binary_set.not_ r = Ok s.
Proof.
  intros R B Hc. pose proof (reachable_inv s R) as I.
  unfold binary_set.capacity in *.
  destruct (complement_ok s I B Hc) as (E & _ & _).
  destruct (backed_complement s _ I B Hc E) as (Ir & Br & C & M).
  eexists. split; [exact E|].
  destruct (complement_ok _ Ir Br ltac:(lia)) as (E2 & _ & _).
  destruct (backed_complement _ _ Ir Br ltac:(lia) E2) as (Irr & _ & C2 & M2).
  rewrite E2. f_equal. apply inv_ext; [exact Irr|exact I|congruence|].
  intros i Hi. rewrite M2 by lia. rewrite M by (rewrite <- C; lia).
  apply negb_involutive.
Qed.

(** ** Laws of the operators *)

Lemma copy_op_combined f fb a b :
  bitwise f fb -> inv a -> inv b ->
  binary_set.capacity_ a = binary_set.capacity_ b ->
  binary_set.copy_op f b a = Ok (combined f b a).
Proof.
  intros Hf Ia Ib Hc. rewrite copy_op_eq by (try assumption; apply Hf).
  now rewrite Hc, Z.eqb_refl.
Qed.

(** X14: on sets of one capacity [&] and [|] are commutative, associative
    and idempotent, and each absorbs the other. *)
Theorem and_or_laws a b c :
  reachable a -> reachable b -> reachable c ->
  binary_set.capacity a = binary_set.capacity b ->
  binary_set.capacity b = binary_set.capacity c ->
  binary_set.and_ a b = binary_set.and_ b a /\
  binary_set.or_ a b = binary_set.or_ b a /\
  binary_set.and_ a a = Ok a /\
  binary_set.or_ a a = Ok a /\
  (ab <- binary_set.and_ a b ;; binary_set.and_ ab c)%outcome =
  (bc <- binary_set.and_ b c ;; binary_set.and_ a bc)%outcome /\
  (ab <- binary_set.or_ a b ;; binary_set.or_ ab c)%outcome =
  (bc <- binary_set.or_ b c ;; binary_set.or_ a bc)%outcome /\
  (ab <- binary_set.or_ a b ;; binary_set.and_ a ab)%outcome = Ok a /\
  (ab <- binary_set.and_ a b ;; binary_set.or_ a ab)%outcome = Ok a.
Proof.
  intros Ra Rb Rc Hab Hbc.
  pose proof (reachable_inv a Ra) as Ia. pose proof (reachable_inv b Rb) as Ib.
  pose proof (reachable_inv c Rc) as Ic. unfold binary_set.capacity in *.
  assert (Hba : binary_set.capacity_ b = binary_set.capacity_ a) by congruence.
  assert (Hac : binary_set.capacity_ a = binary_set.capacity_ c) by congruence.
  pose proof (inv_combined _ _ b a bitwise_and Ia Ib Hab) as Iab.
  pose proof (inv_combined _ _ c b bitwise_and Ib Ic Hbc) as Ibc.
  pose proof (inv_combined _ _ b a bitwise_or Ia Ib Hab) as Jab.
  pose proof (inv_combined _ _ c b bitwise_or Ib Ic Hbc) as Jbc.
  unfold binary_set.and_, binary_set.or_.
  repeat first
    [ rewrite (copy_op_combined _ _ _ _ bitwise_and)
        by (try assumption; cbn [combined binary_set.capacity_]; congruence)
    | rewrite (copy_op_combined _ _ _ _ bitwise_or)
        by (try assumption; cbn [combined binary_set.capacity_]; congruence)
    | progress cbn [obind] ].
  repeat split; f_equal.
  - apply (combined_eq _ _ _ _ a b b a bitwise_and bitwise_and);
      try assumption; try congruence. intros. apply andb_comm.
  - apply (combined_eq _ _ _ _ a b b a bitwise_or bitwise_or);
      try assumption; try congruence. intros. apply orb_comm.
  - apply inv_ext; [now apply (inv_combined _ _ _ _ bitwise_and)|exact Ia|reflexivity|].
    intros i Hi. cbn [combined binary_set.capacity_] in Hi.
    rewrite (member_combined _ _ _ _ _ bitwise_and) by assumption || lia.
    apply andb_diag.
  - apply inv_ext; [now apply (inv_combined _ _ _ _ bitwise_or)|exact Ia|reflexivity|].
    intros i Hi. cbn [combined binary_set.capacity_] in Hi.
    rewrite (member_combined _ _ _ _ _ bitwise_or) by assumption || lia.
    apply orb_diag.
  - apply (combined_eq _ _ _ _ _ _ _ _ bitwise_and bitwise_and);
      try assumption; cbn [combined binary_set.capacity_]; try congruence.
    intros i Hi.
    rewrite !(member_combined _ _ _ _ _ bitwise_and) by (assumption || lia).
    symmetry. apply andb_assoc.
  - apply (combined_eq _ _ _ _ _ _ _ _ bitwise_or bitwise_or);
      try assumption; cbn [combined binary_set.capacity_]; try congruence.
    intros i Hi.
    rewrite !(member_combined _ _ _ _ _ bitwise_or) by (assumption || lia).
    symmetry. apply orb_assoc.
  - apply inv_ext;
      [apply (inv_combined _ _ _ _ bitwise_and); try assumption; reflexivity
      |exact Ia|reflexivity|].
    intros i Hi. cbn [combined binary_set.capacity_] in Hi.
    rewrite (member_combined _ _ _ _ _ bitwise_and)
      by (try assumption; try reflexivity; lia).
    rewrite (member_combined _ _ _ _ _ bitwise_or) by (assumption || lia).
    apply absorption_andb.
  - apply inv_ext;
      [apply (inv_combined _ _ _ _ bitwise_or); try assumption; reflexivity
      |exact Ia|reflexivity|].
    intros i Hi. cbn [combined binary_set.capacity_] in Hi.
    rewrite (member_combined _ _ _ _ _ bitwise_or)
      by (try assumption; try reflexivity; lia).
    rewrite (member_combined _ _ _ _ _ bitwise_and) by (assumption || lia).
    apply absorption_orb.
Qed.

Lemma backed_same_capacity a b :
  inv a -> inv b -> binary_set.capacity_ a = binary_set.capacity_ b ->
  backed a -> backed b.
Proof.
  intros Ia Ib Hc B. pose proof (inv_same_length a b Ia Ib Hc).
  unfold backed, vec_size in *. rewrite <- Hc. lia.
Qed.

Lemma eq_same s : binary_set.eq s s = Ok true.
Proof.
  unfold binary_set.eq, binary_set.validate_same_capacity.
  rewrite Z.eqb_refl. cbn [negb obind]. f_equal. now apply vec_eqb_eq.
Qed.

(** X15: on sets of one non-zero capacity the difference is the
    intersection with the complement, [a - b = a & !b], and [a - a] is the
    cleared set. *)
Theorem sub_is_and_not a b :
  reachable a -> reachable b -> backed a ->
  binary_set.capacity a = binary_set.capacity b -> 0 < binary_set.capacity a ->
  exists r,
    binary_set.sub a b = Ok r /\
    (nb <- binary_set.not_ b ;; binary_set.and_ a nb)%outcome = Ok r /\
    binary_set.sub a a = Ok (binary_set.clear a).
Proof.
  intros Ra Rb Ba Hc Hpos. unfold binary_set.capacity in *.
  pose proof (reachable_inv a Ra) as Ia. pose proof (reachable_inv b Rb) as Ib.
  pose proof (backed_same_capacity a b Ia Ib Hc Ba) as Bb.
  destruct (complement_ok b Ib Bb ltac:(lia)) as (Eb & _ & _).
  destruct (backed_complement b _ Ib Bb ltac:(lia) Eb) as (Inb & _ & Cnb & Mnb).
  unfold binary_set.sub, binary_set.and_.
  rewrite Eb. cbn [obind].
  rewrite !(copy_op_combined _ _ _ _ bitwise_diff) by (assumption || reflexivity).
  rewrite (copy_op_combined _ _ _ _ bitwise_and) by (assumption || congruence).
  eexists. split; [reflexivity|]. split; f_equal.
  - apply (combined_eq _ _ _ _ _ _ _ _ bitwise_and bitwise_diff);
      try assumption; try congruence.
    intros i Hi. rewrite Mnb by lia. reflexivity.
  - apply inv_ext;
      [now apply (inv_combined _ _ _ _ bitwise_diff)|now apply inv_clear|reflexivity|].
    intros i Hi. cbn [combined binary_set.capacity_] in Hi.
    rewrite (member_combined _ _ _ _ _ bitwise_diff) by (assumption || reflexivity).
    rewrite clear_members. apply andb_negb_r.
Qed.

(** X16: the other law of De Morgan: for two sets of one non-zero capacity
    [!(a | b) == ((!a) & (!b))] evaluates to [true]. *)
Theorem de_morgan_or_holds a b :
  reachable a -> reachable b -> backed a ->
  binary_set.capacity a = binary_set.capacity b -> 0 < binary_set.capacity a ->
  de_morgan_or a b = Ok true.
Proof.
  intros Ra Rb Ba Hc Hpos. unfold binary_set.capacity in *.
  pose proof (reachable_inv a Ra) as Ia. pose proof (reachable_inv b Rb) as Ib.
  pose proof (backed_same_capacity a b Ia Ib Hc Ba) as Bb.
  pose proof (inv_combined _ _ b a bitwise_or Ia Ib Hc) as Iab.
  pose proof (backed_combined binary_set.byte_or b a Ia Ib Hc Ba) as Bab.
  destruct (complement_ok a Ia Ba Hpos) as (Ea & _ & _).
  destruct (backed_complement a _ Ia Ba Hpos Ea) as (Ina & _ & Cna & Mna).
  destruct (complement_ok b Ib Bb ltac:(lia)) as (Eb & _ & _).
  destruct (backed_complement b _ Ib Bb ltac:(lia) Eb) as (Inb & _ & Cnb & Mnb).
  destruct (complement_ok _ Iab Bab Hpos) as (Eab & _ & _).
  destruct (backed_complement _ _ Iab Bab Hpos Eab) as (Inab & _ & Cnab & Mnab).
  unfold de_morgan_or, binary_set.or_, binary_set.and_.
  rewrite (copy_op_combined _ _ _ _ bitwise_or) by assumption. cbn [obind].
  rewrite Eab. cbn [obind]. rewrite Ea. cbn [obind]. rewrite Eb. cbn [obind].
  rewrite (copy_op_combined _ _ _ _ bitwise_and) by (assumption || congruence).
  cbn [obind].
  match goal with |- binary_set.eq ?l ?r = _ => replace r with l end;
    [apply eq_same|].
  apply inv_ext;
    [exact Inab|apply (inv_combined _ _ _ _ bitwise_and); assumption || congruence
    |reflexivity|].
  intros i Hi. cbn [combined binary_set.capacity_] in Hi, Mnab.
  rewrite Mnab by lia.
  rewrite (member_combined _ _ _ _ _ bitwise_or) by (assumption || lia).
  rewrite (member_combined _ _ _ _ _ bitwise_and)
    by (try assumption; try congruence; cbn [binary_set.capacity_]; lia).
  rewrite Mna, Mnb by lia. apply negb_orb.
Qed.

(** ** The tests between two sets *)

Lemma land_zero a b :
  is_byte a ->
  (Z.land a b =? 0) =
  forallb (fun m => negb (Z.testbit a m && Z.testbit b m)) (range 8).
Proof.
  intros Ha. apply eq_true_iff_eq. rewrite Z.eqb_eq, forallb_forall. split.
  - intros E m Hm. apply In_range in Hm.
    assert (T : Z.testbit (Z.land a b) m = false)
      by (rewrite E; apply Z.bits_0).
    rewrite Z.land_spec in T. now rewrite T.
  - intros H. apply Z.bits_inj'. intros m Hm. rewrite Z.bits_0, Z.land_spec.
    destruct (Z.lt_ge_cases m 8) as [Hlt|Hge].
    + specialize (H m ltac:(apply In_range; lia)).
      now apply negb_true_iff in H.
    + now rewrite (byte_high a m Ha Hge).
Qed.

Lemma forallb_negb {A} (p : A -> bool) l :
  forallb (fun x => negb (p x)) l = negb (existsb p l).
Proof.
  induction l as [|x l IH]; [reflexivity|].
  cbn [forallb existsb]. now rewrite IH, negb_orb.
Qed.

Lemma intersects_loop_exists other s ixs :
  Forall (fun i => 0 <= i < vec_size (binary_set.set_ s) /\
                   i < vec_size (binary_set.set_ other)) ixs ->
  binary_set.intersects_loop other s ixs =
  Ok (existsb (fun i =>
        negb (Z.land (nth (Z.to_nat i) (binary_set.set_ s) 0)
                     (nth (Z.to_nat i) (binary_set.set_ other) 0) =? 0)) ixs).
Proof.
  induction 1 as [|i rest [Hs Ho] _ IH]; [reflexivity|].
  cbn [binary_set.intersects_loop existsb].
  rewrite !vec_get_in by lia. cbn [obind].
  destruct (Z.land _ _ =? 0); cbn [negb orb]; [exact IH|reflexivity].
Qed.

Lemma inv_byte_at s j :
  inv s -> 0 <= j < vec_size (binary_set.set_ s) ->
  is_byte (nth (Z.to_nat j) (binary_set.set_ s) 0).
Proof.
  intros I Hj. pose proof (inv_bytes s I) as Y. rewrite Forall_forall in Y.
  apply Y, nth_In. unfold vec_size in *. lia.
Qed.

(** [a.intersects(b)] written with the elements. *)
Lemma intersects_elements a b :
  inv a -> inv b -> binary_set.capacity_ a = binary_set.capacity_ b ->
  binary_set.intersects a b =
  Ok (existsb (fun i => member a i && member b i)
              (range (binary_set.capacity_ a))).
Proof.
  intros Ia Ib Hc. pose proof (inv_same_length a b Ia Ib Hc) as Hl.
  unfold binary_set.intersects, binary_set.validate_same_capacity.
  rewrite Hc, Z.eqb_refl. cbn [negb obind].
  rewrite intersects_loop_exists.
  2: { apply Forall_forall. intros i Hi. apply In_range in Hi.
       unfold vec_size in *. lia. }
  f_equal. apply eq_true_iff_eq. rewrite !existsb_exists. split.
  - intros (j & Hj & N). apply In_range in Hj.
    rewrite land_zero in N by (now apply inv_byte_at).
    apply negb_true_iff in N.
    destruct (forallb _ (range 8)) eqn:F; [discriminate|].
    assert (exists m, In m (range 8) /\
              Z.testbit (nth (Z.to_nat j) (binary_set.set_ a) 0) m &&
              Z.testbit (nth (Z.to_nat j) (binary_set.set_ b) 0) m = true)
      as (m & Hm & T).
    { rewrite forallb_negb in F. apply negb_false_iff in F.
      apply existsb_exists in F. exact F. }
    apply In_range in Hm. rewrite <- !bit_at in T by lia.
    apply andb_true_iff in T. destruct T as [Ta Tb].
    assert (Hlt : 8 * j + m < binary_set.capacity_ a).
    { destruct (Z.lt_ge_cases (8 * j + m) (binary_set.capacity_ a)); [assumption|].
      rewrite (inv_pad a Ia) in Ta by lia. discriminate. }
    exists (8 * j + m). split; [apply In_range; lia|].
    rewrite !member_bit by lia. now rewrite Ta, Tb.
  - intros (i & Hi & M). apply In_range in Hi.
    rewrite !member_bit in M by lia.
    apply andb_true_iff in M. destruct M as [Ma Mb].
    assert (Hi8 : i < 8 * vec_size (binary_set.set_ a)).
    { destruct (Z.lt_ge_cases i (8 * vec_size (binary_set.set_ a))); [assumption|].
      rewrite bit_out in Ma by assumption. discriminate. }
    assert (Hd : 0 <= i / 8 < vec_size (binary_set.set_ a)) by (apply byte_index; lia).
    exists (i / 8). split; [apply In_range; lia|].
    apply negb_true_iff. apply not_true_is_false. intros Z0.
    rewrite land_zero in Z0 by (now apply inv_byte_at).
    rewrite forallb_forall in Z0.
    specialize (Z0 (i mod 8) ltac:(apply In_range; apply Z.mod_pos_bound; lia)).
    unfold bit in Ma, Mb. rewrite Ma, Mb in Z0. discriminate.
Qed.

(** X17: [a.intersects(b)] on two sets of one capacity returns [true]
    exactly when some index is an element of both. *)
Theorem intersects_finds_common a b :
  reachable a -> reachable b ->
  binary_set.capacity a = binary_set.capacity b ->
  exists r,
    binary_set.intersects a b = Ok r /\
    (r = true <->
     exists i, 0 <= i < binary_set.capacity a /\
               member a i = true /\ member b i = true).
Proof.
  intros Ra Rb Hc. unfold binary_set.capacity in *.
  rewrite (intersects_elements a b (reachable_inv a Ra) (reachable_inv b Rb) Hc).
  eexists. split; [reflexivity|]. rewrite existsb_exists. split.
  - intros (i & Hi & M). apply In_range in Hi. apply andb_true_iff in M.
    exists i. tauto.
  - intros (i & Hi & Ma & Mb). exists i. split; [now apply In_range|].
    now rewrite Ma, Mb.
Qed.

(** X18: [q.contains(s)] on two sets of one capacity returns [true]
    exactly when every element of [s] is an element of [q]. *)
Theorem contains_set_tests_inclusion q s :
  reachable q -> reachable s -> backed q ->
  binary_set.capacity q = binary_set.capacity s ->
  exists r,
    binary_set.contains_set q s = Ok r /\
    (r = true <->
     forall i, 0 <= i < binary_set.capacity s ->
               member s i = true -> member q i = true).
Proof.
  intros Rq Rs Bq Hc.
  rewrite (contains_set_is_subset q s (reachable_inv q Rq) (reachable_inv s Rs) Bq Hc).
  eexists. split; [reflexivity|]. unfold is_subset_of. rewrite forallb_forall.
  split.
  - intros H i Hi M. specialize (H i ltac:(now apply In_range)).
    rewrite M in H. exact H.
  - intros H i Hi. apply In_range in Hi. specialize (H i Hi).
    destruct (member s i); [now rewrite H|reflexivity].
Qed.

Lemma is_subset_of_spec s q :
  is_subset_of s q = true <->
  forall i, 0 <= i < binary_set.capacity_ s ->
            member s i = true -> member q i = true.
Proof.
  unfold is_subset_of, binary_set.capacity. rewrite forallb_forall. split.
  - intros H i Hi M. specialize (H i ltac:(now apply In_range)).
    rewrite M in H. exact H.
  - intros H i Hi. apply In_range in Hi. specialize (H i Hi).
    destruct (member s i); [now rewrite H|reflexivity].
Qed.

(** X19: on sets of one capacity the subset test is a partial order:
    every set contains itself, two sets that contain each other are the same
    set, and containment is transitive. *)
Theorem contains_set_partial_order a b c :
  reachable a -> reachable b -> reachable c -> backed a ->
  binary_set.capacity a = binary_set.capacity b ->
  binary_set.capacity b = binary_set.capacity c ->
  binary_set.contains_set a a = Ok true /\
  (binary_set.contains_set a b = Ok true ->
   binary_set.contains_set b a = Ok true -> a = b) /\
  (binary_set.contains_set a b = Ok true ->
   binary_set.contains_set b c = Ok true ->
   binary_set.contains_set a c = Ok true).
Proof.
  intros Ra Rb Rc Ba Hab Hbc.
  pose proof (reachable_inv a Ra) as Ia. pose proof (reachable_inv b Rb) as Ib.
  pose proof (reachable_inv c Rc) as Ic.
  pose proof (backed_same_capacity a b Ia Ib Hab Ba) as Bb.
  rewrite !contains_set_is_subset by (assumption || congruence).
  unfold binary_set.capacity in *. split; [|split].
  - f_equal. apply is_subset_of_spec. auto.
  - intros [= H1] [= H2]. rewrite is_subset_of_spec in H1, H2.
    apply inv_ext; try assumption. intros i Hi.
    specialize (H1 i ltac:(lia)). specialize (H2 i Hi).
    destruct (member a i), (member b i); auto; symmetry; auto.
  - intros [= H1] [= H2]. f_equal. rewrite is_subset_of_spec in *.
    intros i Hi M. apply H1; [lia|]. apply H2; [lia|exact M].
Qed.

(** X20: the tests agree with the operators: [a.intersects(b)] is
    [!(a & b).empty()], [a.contains(b)] is [(b - a).empty()], and [a == b]
    holds exactly when each contains the other. *)
Theorem tests_agree_with_operators a b :
  reachable a -> reachable b -> backed a ->
  binary_set.capacity a = binary_set.capacity b ->
  binary_set.intersects a b =
    (r <- binary_set.and_ a b ;; Ok (negb (binary_set.empty r)))%outcome /\
  binary_set.contains_set a b =
    (r <- binary_set.sub b a ;; Ok (binary_set.empty r))%outcome /\
  binary_set.eq a b =
    (x <- binary_set.contains_set a b ;;
     y <- binary_set.contains_set b a ;; Ok (x && y))%outcome.
Proof.
  intros Ra Rb Ba Hc.
  pose proof (reachable_inv a Ra) as Ia. pose proof (reachable_inv b Rb) as Ib.
  unfold binary_set.capacity in *.
  pose proof (backed_same_capacity a b Ia Ib Hc Ba) as Bb.
  rewrite (intersects_elements a b Ia Ib Hc).
  rewrite !contains_set_is_subset by (assumption || (symmetry; assumption)).
  unfold binary_set.and_, binary_set.sub.
  rewrite (copy_op_combined _ _ _ _ bitwise_and) by assumption.
  rewrite (copy_op_combined _ _ _ _ bitwise_diff) by (assumption || congruence).
  cbn [obind].
  pose proof (inv_combined _ _ b a bitwise_and Ia Ib Hc) as Iand.
  pose proof (inv_combined _ _ a b bitwise_diff Ib Ia (eq_sym Hc)) as Isub.
  split; [|split].
  - f_equal; apply eq_true_iff_eq. rewrite negb_true_iff, <- not_true_iff_false, (empty_size_zero _ Iand).
    rewrite (inv_size_cnt _ Iand). cbn [combined binary_set.capacity_].
    rewrite existsb_exists. split.
    + intros (i & Hi & M) Z0. apply In_range in Hi.
      pose proof (cnt_zero_inv _ _ Z0 i Hi) as F. cbv beta in F.
      rewrite (member_combined _ _ _ _ _ bitwise_and) in F by assumption.
      congruence.
    + intros N.
      destruct (existsb (fun i => member a i && member b i)
                        (range (binary_set.capacity_ a))) eqn:E.
      * now apply existsb_exists.
      * exfalso. apply N. apply cnt_zero. intros i Hi.
        rewrite (member_combined _ _ _ _ _ bitwise_and) by assumption.
        apply not_true_is_false. intros T.
        assert (existsb (fun i => member a i && member b i)
                        (range (binary_set.capacity_ a)) = true)
          by (apply existsb_exists; exists i; split; [now apply In_range|exact T]).
        congruence.
  - f_equal; apply eq_true_iff_eq.
    rewrite (empty_size_zero _ Isub), (inv_size_cnt _ Isub).
    cbn [combined binary_set.capacity_]. rewrite is_subset_of_spec. split.
    + intros H. apply cnt_zero. intros i Hi.
      rewrite (member_combined _ _ _ _ _ bitwise_diff) by (assumption || congruence).
      specialize (H i Hi). destruct (member b i); [now rewrite H|reflexivity].
    + intros Z0 i Hi M. pose proof (cnt_zero_inv _ _ Z0 i Hi) as F. cbv beta in F.
      rewrite (member_combined _ _ _ _ _ bitwise_diff) in F
        by (assumption || congruence).
      rewrite M in F. now destruct (member a i).
  - unfold binary_set.eq, binary_set.validate_same_capacity.
    rewrite Hc, Z.eqb_refl. cbn [negb obind]. f_equal; apply eq_true_iff_eq.
    rewrite vec_eqb_eq, andb_true_iff, !is_subset_of_spec.
    split.
    + intros E. assert (a = b) as <-.
      { pose proof (inv_size a Ia). pose proof (inv_size b Ib).
        destruct a, b. cbn in *. congruence. }
      split; auto.
    + intros [H1 H2]. f_equal. apply inv_ext; try assumption. intros i Hi.
      specialize (H1 i ltac:(lia)). specialize (H2 i Hi).
      destruct (member a i), (member b i); auto; symmetry; auto.
Qed.

(** ** Sizes of the results *)

Lemma cnt_or_and p q n :
  0 <= n ->
  cnt (fun i => p i || q i) n + cnt (fun i => p i && q i) n = cnt p n + cnt q n.
Proof.
  intros Hn. pattern n. apply natlike_ind; [| |exact Hn].
  - now rewrite !cnt_nonpos by lia.
  - intros x Hx IH. unfold Z.succ. rewrite !cnt_succ by lia.
    destruct (p x), (q x); cbn [orb andb]; lia.
Qed.

Lemma cnt_diff_and p q n :
  0 <= n ->
  cnt (fun i => p i && negb (q i)) n + cnt (fun i => p i && q i) n = cnt p n.
Proof.
  intros Hn. pattern n. apply natlike_ind; [| |exact Hn].
  - now rewrite !cnt_nonpos by lia.
  - intros x Hx IH. unfold Z.succ. rewrite !cnt_succ by lia.
    destruct (p x), (q x); cbn [negb andb]; lia.
Qed.

(** X30: the sizes of the results obey inclusion and exclusion: for two
    sets of one capacity, the sizes of [a | b] and [a & b] add up to the
    sizes of [a] and [b], and the sizes of [a - b] and [a & b] to the size
    of [a]. *)
Theorem sizes_inclusion_exclusion a b :
  reachable a -> reachable b -> backed a ->
  binary_set.capacity a = binary_set.capacity b ->
  exists i u d,
    binary_set.and_ a b = Ok i /\
    binary_set.or_ a b = Ok u /\
    binary_set.sub a b = Ok d /\
    binary_set.size u + binary_set.size i =
      binary_set.size a + binary_set.size b /\
    binary_set.size d + binary_set.size i = binary_set.size a.
Proof.
  intros Ra Rb B Hc.
  pose proof (reachable_inv a Ra) as Ia. pose proof (reachable_inv b Rb) as Ib.
  unfold binary_set.capacity, binary_set.size in *.
  destruct (binary_op_elements _ _ a b bitwise_and Ia Ib B Hc) as (Ci & _ & _ & _ & Si).
  destruct (binary_op_elements _ _ a b bitwise_or Ia Ib B Hc) as (Cu & _ & _ & _ & Su).
  destruct (binary_op_elements _ _ a b bitwise_diff Ia Ib B Hc) as (Cd & _ & _ & _ & Sd).
  eexists _, _, _. split; [exact Ci|]. split; [exact Cu|]. split; [exact Cd|].
  rewrite Si, Su, Sd, (inv_size_cnt a Ia), (inv_size_cnt b Ib), <- Hc.
  pose proof (inv_capacity a Ia) as C.
  split; [apply cnt_or_and|apply cnt_diff_and]; lia.
Qed.

(** ** Iteration *)

Lemma between_range n : between 0 n = range n.
Proof. unfold between, range. now rewrite Z.sub_0_r. Qed.

Lemma between_empty a b : b <= a -> between a b = [].
Proof. intros H. unfold between. now replace (Z.to_nat (b - a)) with O by lia. Qed.

Lemma between_cons a b :
  0 <= a < b -> between a b = a :: between (a + 1) b.
Proof.
  intros H. unfold between.
  replace (Z.to_nat (b - a)) with (S (Z.to_nat (b - (a + 1)))) by lia.
  cbn [seq map]. rewrite Z2Nat.id by lia.
  now replace (Z.to_nat (a + 1)) with (S (Z.to_nat a)) by lia.
Qed.

Lemma In_between a b i : 0 <= a -> In i (between a b) <-> a <= i < b.
Proof.
  intros Ha. unfold between. rewrite in_map_iff. split.
  - intros (k & <- & Hk). apply in_seq in Hk. lia.
  - intros Hi. exists (Z.to_nat i). split; [lia|]. apply in_seq. lia.
Qed.

(** Indices that are not elements are skipped. *)
Lemma filter_between_skip (f : Z -> bool) b :
  forall n a p,
    Z.to_nat (p - a) = n -> 0 <= a <= p -> p <= b ->
    (forall j, a <= j < p -> f j = false) ->
    filter f (between a b) = filter f (between p b).
Proof.
  induction n as [|n IH]; intros a p Hn Ha Hp Hf.
  - now replace p with a by lia.
  - rewrite between_cons by lia. cbn [filter]. rewrite (Hf a) by lia.
    apply IH; try lia. intros j Hj. apply Hf. lia.
Qed.

(** [operator++] on a position below the capacity. *)
Lemma iterator_incr_next s :
  backed s -> binary_set.capacity_ s < 4294967296 ->
  forall fuel pos,
    0 <= pos < binary_set.capacity_ s ->
    (Z.to_nat (binary_set.capacity_ s - pos) <= fuel)%nat ->
    exists p,
      binary_set.iterator_incr fuel s pos = Ok p /\
      pos < p <= binary_set.capacity_ s /\
      (forall j, pos < j < p -> member s j = false) /\
      (p < binary_set.capacity_ s -> member s p = true).
Proof.
  intros B Hc. induction fuel as [|fuel IH]; intros pos Hpos Hf; [lia|].
  cbn [binary_set.iterator_incr]. unfold binary_set.capacity.
  assert (U : u32 (pos + 1) = pos + 1)
    by (unfold u32; apply Z.mod_small; change (2 ^ 32) with 4294967296; lia).
  rewrite U.
  destruct (Z.ltb_spec (pos + 1) (binary_set.capacity_ s)) as [Hlt|Hge].
  - rewrite contains_member by (try exact B; unfold binary_set.capacity; lia).
    cbn [obind]. destruct (member s (pos + 1)) eqn:M; cbn [negb].
    + exists (pos + 1). split; [reflexivity|]. split; [lia|]. split; [intros; lia|].
      intros _. exact M.
    + destruct (IH (pos + 1) ltac:(lia) ltac:(lia)) as (p & E & Hp & Hn & Hm).
      exists p. split; [exact E|]. split; [lia|]. split; [|exact Hm].
      intros j Hj. destruct (Z.eq_dec j (pos + 1)) as [->|]; [exact M|].
      apply Hn. lia.
  - exists (pos + 1). split; [reflexivity|]. split; [lia|]. split; intros; lia.
Qed.

(** The constructor of an iterator at a position up to the capacity. *)
Lemma iterator_make_first s pos :
  backed s -> binary_set.capacity_ s < 4294967296 ->
  0 <= pos <= binary_set.capacity_ s ->
  exists p,
    binary_set.iterator_make s pos = Ok p /\
    pos <= p <= binary_set.capacity_ s /\
    (forall j, pos <= j < p -> member s j = false) /\
    (p < binary_set.capacity_ s -> member s p = true).
Proof.
  intros B Hc Hpos. unfold binary_set.iterator_make, binary_set.capacity.
  destruct (Z.ltb_spec pos (binary_set.capacity_ s)) as [Hlt|Hge].
  - rewrite contains_member by (try exact B; unfold binary_set.capacity; lia).
    cbn [obind]. destruct (member s pos) eqn:M; cbn [negb].
    + exists pos. split; [reflexivity|]. split; [lia|]. split; [intros; lia|].
      intros _. exact M.
    + destruct (iterator_incr_next s B Hc (S (Z.to_nat (binary_set.capacity_ s)))
                  pos ltac:(lia) ltac:(lia)) as (p & E & Hp & Hn & Hm).
      exists p. split; [exact E|]. split; [lia|]. split; [|exact Hm].
      intros j Hj. destruct (Z.eq_dec j pos) as [->|]; [exact M|].
      apply Hn. lia.
  - exists pos. split; [reflexivity|]. split; [lia|]. split; intros; lia.
Qed.

(** Copying the range from an iterator to [end()]. *)
Lemma collect_elements s :
  backed s -> binary_set.capacity_ s < 4294967296 ->
  forall fuel first,
    0 <= first <= binary_set.capacity_ s ->
    (first < binary_set.capacity_ s -> member s first = true) ->
    (Z.to_nat (binary_set.capacity_ s - first) <= fuel)%nat ->
    binary_set.collect fuel s first (binary_set.capacity_ s) =
    Ok (filter (member s) (between first (binary_set.capacity_ s))).
Proof.
  intros B Hc. induction fuel as [|fuel IH]; intros first Hf Hm Hfuel.
  - replace first with (binary_set.capacity_ s) by lia.
    cbn [binary_set.collect]. rewrite Z.eqb_refl.
    now rewrite between_empty by lia.
  - cbn [binary_set.collect].
    destruct (Z.eqb_spec first (binary_set.capacity_ s)) as [->|Hne].
    + now rewrite between_empty by lia.
    + unfold binary_set.capacity.
      destruct (iterator_incr_next s B Hc (S (Z.to_nat (binary_set.capacity_ s)))
                  first ltac:(lia) ltac:(lia)) as (p & E & Hp & Hn & Hmp).
      rewrite E. cbn [obind].
      rewrite (IH p ltac:(lia) Hmp ltac:(lia)). cbn [obind].
      rewrite (between_cons first) by lia. cbn [filter]. rewrite Hm by lia.
      do 2 f_equal.
      symmetry. apply (filter_between_skip _ _ (Z.to_nat (p - (first + 1)))); try lia.
      intros j Hj. apply Hn. lia.
Qed.

(** ** Text *)

Lemma append_empty (a : string) : (a ++ "")%string = a.
Proof. induction a as [|x a IH]; cbn; [reflexivity|now rewrite IH]. Qed.

Lemma append_append (a b c : string) : ((a ++ b) ++ c = a ++ (b ++ c))%string.
Proof. induction a as [|x a IH]; cbn; [reflexivity|now rewrite IH]. Qed.

Lemma render_loop_marks s ixs :
  backed s -> Forall (fun i => 0 <= i < binary_set.capacity_ s) ixs ->
  forall result,
    binary_set.render_loop s ixs result = Ok (result ++ marks s ixs)%string.
Proof.
  intros B. induction 1 as [|i rest Hi _ IH]; intros result.
  - cbn [binary_set.render_loop marks]. now rewrite append_empty.
  - cbn [binary_set.render_loop marks].
    rewrite contains_member by (try exact B; exact Hi). cbn [obind].
    rewrite IH. f_equal. apply append_append.
Qed.

Lemma marks_length s ixs : String.length (marks s ixs) = List.length ixs.
Proof.
  induction ixs as [|i rest IH]; [reflexivity|].
  cbn [marks]. destruct (member s i); cbn; now rewrite IH.
Qed.

Lemma length_append (a b : string) :
  String.length (a ++ b) = (String.length a + String.length b)%nat.
Proof. induction a as [|x a IH]; cbn; [reflexivity|now rewrite IH]. Qed.

Lemma marks_substring s ixs (tail : string) k :
  (k < List.length ixs)%nat ->
  substring k 1 (marks s ixs ++ tail) =
  (if member s (nth k ixs 0) then "X" else "-")%string.
Proof.
  revert k. induction ixs as [|i rest IH]; intros k Hk; [cbn in Hk; lia|].
  cbn [marks]. destruct k as [|k].
  - cbn [nth]. destruct (member s i); cbn; now destruct (_ ++ _)%string.
  - cbn [nth]. rewrite <- (IH k) by (cbn in Hk; lia).
    now destruct (member s i).
Qed.

Lemma nth_range k n : (k < Z.to_nat n)%nat -> nth k (range n) 0 = Z.of_nat k.
Proof.
  intros Hk. unfold range.
  rewrite (nth_indep _ 0 (Z.of_nat 0)) by (rewrite length_map, length_seq; exact Hk).
  rewrite map_nth. now rewrite seq_nth by exact Hk.
Qed.

Lemma reachable_capacity s :
  reachable s -> 0 <= binary_set.capacity_ s < 4294967296.
Proof. intros R. exact (inv_capacity s (reachable_inv s R)). Qed.

(** X21: [operator++] on an iterator at a position below the capacity
    stops at the next element above that position, or at the capacity
    ([end()]) when there is none. *)
Theorem iterator_incr_finds_next s pos fuel :
  reachable s -> backed s -> 0 <= pos < binary_set.capacity s ->
  (Z.to_nat (binary_set.capacity s - pos) <= fuel)%nat ->
  exists p,
    binary_set.iterator_incr fuel s pos = Ok p /\
    pos < p <= binary_set.capacity s /\
    (forall j, pos < j < p -> binary_set.contains j s = Ok false) /\
    (p < binary_set.capacity s -> binary_set.contains p s = Ok true).
Proof.
  intros R B Hpos Hf. unfold binary_set.capacity in *.
  pose proof (reachable_capacity s R) as C.
  destruct (iterator_incr_next s B ltac:(lia) fuel pos Hpos Hf)
    as (p & E & Hp & Hn & Hm).
  exists p. split; [exact E|]. split; [exact Hp|]. split.
  - intros j Hj. rewrite contains_member by (try exact B; unfold binary_set.capacity; lia).
    f_equal. now apply Hn.
  - intros Hlt. rewrite contains_member by (try exact B; unfold binary_set.capacity; lia).
    f_equal. now apply Hm.
Qed.

(** X22: [begin()] is at the smallest element, [end()] at the capacity, and
    the two are equal exactly when the set is empty. *)
Theorem begin_at_smallest_element s :
  reachable s -> backed s ->
  exists p,
    binary_set.begin_ s = Ok p /\
    binary_set.end_ s = Ok (binary_set.capacity s) /\
    0 <= p <= binary_set.capacity s /\
    (forall j, 0 <= j < p -> member s j = false) /\
    (p < binary_set.capacity s -> member s p = true) /\
    (p = binary_set.capacity s <-> binary_set.empty s = true).
Proof.
  intros R B. unfold binary_set.capacity in *.
  pose proof (reachable_capacity s R) as C. pose proof (reachable_inv s R) as I.
  destruct (iterator_make_first s 0 B ltac:(lia) ltac:(lia))
    as (p & E & Hp & Hn & Hm).
  exists p. split; [exact E|]. split.
  { unfold binary_set.end_, binary_set.iterator_make, binary_set.capacity.
    now rewrite Z.ltb_irrefl. }
  split; [exact Hp|]. split; [exact Hn|]. split; [exact Hm|].
  rewrite (empty_size_zero s I), (inv_size_cnt s I). split.
  - intros ->. apply cnt_zero. exact Hn.
  - intros Z0. destruct (Z.eq_dec p (binary_set.capacity_ s)) as [|Hne]; [assumption|].
    pose proof (cnt_zero_inv _ _ Z0 p ltac:(lia)) as F.
    rewrite Hm in F by lia. discriminate.
Qed.

(** X23: [sparse()] on a set of non-zero capacity returns its elements in
    ascending order, each once, as many as [size()] says. *)
Theorem sparse_lists_elements s :
  reachable s -> backed s -> 0 < binary_set.capacity s ->
  binary_set.sparse s =
    Ok (filter (member s) (range (binary_set.capacity s))) /\
  vec_size (filter (member s) (range (binary_set.capacity s))) =
    binary_set.size s.
Proof.
  intros R B Hc. unfold binary_set.capacity, binary_set.size in *.
  pose proof (reachable_capacity s R) as C. pose proof (reachable_inv s R) as I.
  split; [|symmetry; exact (inv_size_cnt s I)].
  unfold binary_set.sparse.
  destruct (Z.eqb_spec (binary_set.capacity_ s) 0); [lia|].
  destruct (iterator_make_first s 0 B ltac:(lia) ltac:(lia))
    as (p & E & Hp & Hn & Hm).
  unfold binary_set.begin_, binary_set.end_. rewrite E. cbn [obind].
  unfold binary_set.iterator_make at 1. unfold binary_set.capacity.
  rewrite Z.ltb_irrefl. cbn [obind].
  rewrite (collect_elements s B ltac:(lia)) by (try assumption; lia).
  f_equal. rewrite <- between_range. symmetry.
  apply (filter_between_skip _ _ (Z.to_nat (p - 0))); try lia. exact Hn.
Qed.

(** X24: [operator std::string] writes ['['], then for each index below the
    capacity in ascending order ['X'] when it is an element and ['-'] when it
    is not, then [']']: [capacity + 2] characters. *)
Theorem to_string_marks_elements s :
  backed s ->
  exists str,
    binary_set.to_string s = Ok str /\
    str = ("[" ++ marks s (range (binary_set.capacity s)) ++ "]")%string /\
    String.length str = (Z.to_nat (binary_set.capacity s) + 2)%nat /\
    forall i, 0 <= i < binary_set.capacity s ->
              substring (S (Z.to_nat i)) 1 str =
              (if member s i then "X" else "-")%string.
Proof.
  intros B. unfold binary_set.to_string, binary_set.capacity.
  rewrite render_loop_marks by (try exact B; apply range_Forall).
  cbn [obind]. eexists. split; [reflexivity|].
  rewrite append_append. split; [reflexivity|]. split.
  - cbn [append String.length]. rewrite length_append, marks_length, range_length.
    cbn [String.length]. lia.
  - intros i Hi. cbn [append substring].
    rewrite marks_substring by (rewrite range_length; lia).
    rewrite nth_range by lia. now rewrite Z2Nat.id by lia.
Qed.

(** ** The index and the entries it holds *)

Lemma find_app_last value vs :
  exists k, find value (vs ++ [value]) = Some k /\
            swap_pop k (vs ++ [value]) = vs.
Proof.
  destruct (find value (vs ++ [value])) as [k|] eqn:F.
  - exists k. split; [reflexivity|].
    destruct (find_first_match _ _ _ F) as [N _].
    assert (U : upd k value (vs ++ [value]) = vs ++ [value]).
    { rewrite <- (nth_error_nth _ _ 0 N) at 1. apply upd_same. }
    unfold swap_pop. rewrite last_last, U.
    destruct (Nat.eqb k _); apply removelast_last.
  - apply find_absent in F. exfalso. apply F. apply in_or_app. right. now left.
Qed.

Lemma with_values_same n : with_values (values n) n = n.
Proof. now destruct n. Qed.

Lemma with_values_twice vs ws n : with_values vs (with_values ws n) = with_values vs n.
Proof. reflexivity. Qed.

Lemma set_child_same b n : set_child b (child b n) n = n.
Proof. destruct n, b; reflexivity. Qed.

(** Taking out what was just put in gives the trie back. *)
Lemma erase_insert bits value :
  forall n, pruned n = true -> erase bits value (insert bits value n) = Some n.
Proof.
  induction bits as [|b rest IH]; intros n Hp.
  - destruct n as [vs l r]. cbn [insert erase values with_values left right].
    destruct (find_app_last value vs) as (k & F & S).
    now rewrite F, S.
  - cbn [insert erase]. rewrite child_set_child.
    rewrite (IH _ (pruned_child_or_new b n Hp)). f_equal.
    rewrite set_child_twice. unfold child_or_new.
    destruct (child b n) as [c|] eqn:C.
    + destruct (pruned_child b n c Hp C) as [D _]. unfold link. rewrite D.
      rewrite <- C. apply set_child_same.
    + unfold link. cbn [is_dead new_node values left right].
      rewrite <- C. apply set_child_same.
Qed.

(** The result of a query on an index built by a sequence of calls. *)
Lemma find_subsets_stored c ops q :
  Forall (fun o => backed (op_set o)) ops ->
  backed q -> binary_set.capacity q = c ->
  exists res,
    bs_searcher.find_subsets q (run_all ops (bs_searcher.make c)) = Ok res /\
    Permutation res (stored_subsets c ops q).
Proof.
  intros Hops Hq Hc.
  destruct (index_inv_built c ops Hops) as [Hcap He (root & Hr & _ & _ & Hperm)].
  rewrite (find_subsets_leaves q _ root Hq); [|congruence|exact Hr].
  eexists. split; [reflexivity|].
  rewrite leaves_contents, elements_length, Hc.
  rewrite (Permutation_filter_keep (passes (elements q)) _ _ Hperm).
  unfold stored_subsets. rewrite filter_map_swap, map_map.
  cbn [key snd].
  erewrite filter_ext_in; [reflexivity|].
  intros e Hin. unfold passes, key. cbn [fst].
  rewrite is_subset_of_bits; [reflexivity|].
  rewrite Forall_forall in He. rewrite (He e Hin). now symmetry.
Qed.

Lemma run_all_app ops ops' s : run_all (ops ++ ops') s = run_all ops' (run_all ops s).
Proof. apply fold_left_app. Qed.

Lemma stored_app c ops o : stored c (ops ++ [o]) = stored_step c (stored c ops) o.
Proof. unfold stored. now rewrite fold_left_app. Qed.

Lemma Forall_backed_snoc ops o :
  Forall (fun o => backed (op_set o)) ops -> backed (op_set o) ->
  Forall (fun o => backed (op_set o)) (ops ++ [o]).
Proof. intros H Ho. apply Forall_app. split; [exact H|now constructor]. Qed.

(** Entries with the same elements pass the same queries. *)
Lemma is_subset_of_same x bs q c :
  binary_set.capacity x = c -> binary_set.capacity bs = c ->
  binary_set.capacity q = c ->
  elements x = elements bs -> is_subset_of x q = is_subset_of bs q.
Proof.
  intros Hx Hb Hq E. rewrite !is_subset_of_bits by congruence. now rewrite E.
Qed.

Lemma remove_one_found c e st :
  Forall (fun x => binary_set.capacity (fst x) = c) st ->
  binary_set.capacity (fst e) = c ->
  existsb (fun x => entry_eqb x e) st = true ->
  exists x, key x = key e /\ binary_set.capacity (fst x) = c /\
            Permutation st (x :: remove_one e st).
Proof.
  intros H Hc. induction H as [|x rest Hx _ IH]; intros Hin; [discriminate|].
  cbn [existsb remove_one] in *. destruct (entry_eqb x e) eqn:E.
  - exists x. split; [apply entry_eqb_key; [congruence|exact E]|]. now split.
  - destruct (IH Hin) as (y & Ky & Cy & P). exists y. split; [exact Ky|].
    split; [exact Cy|]. rewrite P at 1. apply perm_swap.
Qed.

Lemma existsb_entry_key c e st :
  Forall (fun x => binary_set.capacity (fst x) = c) st ->
  binary_set.capacity (fst e) = c ->
  existsb (fun x => entry_eqb x e) st = true <-> In (key e) (map key st).
Proof.
  intros H Hc. rewrite existsb_exists, in_map_iff. rewrite Forall_forall in H.
  split.
  - intros (x & Hin & E). exists x. split; [|exact Hin].
    apply entry_eqb_key; [rewrite (H x Hin); congruence|exact E].
  - intros (x & K & Hin). exists x. split; [exact Hin|].
    apply entry_eqb_key; [rewrite (H x Hin); congruence|exact K].
Qed.

Lemma remove_reports c s st value bs :
  index_inv c s st -> backed bs -> binary_set.capacity bs = c ->
  fst (bs_searcher.remove value bs s) =
  Ok (existsb (fun x => entry_eqb x (bs, value)) st).
Proof.
  intros [Hc He (root & Hr & Hs & Hp & Hperm)] Hb E.
  rewrite (remove_erase value bs s root Hb); [|congruence|exact Hr].
  assert (L : List.length (elements bs) = Z.to_nat c)
    by (now rewrite elements_length, E).
  destruct (erase (elements bs) value root) as [root'|] eqn:Er; cbn [fst]; f_equal;
    symmetry.
  - apply (existsb_entry_key c); [exact He|exact E|].
    pose proof (contents_erase _ _ _ _ Er) as Pc. rewrite L in Pc.
    eapply Permutation_in; [exact Hperm|].
    eapply Permutation_in; [symmetry; exact Pc|]. now left.
  - apply not_true_is_false. intros X.
    apply (existsb_entry_key c) in X; [|exact He|exact E].
    apply (contents_erase_none _ _ _ Er). rewrite L.
    eapply Permutation_in; [symmetry; exact Hperm|]. exact X.
Qed.

Lemma stored_subsets_perm c ops ops' q x :
  binary_set.capacity q = c ->
  Permutation (stored c ops) (x :: stored c ops') ->
  Permutation (stored_subsets c ops q)
    (if is_subset_of (fst x) q then snd x :: stored_subsets c ops' q
     else stored_subsets c ops' q).
Proof.
  intros Hq P. unfold stored_subsets.
  rewrite (Permutation_filter_keep (fun e => is_subset_of (fst e) q) _ _ P).
  cbn [filter]. now destruct (is_subset_of (fst x) q).
Qed.

(** X25: on an index built by any sequence of calls, [add(value, bs)]
    followed by [remove(value, bs)] returns [true] and leaves the index
    exactly as it was before the [add], nodes created on the way included. *)
Theorem searcher_add_then_remove c ops value bs :
  Forall (fun o => backed (op_set o)) ops ->
  backed bs -> binary_set.capacity bs = c ->
  exists s1,
    bs_searcher.add value bs (run_all ops (bs_searcher.make c)) = (Ok tt, s1) /\
    bs_searcher.remove value bs s1 =
      (Ok true, run_all ops (bs_searcher.make c)).
Proof.
  intros Hops Hb Hc.
  destruct (index_inv_built c ops Hops) as [Hcap _ (root & Hr & _ & Hp & _)].
  set (s := run_all ops (bs_searcher.make c)) in *.
  rewrite (add_insert value bs s root Hb); [|congruence|exact Hr].
  eexists. split; [reflexivity|].
  rewrite (remove_erase value bs _ (insert (elements bs) value root) Hb);
    [|cbn [capacity_]; congruence|reflexivity].
  rewrite (erase_insert _ _ _ Hp). cbn [capacity_]. f_equal.
  destruct s as [r k]. cbn [root_ capacity_] in *. now rewrite Hr.
Qed.

(** X26: on an index built by any sequence of calls, [remove(value, bs)]
    returns [true] exactly when an entry with that value and a set with the
    elements of [bs] is stored; every query whose set contains [bs] then
    returns one occurrence of [value] fewer, and every other query, as every
    query after a [false], returns what it returned before. *)
Theorem searcher_remove_reports_stored c ops value bs q :
  Forall (fun o => backed (op_set o)) ops ->
  backed bs -> binary_set.capacity bs = c ->
  backed q -> binary_set.capacity q = c ->
  exists b s' res res',
    bs_searcher.remove value bs (run_all ops (bs_searcher.make c)) = (Ok b, s') /\
    b = existsb (fun x => entry_eqb x (bs, value)) (stored c ops) /\
    bs_searcher.find_subsets q (run_all ops (bs_searcher.make c)) = Ok res /\
    bs_searcher.find_subsets q s' = Ok res' /\
    Permutation res (if b && is_subset_of bs q then value :: res' else res').
Proof.
  intros Hops Hb Hc Hq Hqc.
  pose proof (index_inv_built c ops Hops) as I.
  pose proof (remove_reports c _ _ value bs I Hb Hc) as F.
  destruct (find_subsets_stored c ops q Hops Hq Hqc) as (res & E & P).
  destruct (find_subsets_stored c (ops ++ [OpRemove value bs]) q
              (Forall_backed_snoc ops (OpRemove value bs) Hops Hb) Hq Hqc)
    as (res' & E' & P').
  rewrite run_all_app in E'. cbn [run_all fold_left run] in E'.
  destruct (bs_searcher.remove value bs (run_all ops (bs_searcher.make c)))
    as [o s'] eqn:R.
  cbn [fst snd] in *. subst o.
  eexists _, s', res, res'. split; [reflexivity|]. split; [reflexivity|].
  split; [exact E|]. split; [exact E'|].
  destruct I as [_ He _].
  destruct (existsb _ (stored c ops)) eqn:X; cbn [andb].
  - destruct (remove_one_found c (bs, value) _ He Hc X) as (x & K & Cx & Px).
    assert (S : stored c (ops ++ [OpRemove value bs]) =
                remove_one (bs, value) (stored c ops)).
    { rewrite stored_app. cbn [stored_step]. now rewrite Hc, Z.eqb_refl. }
    rewrite <- S in Px.
    pose proof (stored_subsets_perm c ops _ q x Hqc Px) as Q.
    injection K as Ke Kv. rewrite Kv in Q.
    rewrite (is_subset_of_same (fst x) bs q c Cx Hc Hqc Ke) in Q.
    destruct (is_subset_of bs q); rewrite P, Q; [apply perm_skip|];
      symmetry; exact P'.
  - rewrite P, P'. unfold stored_subsets. rewrite stored_app. cbn [stored_step].
    rewrite Hc, Z.eqb_refl.
    rewrite (remove_one_absent c (bs, value) _ He Hc); [reflexivity|].
    intros Hin. apply (existsb_entry_key c) in Hin; [congruence|exact He|exact Hc].
Qed.

(** X27: on an index built by any sequence of calls, [add(value, bs)] makes
    every query whose set contains [bs] return one more occurrence of
    [value], and leaves the result of every other query as it was. *)
Theorem searcher_add_extends_results c ops value bs q :
  Forall (fun o => backed (op_set o)) ops ->
  backed bs -> binary_set.capacity bs = c ->
  backed q -> binary_set.capacity q = c ->
  exists s' res res',
    bs_searcher.add value bs (run_all ops (bs_searcher.make c)) = (Ok tt, s') /\
    bs_searcher.find_subsets q (run_all ops (bs_searcher.make c)) = Ok res /\
    bs_searcher.find_subsets q s' = Ok res' /\
    Permutation res' (if is_subset_of bs q then value :: res else res).
Proof.
  intros Hops Hb Hc Hq Hqc.
  destruct (index_inv_built c ops Hops) as [Hcap _ (root & Hr & _)].
  destruct (find_subsets_stored c ops q Hops Hq Hqc) as (res & E & P).
  destruct (find_subsets_stored c (ops ++ [OpAdd value bs]) q
              (Forall_backed_snoc ops (OpAdd value bs) Hops Hb) Hq Hqc)
    as (res' & E' & P').
  rewrite run_all_app in E'. cbn [run_all fold_left run] in E'.
  pose proof (add_insert value bs (run_all ops (bs_searcher.make c)) root Hb
                ltac:(congruence) Hr) as A.
  rewrite A in E' |- *. cbn [snd] in E'.
  eexists _, res, res'. split; [reflexivity|]. split; [exact E|].
  split; [exact E'|].
  assert (Q : Permutation (stored c (ops ++ [OpAdd value bs]))
                          ((bs, value) :: stored c ops)).
  { rewrite stored_app. cbn [stored_step]. rewrite Hc, Z.eqb_refl.
    symmetry. apply Permutation_cons_append. }
  pose proof (stored_subsets_perm c _ ops q (bs, value) Hqc Q) as Q'.
  cbn [fst snd] in Q'.
  destruct (is_subset_of bs q); rewrite P', Q'; [apply perm_skip|];
    symmetry; exact P.
Qed.

Lemma count_occ_filter_le (f g : entry -> bool) v l :
  (forall e, In e l -> f e = true -> g e = true) ->
  (count_occ Z.eq_dec (map snd (filter f l)) v <=
   count_occ Z.eq_dec (map snd (filter g l)) v)%nat.
Proof.
  induction l as [|e l IH]; intros H; [reflexivity|].
  cbn [filter]. specialize (IH ltac:(intros x Hx; apply H; now right)).
  destruct (f e) eqn:F.
  - rewrite (H e ltac:(now left) F). cbn [map count_occ].
    destruct (Z.eq_dec (snd e) v); lia.
  - destruct (g e); [|exact IH]. cbn [map count_occ].
    destruct (Z.eq_dec (snd e) v); lia.
Qed.

(** X28: a larger query finds more: when every element of [q] is an element
    of [q'], every value [find_subsets(q)] returns is returned by
    [find_subsets(q')] at least as often. *)
Theorem find_subsets_monotone c ops q q' :
  Forall (fun o => backed (op_set o)) ops ->
  backed q -> binary_set.capacity q = c ->
  backed q' -> binary_set.capacity q' = c ->
  is_subset_of q q' = true ->
  exists res res',
    bs_searcher.find_subsets q (run_all ops (bs_searcher.make c)) = Ok res /\
    bs_searcher.find_subsets q' (run_all ops (bs_searcher.make c)) = Ok res' /\
    forall v, (count_occ Z.eq_dec res v <= count_occ Z.eq_dec res' v)%nat.
Proof.
  intros Hops Hq Hqc Hq' Hqc' Hsub.
  destruct (find_subsets_stored c ops q Hops Hq Hqc) as (res & E & P).
  destruct (find_subsets_stored c ops q' Hops Hq' Hqc') as (res' & E' & P').
  exists res, res'. split; [exact E|]. split; [exact E'|]. intros v.
  rewrite (proj1 (Permutation_count_occ Z.eq_dec _ _) P v).
  rewrite (proj1 (Permutation_count_occ Z.eq_dec _ _) P' v).
  unfold stored_subsets. apply count_occ_filter_le.
  intros e Hin Hs. destruct (index_inv_built c ops Hops) as [_ He _].
  rewrite Forall_forall in He. specialize (He e Hin).
  unfold binary_set.capacity in *.
  rewrite is_subset_of_spec in *. intros i Hi M.
  apply Hsub; [lia|]. now apply Hs.
Qed.

(** ** The half-filled set of the benchmarks *)

(** [add] of an element that is absent. *)
Lemma add_absent s e :
  inv s -> backed s -> 0 <= e < binary_set.capacity_ s -> member s e = false ->
  exists s',
    binary_set.add e s = (Ok true, s') /\ inv s' /\ backed s' /\
    binary_set.capacity_ s' = binary_set.capacity_ s /\
    forall i, 0 <= i < binary_set.capacity_ s ->
              member s' i = (i =? e) || member s i.
Proof.
  intros I [Bc B] He M.
  assert (He8 : e < 8 * vec_size (binary_set.set_ s)) by lia.
  rewrite (member_bit s e He) in M.
  destruct (add_cases e s (proj1 He)) as
    [[C _]|[(_ & C & _)|[(_ & C & _)|[(_ & _ & Bt & A)|(_ & _ & Bt & A)]]]];
    try lia; try congruence.
  destruct (inv_set_bit s e I He He8 Bt) as [U I'].
  eexists. split; [exact A|]. split; [exact I'|]. split; [|split; [reflexivity|]].
  - unfold backed. cbn [binary_set.capacity_ binary_set.set_].
    rewrite set_bit_length. lia.
  - intros i Hi. rewrite member_mk_bit by exact Hi.
    rewrite bit_set_bit by lia. rewrite <- member_bit by lia.
    now destruct (i =? e).
Qed.

Lemma cnt_even n : 0 <= n -> cnt Z.even n = (n + 1) / 2.
Proof.
  intros Hn. pattern n. apply natlike_ind; [reflexivity| |exact Hn].
  intros x Hx IH. unfold Z.succ. rewrite cnt_succ by lia. rewrite IH.
  destruct (Z.even x) eqn:E.
  - apply Z.even_spec in E. destruct E as [m ->].
    Z.to_euclidean_division_equations. lia.
  - assert (O : Z.odd x = true) by (rewrite <- Z.negb_even, E; reflexivity).
    apply Z.odd_spec in O. destruct O as [m ->].
    Z.to_euclidean_division_equations. lia.
Qed.

Lemma half_fill_loop_evens c :
  c < 4294967294 ->
  forall fuel i s,
    inv s -> backed s -> binary_set.capacity_ s = c ->
    0 <= i -> Z.even i = true ->
    (forall j, 0 <= j < c -> member s j = Z.even j && (j <? i)) ->
    (Z.to_nat (c - i) <= fuel)%nat ->
    exists s',
      benchmark.half_fill_loop fuel c i s = (Ok tt, s') /\ inv s' /\
      backed s' /\ binary_set.capacity_ s' = c /\
      forall j, 0 <= j < c -> member s' j = Z.even j.
Proof.
  intros Hc. induction fuel as [|fuel IH]; intros i s I B C Hi Ev M Hf.
  - cbn [benchmark.half_fill_loop].
    destruct (Z.ltb_spec i c); [lia|].
    exists s. split; [reflexivity|]. split; [exact I|]. split; [exact B|].
    split; [exact C|].
    intros j Hj. rewrite (M j Hj).
    destruct (Z.ltb_spec j i); [apply andb_true_r|lia].
  - cbn [benchmark.half_fill_loop].
    destruct (Z.ltb_spec i c) as [Hlt|Hge].
    + assert (Mi : member s i = false).
      { rewrite M by lia. rewrite Z.ltb_irrefl. apply andb_false_r. }
      destruct (add_absent s i I B ltac:(lia) Mi) as (s1 & A & I1 & B1 & C1 & M1).
      unfold bind. rewrite A.
      assert (U : u32 (i + 2) = i + 2)
        by (unfold u32; apply Z.mod_small; change (2 ^ 32) with 4294967296; lia).
      rewrite U. apply IH; try assumption; try lia.
      * rewrite Z.even_add, Ev. reflexivity.
      * intros j Hj. rewrite M1 by lia. rewrite M by lia.
        destruct (Z.eqb_spec j i) as [->|Hne].
        -- rewrite Ev. cbn [orb andb]. symmetry. apply Z.ltb_lt. lia.
        -- cbn [orb]. destruct (Z.ltb_spec j i) as [Hji|Hji].
           ++ destruct (Z.ltb_spec j (i + 2)); [reflexivity|lia].
           ++ rewrite andb_false_r.
              destruct (Z.ltb_spec j (i + 2)) as [Hj2|Hj2]; [|now rewrite andb_false_r].
              assert (j = i + 1) as -> by lia.
              rewrite Z.even_add, Ev. reflexivity.
    + exists s. split; [reflexivity|]. split; [exact I|]. split; [exact B|].
    split; [exact C|].
      intros j Hj. rewrite (M j Hj).
      destruct (Z.ltb_spec j i); [apply andb_true_r|lia].
Qed.

(** X29: [create_half_filled_binary_set(c)] of the benchmarks returns, for
    a capacity [c > 0], the set of capacity [c] whose elements are the even
    indices below [c], [(c + 1) / 2] of them; for [c = 0] the constructor's
    exception leaves it. *)
Theorem half_filled_set_holds_evens c :
  0 < c -> c + 7 < 2 ^ 32 ->
  (exists s,
     benchmark.create_half_filled_binary_set c = Ok s /\
     binary_set.capacity s = c /\
     binary_set.size s = (c + 1) / 2 /\
     forall i, 0 <= i < c -> binary_set.contains i s = Ok (Z.even i)) /\
  benchmark.create_half_filled_binary_set 0 = Throw binary_set.invalid_capacity.
Proof.
  intros Hc Hs. change (2 ^ 32) with 4294967296 in Hs. split; [|reflexivity].
  destruct (make_cleared c Hc Hs) as [E I].
  set (s0 := binary_set.mk c 0 (repeat 0 (Z.to_nat ((c + 7) / 8)))) in *.
  assert (R0 : reachable s0)
    by (apply (reach_make c false); [change (2 ^ 32) with 4294967296; lia|exact E]).
  assert (B0 : backed s0)
    by (apply reachable_backed; [exact R0|
        unfold binary_set.capacity; cbn; change (2 ^ 32) with 4294967296; lia]).
  assert (M0 : forall j, 0 <= j < c -> member s0 j = Z.even j && (j <? 0)).
  { intros j Hj. destruct (Z.ltb_spec j 0); [lia|]. rewrite andb_false_r.
    assert (Z0 : cnt (member s0) (binary_set.capacity_ s0) = 0)
      by (rewrite <- inv_size_cnt by exact I; reflexivity).
    apply (cnt_zero_inv _ _ Z0). exact Hj. }
  destruct (half_fill_loop_evens c ltac:(lia) (S (Z.to_nat c)) 0 s0 I B0 eq_refl
              ltac:(lia) eq_refl M0 ltac:(lia)) as (s & L & Is & Bs & Cs & Ms).
  unfold benchmark.create_half_filled_binary_set. rewrite E. cbn [obind].
  rewrite L. cbn [obind].
  exists s. split; [reflexivity|]. unfold binary_set.capacity, binary_set.size.
  split; [exact Cs|]. split.
  - rewrite (inv_size_cnt s Is), Cs. rewrite <- cnt_even by lia.
    apply cnt_ext. exact Ms.
  - intros i Hi. rewrite contains_member.
    + f_equal. now apply Ms.
    + exact Bs.
    + unfold binary_set.capacity. lia.
Qed.

(** ** The further properties at concrete inputs *)

Lemma set_3_backed : backed set_3.
Proof. unfold backed. cbn. lia. Defined.

Lemma set_none_backed : backed set_none.
Proof. unfold backed. cbn. lia. Defined.

Lemma set_0_backed : backed set_0.
Proof. unfold backed. cbn. lia. Defined.

Lemma index_3_in_range : 0 <= 3 < binary_set.capacity set_none.
Proof. cbn. lia. Defined.

Lemma add_puts_element_witness :
  reachable set_none /\ backed set_none /\
  0 <= 3 < binary_set.capacity set_none /\
  exists s', binary_set.add 3 set_none = (Ok true, s') /\ binary_set.size s' = 1.
Proof.
  split; [exact set_none_reachable|]. split; [exact set_none_backed|].
  split; [exact index_3_in_range|].
  destruct (add_puts_element set_none 3 set_none_reachable set_none_backed
              index_3_in_range) as (s' & A & _ & _ & S & _).
  exists s'. split; [exact A|exact S].
Defined.

Lemma remove_takes_element_witness :
  reachable set_3 /\ backed set_3 /\ 0 <= 3 < binary_set.capacity set_3 /\
  exists s', binary_set.remove 3 set_3 = (Ok true, s') /\ binary_set.size s' = 0.
Proof.
  split; [exact set_3_reachable|]. split; [exact set_3_backed|].
  split; [exact index_3_in_range|].
  destruct (remove_takes_element set_3 3 set_3_reachable set_3_backed
              index_3_in_range) as (s' & A & _ & _ & S & _).
  exists s'. split; [exact A|exact S].
Defined.

Lemma make_all_or_nothing_witness :
  0 < 13 /\ 13 + 7 < 2 ^ 32 /\
  exists s,
    binary_set.make 13 true = Ok s /\ binary_set.size s = 13 /\
    vec_size (binary_set.set_ s) = 2.
Proof.
  split; [reflexivity|]. split; [reflexivity|].
  destruct (make_all_or_nothing 13 true eq_refl eq_refl) as (s & E & _ & S & L & _).
  exists s. split; [exact E|]. split; [exact S|exact L].
Defined.

Lemma clear_leaves_nothing_witness :
  reachable set_3 /\ backed set_3 /\
  binary_set.size (binary_set.clear set_3) = 0 /\
  binary_set.empty (binary_set.clear set_3) = true.
Proof.
  split; [exact set_3_reachable|]. split; [exact set_3_backed|].
  destruct (clear_leaves_nothing set_3 set_3_reachable set_3_backed)
    as (_ & S & E & _).
  split; [exact S|exact E].
Defined.

Lemma fill_takes_everything_witness :
  reachable set_3 /\ backed set_3 /\
  exists s', binary_set.fill set_3 = (Ok tt, s') /\ binary_set.size s' = 8.
Proof.
  split; [exact set_3_reachable|]. split; [exact set_3_backed|].
  destruct (fill_takes_everything set_3 set_3_reachable set_3_backed)
    as (s' & F & _ & S & _).
  exists s'. split; [exact F|exact S].
Defined.

Lemma size_within_capacity_witness :
  reachable set_3 /\ 0 <= binary_set.size set_3 <= binary_set.capacity set_3.
Proof.
  split; [exact set_3_reachable|].
  exact (proj1 (size_within_capacity set_3 set_3_reachable)).
Defined.

Lemma empty_means_no_element_witness :
  reachable set_none /\
  (binary_set.empty set_none = true <-> binary_set.size set_none = 0).
Proof.
  split; [exact set_none_reachable|].
  exact (proj1 (empty_means_no_element set_none set_none_reachable)).
Defined.

Lemma eq_compares_elements_witness :
  reachable set_3 /\ reachable set_none /\
  binary_set.capacity set_3 = binary_set.capacity set_none /\
  exists r, binary_set.eq set_3 set_none = Ok r /\
            binary_set.neq set_3 set_none = Ok (negb r).
Proof.
  split; [exact set_3_reachable|]. split; [exact set_none_reachable|].
  split; [reflexivity|].
  destruct (eq_compares_elements set_3 set_none set_3_reachable
              set_none_reachable eq_refl) as (r & E & N & _).
  exists r. split; [exact E|exact N].
Defined.

Lemma and_keeps_common_witness :
  reachable set_3 /\ reachable set_none /\ backed set_3 /\
  binary_set.capacity set_3 = binary_set.capacity set_none /\
  exists r, binary_set.and_ set_3 set_none = Ok r /\
            binary_set.and_assign set_none set_3 = (Ok tt, r).
Proof.
  split; [exact set_3_reachable|]. split; [exact set_none_reachable|].
  split; [exact set_3_backed|]. split; [reflexivity|].
  destruct (and_keeps_common set_3 set_none set_3_reachable set_none_reachable
              set_3_backed eq_refl) as (r & C & A & _).
  exists r. split; [exact C|exact A].
Defined.

Lemma or_joins_witness :
  reachable set_3 /\ reachable set_none /\ backed set_3 /\
  binary_set.capacity set_3 = binary_set.capacity set_none /\
  exists r, binary_set.or_ set_3 set_none = Ok r /\
            binary_set.or_assign set_none set_3 = (Ok tt, r).
Proof.
  split; [exact set_3_reachable|]. split; [exact set_none_reachable|].
  split; [exact set_3_backed|]. split; [reflexivity|].
  destruct (or_joins set_3 set_none set_3_reachable set_none_reachable
              set_3_backed eq_refl) as (r & C & A & _).
  exists r. split; [exact C|exact A].
Defined.

Lemma sub_drops_other_witness :
  reachable set_3 /\ reachable set_none /\ backed set_3 /\
  binary_set.capacity set_3 = binary_set.capacity set_none /\
  exists r, binary_set.sub set_3 set_none = Ok r /\
            binary_set.sub_assign set_none set_3 = (Ok tt, r).
Proof.
  split; [exact set_3_reachable|]. split; [exact set_none_reachable|].
  split; [exact set_3_backed|]. split; [reflexivity|].
  destruct (sub_drops_other set_3 set_none set_3_reachable set_none_reachable
              set_3_backed eq_refl) as (r & C & A & _).
  exists r. split; [exact C|exact A].
Defined.

Lemma capacity_8_positive : 0 < binary_set.capacity set_3.
Proof. reflexivity. Defined.

Lemma not_flips_elements_witness :
  reachable set_3 /\ backed set_3 /\ 0 < binary_set.capacity set_3 /\
  exists r, binary_set.not_ set_3 = Ok r /\ binary_set.size r = 7.
Proof.
  split; [exact set_3_reachable|]. split; [exact set_3_backed|].
  split; [exact capacity_8_positive|].
  destruct (not_flips_elements set_3 set_3_reachable set_3_backed
              capacity_8_positive) as (r & E & _ & _ & S).
  exists r. split; [exact E|exact S].
Defined.

Lemma not_twice_witness :
  reachable set_3 /\ backed set_3 /\ 0 < binary_set.capacity set_3 /\
  exists r, binary_set.not_ set_3 = Ok r /\ binary_set.not_ r = Ok set_3.
Proof.
  split; [exact set_3_reachable|]. split; [exact set_3_backed|].
  split; [exact capacity_8_positive|].
  exact (not_twice set_3 set_3_reachable set_3_backed capacity_8_positive).
Defined.

Lemma and_or_laws_witness :
  reachable set_3 /\ reachable set_none /\
  binary_set.capacity set_3 = binary_set.capacity set_none /\
  binary_set.and_ set_3 set_none = binary_set.and_ set_none set_3 /\
  binary_set.or_ set_3 set_none = binary_set.or_ set_none set_3.
Proof.
  split; [exact set_3_reachable|]. split; [exact set_none_reachable|].
  split; [reflexivity|].
  destruct (and_or_laws set_3 set_none set_3 set_3_reachable set_none_reachable
              set_3_reachable eq_refl eq_refl) as (A & O & _).
  split; [exact A|exact O].
Defined.

Lemma sub_is_and_not_witness :
  reachable set_3 /\ reachable set_none /\ backed set_3 /\
  binary_set.capacity set_3 = binary_set.capacity set_none /\
  0 < binary_set.capacity set_3 /\
  binary_set.sub set_3 set_3 = Ok (binary_set.clear set_3).
Proof.
  split; [exact set_3_reachable|]. split; [exact set_none_reachable|].
  split; [exact set_3_backed|]. split; [reflexivity|].
  split; [exact capacity_8_positive|].
  destruct (sub_is_and_not set_3 set_none set_3_reachable set_none_reachable
              set_3_backed eq_refl capacity_8_positive) as (r & _ & _ & Z0).
  exact Z0.
Defined.

Lemma de_morgan_or_holds_witness :
  reachable set_3 /\ reachable set_none /\ backed set_3 /\
  binary_set.capacity set_3 = binary_set.capacity set_none /\
  0 < binary_set.capacity set_3 /\
  de_morgan_or set_3 set_none = Ok true.
Proof.
  split; [exact set_3_reachable|]. split; [exact set_none_reachable|].
  split; [exact set_3_backed|]. split; [reflexivity|].
  split; [exact capacity_8_positive|].
  exact (de_morgan_or_holds set_3 set_none set_3_reachable set_none_reachable
           set_3_backed eq_refl capacity_8_positive).
Defined.

Lemma intersects_finds_common_witness :
  reachable set_3 /\ reachable set_none /\
  binary_set.capacity set_3 = binary_set.capacity set_none /\
  exists r, binary_set.intersects set_3 set_none = Ok r.
Proof.
  split; [exact set_3_reachable|]. split; [exact set_none_reachable|].
  split; [reflexivity|].
  destruct (intersects_finds_common set_3 set_none set_3_reachable
              set_none_reachable eq_refl) as (r & E & _).
  exists r. exact E.
Defined.

Lemma contains_set_tests_inclusion_witness :
  reachable set_3 /\ reachable set_none /\ backed set_3 /\
  binary_set.capacity set_3 = binary_set.capacity set_none /\
  exists r, binary_set.contains_set set_3 set_none = Ok r.
Proof.
  split; [exact set_3_reachable|]. split; [exact set_none_reachable|].
  split; [exact set_3_backed|]. split; [reflexivity|].
  destruct (contains_set_tests_inclusion set_3 set_none set_3_reachable
              set_none_reachable set_3_backed eq_refl) as (r & E & _).
  exists r. exact E.
Defined.

Lemma contains_set_partial_order_witness :
  reachable set_3 /\ reachable set_none /\ backed set_3 /\
  binary_set.capacity set_3 = binary_set.capacity set_none /\
  binary_set.contains_set set_3 set_3 = Ok true.
Proof.
  split; [exact set_3_reachable|]. split; [exact set_none_reachable|].
  split; [exact set_3_backed|]. split; [reflexivity|].
  exact (proj1 (contains_set_partial_order set_3 set_none set_3 set_3_reachable
                  set_none_reachable set_3_reachable set_3_backed eq_refl eq_refl)).
Defined.

Lemma tests_agree_with_operators_witness :
  reachable set_3 /\ reachable set_none /\ backed set_3 /\
  binary_set.capacity set_3 = binary_set.capacity set_none /\
  binary_set.intersects set_3 set_none =
    (r <- binary_set.and_ set_3 set_none ;; Ok (negb (binary_set.empty r)))%outcome.
Proof.
  split; [exact set_3_reachable|]. split; [exact set_none_reachable|].
  split; [exact set_3_backed|]. split; [reflexivity|].
  exact (proj1 (tests_agree_with_operators set_3 set_none set_3_reachable
                  set_none_reachable set_3_backed eq_refl)).
Defined.

Lemma position_0_in_range : 0 <= 0 < binary_set.capacity set_3.
Proof. cbn. lia. Defined.

Lemma fuel_8_enough : (Z.to_nat (binary_set.capacity set_3 - 0) <= 8)%nat.
Proof. cbn. lia. Defined.

Lemma iterator_incr_finds_next_witness :
  reachable set_3 /\ backed set_3 /\ 0 <= 0 < binary_set.capacity set_3 /\
  (Z.to_nat (binary_set.capacity set_3 - 0) <= 8)%nat /\
  exists p, binary_set.iterator_incr 8 set_3 0 = Ok p /\
            0 < p <= binary_set.capacity set_3.
Proof.
  split; [exact set_3_reachable|]. split; [exact set_3_backed|].
  split; [exact position_0_in_range|]. split; [exact fuel_8_enough|].
  destruct (iterator_incr_finds_next set_3 0 8 set_3_reachable set_3_backed
              position_0_in_range fuel_8_enough) as (p & E & R & _).
  exists p. split; [exact E|exact R].
Defined.

Lemma begin_at_smallest_element_witness :
  reachable set_3 /\ backed set_3 /\
  exists p, binary_set.begin_ set_3 = Ok p /\
            binary_set.end_ set_3 = Ok (binary_set.capacity set_3).
Proof.
  split; [exact set_3_reachable|]. split; [exact set_3_backed|].
  destruct (begin_at_smallest_element set_3 set_3_reachable set_3_backed)
    as (p & B & E & _).
  exists p. split; [exact B|exact E].
Defined.

Lemma sparse_lists_elements_witness :
  reachable set_3 /\ backed set_3 /\ 0 < binary_set.capacity set_3 /\
  binary_set.sparse set_3 =
    Ok (filter (member set_3) (range (binary_set.capacity set_3))).
Proof.
  split; [exact set_3_reachable|]. split; [exact set_3_backed|].
  split; [exact capacity_8_positive|].
  exact (proj1 (sparse_lists_elements set_3 set_3_reachable set_3_backed
                  capacity_8_positive)).
Defined.

Lemma to_string_marks_elements_witness :
  backed set_3 /\
  exists str, binary_set.to_string set_3 = Ok str /\ String.length str = 10%nat.
Proof.
  split; [exact set_3_backed|].
  destruct (to_string_marks_elements set_3 set_3_backed) as (str & E & _ & L & _).
  exists str. split; [exact E|exact L].
Defined.

Lemma searcher_add_then_remove_witness :
  Forall (fun o => backed (op_set o)) sample_ops /\ backed set_0 /\
  binary_set.capacity set_0 = 2 /\
  exists s1,
    bs_searcher.add 9 set_0 (run_all sample_ops (bs_searcher.make 2)) = (Ok tt, s1) /\
    bs_searcher.remove 9 set_0 s1 =
      (Ok true, run_all sample_ops (bs_searcher.make 2)).
Proof.
  split; [exact sample_ops_backed|]. split; [exact set_0_backed|].
  split; [reflexivity|].
  exact (searcher_add_then_remove 2 sample_ops 9 set_0 sample_ops_backed
           set_0_backed eq_refl).
Defined.

Lemma searcher_remove_reports_stored_witness :
  Forall (fun o => backed (op_set o)) sample_ops /\ backed set_0 /\
  binary_set.capacity set_0 = 2 /\
  exists b s',
    bs_searcher.remove 3 set_0 (run_all sample_ops (bs_searcher.make 2)) =
      (Ok b, s') /\
    b = existsb (fun x => entry_eqb x (set_0, 3)) (stored 2 sample_ops).
Proof.
  split; [exact sample_ops_backed|]. split; [exact set_0_backed|].
  split; [reflexivity|].
  destruct (searcher_remove_reports_stored 2 sample_ops 3 set_0 set_0
              sample_ops_backed set_0_backed eq_refl set_0_backed eq_refl)
    as (b & s' & _ & _ & R & B & _).
  exists b, s'. split; [exact R|exact B].
Defined.

Lemma searcher_add_extends_results_witness :
  Forall (fun o => backed (op_set o)) sample_ops /\ backed set_0 /\
  binary_set.capacity set_0 = 2 /\
  exists s' res res',
    bs_searcher.add 9 set_0 (run_all sample_ops (bs_searcher.make 2)) = (Ok tt, s') /\
    bs_searcher.find_subsets set_0 (run_all sample_ops (bs_searcher.make 2)) =
      Ok res /\
    bs_searcher.find_subsets set_0 s' = Ok res' /\
    Permutation res' (9 :: res).
Proof.
  split; [exact sample_ops_backed|]. split; [exact set_0_backed|].
  split; [reflexivity|].
  exact (searcher_add_extends_results 2 sample_ops 9 set_0 set_0
           sample_ops_backed set_0_backed eq_refl set_0_backed eq_refl).
Defined.

Lemma set_01_backed : backed (binary_set.mk 2 2 [3]).
Proof. unfold backed. cbn. lia. Defined.

Lemma find_subsets_monotone_witness :
  Forall (fun o => backed (op_set o)) sample_ops /\ backed set_0 /\
  binary_set.capacity set_0 = 2 /\ backed (binary_set.mk 2 2 [3]) /\
  binary_set.capacity (binary_set.mk 2 2 [3]) = 2 /\
  is_subset_of set_0 (binary_set.mk 2 2 [3]) = true /\
  exists res res',
    bs_searcher.find_subsets set_0 (run_all sample_ops (bs_searcher.make 2)) =
      Ok res /\
    bs_searcher.find_subsets (binary_set.mk 2 2 [3])
      (run_all sample_ops (bs_searcher.make 2)) = Ok res' /\
    forall v, (count_occ Z.eq_dec res v <= count_occ Z.eq_dec res' v)%nat.
Proof.
  split; [exact sample_ops_backed|]. split; [exact set_0_backed|].
  split; [reflexivity|]. split; [exact set_01_backed|]. split; [reflexivity|].
  split; [reflexivity|].
  exact (find_subsets_monotone 2 sample_ops set_0 (binary_set.mk 2 2 [3])
           sample_ops_backed set_0_backed eq_refl set_01_backed eq_refl eq_refl).
Defined.

Lemma half_filled_set_holds_evens_witness :
  0 < 8 /\ 8 + 7 < 2 ^ 32 /\
  exists s,
    benchmark.create_half_filled_binary_set 8 = Ok s /\
    binary_set.size s = 4 /\
    binary_set.contains 6 s = Ok true /\ binary_set.contains 7 s = Ok false.
Proof.
  split; [reflexivity|]. split; [reflexivity|].
  destruct (proj1 (half_filled_set_holds_evens 8 eq_refl eq_refl))
    as (s & E & _ & S & M).
  exists s. split; [exact E|]. split; [exact S|].
  split; [apply (M 6); lia|apply (M 7); lia].
Defined.

Lemma sizes_inclusion_exclusion_witness :
  reachable set_3 /\ reachable set_none /\ backed set_3 /\
  binary_set.capacity set_3 = binary_set.capacity set_none /\
  exists i u d,
    binary_set.and_ set_3 set_none = Ok i /\
    binary_set.or_ set_3 set_none = Ok u /\
    binary_set.sub set_3 set_none = Ok d /\
    binary_set.size u + binary_set.size i = 1 /\
    binary_set.size d + binary_set.size i = 1.
Proof.
  split; [exact set_3_reachable|]. split; [exact set_none_reachable|].
  split; [exact set_3_backed|]. split; [reflexivity|].
  exact (sizes_inclusion_exclusion set_3 set_none set_3_reachable
           set_none_reachable set_3_backed eq_refl).
Defined.
